(** * E-Meet retrieval-augmented answering: VectorService.ts and RAGService.ts

    A shallow embedding of the two TypeScript services and the properties
    that the specification states about them.

    - JavaScript numbers are IEEE-754 binary64 values: Rocq's primitive
      [float], with the operations of [PrimFloat].
    - JavaScript strings are sequences of UTF-16 code units: [list Z].
    - A call that may throw returns a [completion]: [Return v] or [Throw e];
      [try_catch] is the [try { } catch { }] statement.
    - [await] is sequencing: every asynchronous call of the two services is
      awaited before the next statement runs.
    - What the host provides and the repository does not define (case
      mapping, number formatting, the two HTTP endpoints) is the class
      [Host].
    - Where a property is about magnitudes (the norm of a vector), a float
      stands for its real value: [FloatValue]. *)

From Stdlib Require Import ZArith List Bool Lia Floats String Ascii.
From Stdlib Require Import Strings.Byte.
From Stdlib Require Uint63.
From Stdlib Require Import Permutation Sorted.
From Stdlib Require Reals Lra Psatz.
Import ListNotations.

Set Warnings "-inexact-float,-abstract-large-number".

Local Open Scope Z_scope.

(** ** The JavaScript values the services use *)
Module JS.

(** *** Strings: UTF-16 code units *)

Definition jsstring := list Z.

(** Source literals are written as UTF-8 Rocq strings and decoded to UTF-16
    code units (one or two units per code point). *)
Fixpoint utf16_of_utf8 (bs : list Z) : jsstring :=
  match bs with
  | [] => []
  | b0 :: r0 =>
    if b0 <? 128 then b0 :: utf16_of_utf8 r0
    else
      match r0 with
      | [] => []
      | b1 :: r1 =>
        if b0 <? 224 then
          Z.lor (Z.shiftl (Z.land b0 31) 6) (Z.land b1 63) :: utf16_of_utf8 r1
        else
          match r1 with
          | [] => []
          | b2 :: r2 =>
            if b0 <? 240 then
              Z.lor (Z.shiftl (Z.land b0 15) 12)
                    (Z.lor (Z.shiftl (Z.land b1 63) 6) (Z.land b2 63))
              :: utf16_of_utf8 r2
            else
              match r2 with
              | [] => []
              | b3 :: r3 =>
                let cp :=
                  Z.lor (Z.shiftl (Z.land b0 7) 18)
                        (Z.lor (Z.shiftl (Z.land b1 63) 12)
                               (Z.lor (Z.shiftl (Z.land b2 63) 6) (Z.land b3 63))) in
                let v := cp - 65536 in
                (55296 + Z.shiftr v 10) :: (56320 + Z.land v 1023)
                :: utf16_of_utf8 r3
              end
          end
      end
  end.

Definition js (s : string) : jsstring :=
  utf16_of_utf8 (map (fun b => Z.of_N (Byte.to_N b)) (list_byte_of_string s)).

Fixpoint String_eqb (s t : jsstring) : bool :=
  match s, t with
  | [], [] => true
  | c :: s', d :: t' => (c =? d) && String_eqb s' t'
  | _, _ => false
  end.

(** [s.length] *)
Definition String_length (s : jsstring) : nat := List.length s.

(** A string is truthy when it is not empty. *)
Definition truthy (s : jsstring) : bool :=
  match s with [] => false | _ :: _ => true end.

(** WhiteSpace and LineTerminator code units: what [trim] strips and what
    the regular expression class [\s] matches. *)
Definition isWhiteSpace (c : Z) : bool :=
  ((9 <=? c) && (c <=? 13)) || (c =? 32) || (c =? 160) || (c =? 5760)
  || ((8192 <=? c) && (c <=? 8202)) || (c =? 8232) || (c =? 8233)
  || (c =? 8239) || (c =? 8287) || (c =? 12288) || (c =? 65279).

(** The class [\w]: [A-Za-z0-9_]. *)
Definition isWordChar (c : Z) : bool :=
  ((65 <=? c) && (c <=? 90)) || ((97 <=? c) && (c <=? 122))
  || ((48 <=? c) && (c <=? 57)) || (c =? 95).

(** The range [一-龥]. *)
Definition isCJK (c : Z) : bool := (19968 <=? c) && (c <=? 40869).

Fixpoint dropWhile {A} (p : A -> bool) (l : list A) : list A :=
  match l with
  | [] => []
  | x :: l' => if p x then dropWhile p l' else l
  end.

Definition trimStart (s : jsstring) : jsstring := dropWhile isWhiteSpace s.
Definition trimEnd (s : jsstring) : jsstring := rev (dropWhile isWhiteSpace (rev s)).
Definition trim (s : jsstring) : jsstring := trimEnd (trimStart s).

(** [s.split(re)] for a regular expression [re] that is a character class:
    the fragments between the matching code units, empty ones included. *)
Fixpoint split_class (sep : Z -> bool) (s : jsstring) : list jsstring :=
  match s with
  | [] => [[]]
  | c :: r =>
    if sep c then [] :: split_class sep r
    else
      match split_class sep r with
      | cur :: rest => (c :: cur) :: rest
      | [] => [[c]]
      end
  end.

Fixpoint startsWith (p s : jsstring) : bool :=
  match p, s with
  | [], _ => true
  | x :: p', y :: s' => (x =? y) && startsWith p' s'
  | _ :: _, [] => false
  end.

(** [s.includes(p)] *)
Fixpoint includes (s p : jsstring) : bool :=
  startsWith p s
  || match s with
     | [] => false
     | _ :: s' => includes s' p
     end.

(** [s.split(sep)] for a non-empty string [sep]; [skip] counts the code
    units of a separator occurrence that are still to be passed over. *)
Fixpoint split_string_from (sep s : jsstring) (skip : nat) : list jsstring :=
  match s with
  | [] => [[]]
  | c :: r =>
    match skip with
    | S k => split_string_from sep r k
    | O =>
      if startsWith sep s then [] :: split_string_from sep r (List.length sep - 1)
      else
        match split_string_from sep r O with
        | cur :: rest => (c :: cur) :: rest
        | [] => [[c]]
        end
    end
  end.

Definition split_string (sep s : jsstring) : list jsstring :=
  split_string_from sep s O.

(** [parts.join(sep)] *)
Fixpoint join (sep : jsstring) (parts : list jsstring) : jsstring :=
  match parts with
  | [] => []
  | [p] => p
  | p :: rest => p ++ sep ++ join sep rest
  end.

(** [s.padStart(n, pad)] for a one-unit [pad]. *)
Definition padStart (n : nat) (pad : Z) (s : jsstring) : jsstring :=
  repeat pad (n - List.length s) ++ s.

(** [s.replace(/\s+/g, ' ')]: every maximal run of white space becomes one
    space; [in_run] tells that the previous unit was white space. *)
Fixpoint collapse_whitespace (s : jsstring) (in_run : bool) : jsstring :=
  match s with
  | [] => []
  | c :: r =>
    if isWhiteSpace c then
      if in_run then collapse_whitespace r true
      else 32 :: collapse_whitespace r true
    else c :: collapse_whitespace r false
  end.

(** [s.match(/[class]+/g) || []]: the maximal runs of code units of a class,
    left to right; [cur] is the run being read. *)
Fixpoint match_runs (cls : Z -> bool) (s cur : jsstring) : list jsstring :=
  match s with
  | [] => match cur with [] => [] | _ => [cur] end
  | c :: r =>
    if cls c then match_runs cls r (cur ++ [c])
    else
      match cur with
      | [] => match_runs cls r []
      | _ => cur :: match_runs cls r []
      end
  end.

(** *** Completions: a value or a thrown error *)

Inductive JSError := Error (message : jsstring).

Inductive completion (A : Type) :=
| Return (a : A)
| Throw (e : JSError).
Arguments Return {A} a.
Arguments Throw {A} e.

Definition bind {A B} (c : completion A) (k : A -> completion B) : completion B :=
  match c with
  | Return a => k a
  | Throw e => Throw e
  end.

Definition try_catch {A} (body : completion A) (handler : JSError -> completion A)
  : completion A :=
  match body with
  | Return a => Return a
  | Throw e => handler e
  end.

(** *** Numbers *)

Local Open Scope float_scope.

Definition number := float.

(** The length of an array or string as a number (lengths are below 2^32,
    where the conversion is exact). *)
Definition number_of_nat (n : nat) : number :=
  PrimFloat.of_uint63 (Uint63.of_Z (Z.of_nat n)).

Definition is_negative_zero (x : number) : bool :=
  match Prim2SF x with
  | S754_zero true => true
  | _ => false
  end.

(** [Math.sqrt(x)] *)
Definition Math_sqrt (x : number) : number := PrimFloat.sqrt x.

(** [Math.min(x, y)] *)
Definition Math_min (x y : number) : number :=
  if is_nan x || is_nan y then nan
  else if x <? y then x
  else if y <? x then y
  else if is_negative_zero x then x else y.

(** [ToIntegerOrInfinity] of ECMAScript. *)
Inductive IntegerOrInfinity :=
| NegInfinity
| Integer (z : Z)
| PosInfinity.

Definition ToIntegerOrInfinity (x : number) : IntegerOrInfinity :=
  match Prim2SF x with
  | S754_nan => Integer 0
  | S754_zero _ => Integer 0
  | S754_infinity s => if s then NegInfinity else PosInfinity
  | S754_finite s m e =>
    let t := Z.shiftl (Zpos m) e in
    Integer (if s then Z.opp t else t)
  end.

(** [ToInt32] on an integer-valued number. *)
Definition ToInt32 (z : Z) : Z :=
  let m := (z mod 4294967296)%Z in
  if (2147483648 <=? m)%Z then (m - 4294967296)%Z else m.

(** *** Arrays *)

(** [arr.slice(0, end)] *)
Definition slice0 {A} (end_ : number) (l : list A) : list A :=
  match ToIntegerOrInfinity end_ with
  | NegInfinity => []
  | PosInfinity => l
  | Integer k =>
    if (k <? 0)%Z then firstn (Z.to_nat (Z.of_nat (List.length l) + k)) l
    else firstn (Z.to_nat k) l
  end.

(** [arr.sort(comparefn)]: the sort is stable, and an element [y] that
    stood after [x] moves in front of it only when [comparefn(y, x) < 0].
    (A NaN result of [comparefn] counts as [+0].)  For a comparator that
    is not a consistent order, as [(a, b) => b - a] on keys one of which
    is NaN, the language leaves the order to the engine; this is one such
    order, and where a key may be NaN the theorems below use only that the
    result is a permutation. *)
Fixpoint sort_insert {A} (comparefn : A -> A -> number) (x : A) (l : list A) : list A :=
  match l with
  | [] => [x]
  | y :: l' =>
    if comparefn y x <? 0 then y :: sort_insert comparefn x l'
    else x :: l
  end.

Definition sort {A} (comparefn : A -> A -> number) (l : list A) : list A :=
  fold_right (sort_insert comparefn) [] l.

(** [arr.some(p)] *)
Definition some {A} (p : A -> bool) (l : list A) : bool := existsb p l.

(** *** Map objects: insertion-ordered, keys compared as strings *)

Definition Map (V : Type) := list (jsstring * V).

Fixpoint Map_get {V} (m : Map V) (k : jsstring) : option V :=
  match m with
  | [] => None
  | (k', v) :: m' => if String_eqb k' k then Some v else Map_get m' k
  end.

(** [m.set(k, v)]: an existing key keeps its place. *)
Fixpoint Map_set {V} (m : Map V) (k : jsstring) (v : V) : Map V :=
  match m with
  | [] => [(k, v)]
  | (k', v') :: m' =>
    if String_eqb k' k then (k', v) :: m'
    else (k', v') :: Map_set m' k v
  end.

Definition Map_values {V} (m : Map V) : list V := map snd m.
Definition Map_entries {V} (m : Map V) : list (jsstring * V) := m.

End JS.

Import JS.

(** ** What the host provides

    The built-in functions whose tables the repository does not contain,
    and the two remote endpoints. A reply of an endpoint is either a
    rejected [fetch] or an HTTP response; [body] is [None] when reading the
    result out of the response's JSON throws.  Within one host a reply is
    a function of the request; a property of two runs between which the
    endpoint may change its answers is stated over two hosts. *)

Inductive FetchReply (A : Type) :=
| FetchRejected (reason : jsstring)
| HttpResponse (ok : bool) (status : number) (body : option A).
Arguments FetchRejected {A} reason.
Arguments HttpResponse {A} ok status body.

Class Host := {
  (** [String.prototype.toLowerCase] *)
  String_toLowerCase : jsstring -> jsstring;
  (** [Number.prototype.toString], as used by template literals *)
  Number_toString : number -> jsstring;
  (** [Math.floor] *)
  Math_floor : number -> number;
  (** the remainder operator [%] on numbers *)
  Number_remainder : number -> number -> number;
  (** [POST apiUrl] with a bearer key and the JSON body [{model, input}];
      the body read is [data.data[0].embedding] *)
  fetch_embeddings :
    jsstring -> jsstring -> jsstring -> jsstring -> FetchReply (list number);
  (** [POST apiUrl] with a bearer key and the JSON body
      [{model, messages: [system, user], temperature, max_tokens}];
      the body read is [data.choices[0].message.content] *)
  fetch_chat :
    jsstring -> jsstring -> jsstring -> jsstring -> jsstring -> number -> number ->
    FetchReply jsstring
}.

(** ** VectorService.ts *)
Module VectorService.

Local Open Scope float_scope.

Record Metadata := {
  segmentId : jsstring;
  meetingId : jsstring;
  speaker : jsstring;
  timestamp : number;
  text : jsstring;
  chunkIndex : option number
}.

Record Vector := {
  embedding : list number;
  metadata : Metadata
}.

Record SimilarityResult := {
  vector : Vector;
  similarity : number
}.

(** The fields of the class; [apiUrl] and [model] never change. *)
Record t := {
  vectors : list Vector;
  apiKey : jsstring
}.

Definition apiUrl : jsstring := js "https://api.openai.com/v1/embeddings".
Definition model : jsstring := js "text-embedding-ada-002".

(** The segments handed to [addMeetingSegments]. *)
Record Segment := {
  idx : number;
  t_ : number;
  seg_speaker : jsstring;
  seg_text : jsstring
}.

Definition setApiKey (s : t) (key : jsstring) : t :=
  {| vectors := vectors s; apiKey := key |}.

Definition clear (s : t) : t := {| vectors := []; apiKey := apiKey s |}.
Definition getVectorCount (s : t) : nat := List.length (vectors s).
Definition exportVectors (s : t) : list Vector := vectors s.
Definition importVectors (s : t) (vs : list Vector) : t :=
  {| vectors := vs; apiKey := apiKey s |}.
Definition getMeetingVectors (s : t) (id : jsstring) : list Vector :=
  filter (fun v => String_eqb (meetingId (metadata v)) id) (vectors s).

(** *** Private methods *)

Definition cleanText (text : jsstring) : jsstring :=
  firstn 8000
    (trim
       (filter (fun c => isWordChar c || isWhiteSpace c || isCJK c)
          (collapse_whitespace text false))).

Definition isSentenceEnd (c : Z) : bool :=
  ((c =? 12290) || (c =? 65281) || (c =? 65311)
   || (c =? 46) || (c =? 33) || (c =? 63))%Z.

(** The state of the loop of [chunkText]: the chunks pushed so far and
    [currentChunk]. *)
Definition chunk_step (maxLength : Z) (st : list jsstring * jsstring)
  (sentence : jsstring) : list jsstring * jsstring :=
  let '(chunks, currentChunk) := st in
  if (maxLength <? Z.of_nat (String_length (currentChunk ++ sentence)))%Z
     && truthy currentChunk
  then (chunks ++ [trim currentChunk], sentence)
  else (chunks,
        currentChunk ++ (if truthy currentChunk then [12290%Z] else []) ++ sentence).

(** [text.split(/[。！？.!?]/).filter(s => s.trim())] *)
Definition sentencesOf (text : jsstring) : list jsstring :=
  filter (fun s => truthy (trim s)) (split_class isSentenceEnd text).

(** [maxLength] is an integer-valued number; the one call site passes the
    default, 500. *)
Definition chunkText (text : jsstring) (maxLength : Z) : list jsstring :=
  let '(chunks, currentChunk) :=
    fold_left (chunk_step maxLength) (sentencesOf text) ([], []) in
  let chunks :=
    if truthy (trim currentChunk) then chunks ++ [trim currentChunk] else chunks in
  match chunks with
  | [] => [text]
  | _ :: _ => chunks
  end.

Definition defaultMaxLength : Z := 500.

Fixpoint cosine_loop (a b : list number) (acc : number * number * number)
  : number * number * number :=
  match a, b with
  | x :: a', y :: b' =>
    let '(dotProduct, normA, normB) := acc in
    cosine_loop a' b' (dotProduct + x * y, normA + x * x, normB + y * y)
  | _, _ => acc
  end.

Definition cosineSimilarity (a b : list number) : number :=
  if negb (List.length a =? List.length b)%nat then 0
  else
    let '(dotProduct, normA, normB) := cosine_loop a b (0, 0, 0) in
    let denominator := Math_sqrt normA * Math_sqrt normB in
    if denominator =? 0 then 0 else dotProduct / denominator.

Definition simpleHash_step (hash : Z) (char : Z) : Z :=
  ToInt32 (ToInt32 (hash * 32) - hash + char).

Definition simpleHash (str : jsstring) : Z :=
  Z.abs (fold_left simpleHash_step str 0%Z).

(** [embedding[index] += v] for an index inside the array. *)
Fixpoint add_at (index : nat) (v : number) (arr : list number) : list number :=
  match arr, index with
  | [], _ => []
  | x :: arr', O => (x + v) :: arr'
  | x :: arr', S i => x :: add_at i v arr'
  end.

Definition dimension : nat := 384.

Definition scatter (embedding : list number) (entry : jsstring * number)
  : list number :=
  let '(word, freq) := entry in
  let hash := simpleHash word in
  fold_left
    (fun emb i => add_at (Z.to_nat ((hash + i) mod 384)) (freq * 0.1) emb)
    [0; 1; 2; 3; 4]%Z embedding.

Definition count_word (wordFreq : Map number) (word : jsstring) : Map number :=
  let previous :=
    match Map_get wordFreq word with
    | Some n => if (n =? 0) || is_nan n then 0 else n
    | None => 0
    end in
  Map_set wordFreq word (previous + 1).

Definition squaredNorm (v : list number) : number :=
  fold_left (fun sum val => sum + val * val) v 0.

Section WithHost.
Context {host : Host}.

(** The three stages of [getFallbackEmbedding]: the words, the vector the
    word frequencies are scattered into, and its normalisation. *)
Definition fallbackWords (text : jsstring) : list jsstring :=
  match_runs (fun c => isWordChar c || isCJK c) (String_toLowerCase text) [].

Definition fallbackAccumulated (text : jsstring) : list number :=
  let wordFreq := fold_left count_word (fallbackWords text) [] in
  fold_left scatter (Map_entries wordFreq) (repeat 0 dimension).

Definition getFallbackEmbedding (text : jsstring) : list number :=
  let embedding := fallbackAccumulated text in
  let norm := Math_sqrt (squaredNorm embedding) in
  if 0 <? norm then map (fun val => val / norm) embedding else embedding.

(** *** Public methods *)

Definition getEmbedding (s : t) (text : jsstring) : completion (list number) :=
  if negb (truthy (apiKey s)) then
    Throw (Error (js "API key not configured for embedding service"))
  else
    let cleaned := cleanText text in
    try_catch
      match fetch_embeddings apiUrl (apiKey s) model cleaned with
      | FetchRejected reason => Throw (Error reason)
      | HttpResponse ok status body =>
        if negb ok then
          Throw (Error (js "Embedding API failed: " ++ Number_toString status))
        else
          match body with
          | Some embedding => Return embedding
          | None => Throw (Error (js "TypeError"))
          end
      end
      (fun _ => Return (getFallbackEmbedding cleaned)).

Definition score (queryEmbedding : list number) (v : Vector) : SimilarityResult :=
  {| vector := v; similarity := cosineSimilarity queryEmbedding (embedding v) |}.

Definition bySimilarityDesc (a b : SimilarityResult) : number :=
  similarity b - similarity a.

Definition semanticSearch (s : t) (query : jsstring) (limit : number)
  : completion (list SimilarityResult) :=
  match vectors s with
  | [] => Return []
  | _ :: _ =>
    try_catch
      (bind (getEmbedding s query) (fun queryEmbedding =>
         let similarities := map (score queryEmbedding) (vectors s) in
         Return
           (filter (fun result => 0.7 <? similarity result)
              (slice0 limit (sort bySimilarityDesc similarities)))))
      (fun _ => Return [])
  end.

Definition defaultLimit : number := 5.

(** One chunk of one segment in [addMeetingSegments]; [i] is the index of
    the chunk and [n] the number of chunks of the segment. *)
Definition addChunk (meeting : jsstring) (segment : Segment) (n : nat)
  (s : t) (ic : nat * jsstring) : t :=
  let '(i, chunk) := ic in
  if (String_length (trim chunk) <? 10)%nat then s
  else
    match getEmbedding s chunk with
    | Return emb =>
      let v :=
        {| embedding := emb;
           metadata :=
             {| segmentId := meeting ++ js "_" ++ Number_toString (idx segment);
                meetingId := meeting;
                speaker := seg_speaker segment;
                timestamp := t_ segment;
                text := chunk;
                chunkIndex := if (1 <? n)%nat then Some (number_of_nat i) else None |} |} in
      {| vectors := vectors s ++ [v]; apiKey := apiKey s |}
    | Throw _ => s
    end.

Definition addSegment (meeting : jsstring) (s : t) (segment : Segment) : t :=
  let chunks := chunkText (seg_text segment) defaultMaxLength in
  fold_left (addChunk meeting segment (List.length chunks)) 
    (combine (seq 0 (List.length chunks)) chunks) s.

Definition addMeetingSegments (s : t) (meeting : jsstring) (segments : list Segment) : t :=
  fold_left (addSegment meeting) segments s.

End WithHost.

End VectorService.

(** ** RAGService.ts *)
Module RAGService.

Import VectorService.
Local Open Scope float_scope.

Record RAGConfig := {
  maxContextLength : number;
  temperature : number;
  maxTokens : number;
  retrievalLimit : number;
  similarityThreshold : number
}.

(** [Partial<RAGConfig>]: a field is [None] when the object does not have
    the property. *)
Record PartialRAGConfig := {
  maxContextLength' : option number;
  temperature' : option number;
  maxTokens' : option number;
  retrievalLimit' : option number;
  similarityThreshold' : option number
}.

Record Source := {
  src_segmentId : jsstring;
  src_meetingId : jsstring;
  src_speaker : jsstring;
  src_timestamp : number;
  src_text : jsstring;
  src_similarity : number
}.

Record RAGResult := {
  answer : jsstring;
  sources : list Source;
  usedContext : jsstring;
  confidence : number
}.

Record t := {
  apiKey : jsstring;
  config : RAGConfig
}.

Definition apiUrl : jsstring := js "https://api.openai.com/v1/chat/completions".
Definition model : jsstring := js "gpt-4o-mini".

Definition defaultConfig : RAGConfig :=
  {| maxContextLength := 4000;
     temperature := 0.7;
     maxTokens := 800;
     retrievalLimit := 6;
     similarityThreshold := 0.75 |}.

(** One property of the object spread [{ ...old, ...partial }]. *)
Definition spread {A} (old : A) (new : option A) : A :=
  match new with
  | Some v => v
  | None => old
  end.

Definition updateConfig (s : t) (partial : PartialRAGConfig) : t :=
  {| apiKey := apiKey s;
     config :=
       {| maxContextLength :=
            spread (maxContextLength (config s)) (maxContextLength' partial);
          temperature := spread (temperature (config s)) (temperature' partial);
          maxTokens := spread (maxTokens (config s)) (maxTokens' partial);
          retrievalLimit :=
            spread (retrievalLimit (config s)) (retrievalLimit' partial);
          similarityThreshold :=
            spread (similarityThreshold (config s)) (similarityThreshold' partial) |} |}.

Definition boostCurrentMeeting (results : list SimilarityResult)
  (currentMeetingId : jsstring) : list SimilarityResult :=
  sort bySimilarityDesc
    (map (fun result =>
            {| vector := vector result;
               similarity :=
                 if String_eqb (meetingId (metadata (vector result))) currentMeetingId
                 then similarity result * 1.2
                 else similarity result |})
         results).

Definition dedupe_step (segmentMap : Map SimilarityResult) (result : SimilarityResult)
  : Map SimilarityResult :=
  let id := segmentId (metadata (vector result)) in
  match Map_get segmentMap id with
  | None => Map_set segmentMap id result
  | Some existing =>
    if similarity existing <? similarity result
    then Map_set segmentMap id result
    else segmentMap
  end.

Definition deduplicateResults (results : list SimilarityResult)
  : list SimilarityResult :=
  sort bySimilarityDesc (Map_values (fold_left dedupe_step results [])).

Definition uncertaintyPhrases : list jsstring :=
  [js "可能"; js "大概"; js "似乎"; js "不确定";
   js "没有找到"; js "信息不足"; js "建议"; js "或许"].

Definition containsUncertainty (answer : jsstring) : bool :=
  some (fun phrase => includes answer phrase) uncertaintyPhrases.

Definition calculateConfidence (results : list SimilarityResult) (answer : jsstring)
  : number :=
  match results with
  | [] => 0
  | _ :: _ =>
    let avgSimilarity :=
      fold_left (fun sum r => sum + similarity r) results 0
      / number_of_nat (List.length results) in
    let sourceBoost := Math_min (number_of_nat (List.length results) / 3) 1 in
    let uncertaintyPenalty := if containsUncertainty answer then 0.8 else 1 in
    Math_min (avgSimilarity * sourceBoost * uncertaintyPenalty) 1
  end.

Definition newline : jsstring := [10%Z].

Definition noEvidenceAnswer : jsstring :=
  js "抱歉，我没有找到相关的会议内容来回答您的问题。请尝试使用不同的关键词或确保已加载相关的会议记录。".

Definition noEvidenceResult : RAGResult :=
  {| answer := noEvidenceAnswer;
     sources := [];
     usedContext := [];
     confidence := 0 |}.

Definition toSource (result : SimilarityResult) : Source :=
  {| src_segmentId := segmentId (metadata (vector result));
     src_meetingId := meetingId (metadata (vector result));
     src_speaker := speaker (metadata (vector result));
     src_timestamp := timestamp (metadata (vector result));
     src_text := text (metadata (vector result));
     src_similarity := similarity result |}.

Section WithHost.
Context {host : Host}.

Definition formatTime (seconds : number) : jsstring :=
  let minutes := Math_floor (seconds / 60) in
  let secs := Math_floor (Number_remainder seconds 60) in
  Number_toString minutes ++ js ":" ++ padStart 2 48%Z (Number_toString secs).

(** The loop of [prepareContext]; the [bool] is [truncated]. *)
Fixpoint prepareContext_loop (cfg : RAGConfig) (results : list SimilarityResult)
  (context : jsstring) : jsstring * bool :=
  match results with
  | [] => (context, false)
  | result :: rest =>
    let m := metadata (vector result) in
    let segmentText :=
      js "[" ++ formatTime (timestamp m) ++ js "] " ++ speaker m ++ js ": " ++ text m in
    if maxContextLength cfg <? number_of_nat (String_length (context ++ segmentText))
    then (context, true)
    else
      prepareContext_loop cfg rest
        (context ++ (if truthy context then newline ++ newline else []) ++ segmentText)
  end.

Definition prepareContext (s : t) (results : list SimilarityResult) : jsstring * bool :=
  prepareContext_loop (config s) results [].

Definition createSystemPrompt (currentMeetingId : option jsstring) : jsstring :=
  js "你是一个智能会议助手，专门分析和回答关于会议内容的问题。" ++ newline
  ++ newline
  ++ js "职责：" ++ newline
  ++ js "- 基于提供的会议记录内容，准确回答用户的问题" ++ newline
  ++ js "- 总是引用具体的发言人和时间点来支持你的回答" ++ newline
  ++ js "- 如果信息不足，诚实说明并建议用户提供更多上下文" ++ newline
  ++ js "- 保持回答简洁但详细，重点突出关键信息" ++ newline
  ++ newline
  ++ js "回答原则：" ++ newline
  ++ js "1. 准确性：只基于提供的会议内容回答，不要编造信息" ++ newline
  ++ js "2. 引用性：总是包含发言人和时间信息" ++ newline
  ++ js "3. 结构性：使用清晰的格式组织答案" ++ newline
  ++ js "4. 中文回答：使用专业但易懂的中文"
  ++ match currentMeetingId with
     | Some id =>
       if truthy id
       then newline ++ js "5. 当前会议：重点关注当前会议 " ++ id ++ js " 的内容"
       else []
     | None => []
     end
  ++ newline
  ++ newline
  ++ js "如果问题涉及多个会议，请明确标明哪些信息来自哪次会议。".

Definition createUserPrompt (question context : jsstring) : jsstring :=
  js "基于以下会议记录内容，请回答我的问题：" ++ newline
  ++ newline
  ++ js "会议记录：" ++ newline
  ++ context ++ newline
  ++ newline
  ++ js "用户问题：" ++ question ++ newline
  ++ newline
  ++ js "请提供详细回答，并明确引用相关的发言人和时间点。".

Definition generateFallbackAnswer (question context : jsstring) : jsstring :=
  let contextLines := split_string (newline ++ newline) context in
  js "根据会议记录，我找到了以下相关信息：" ++ newline
  ++ newline
  ++ join (newline ++ newline)
       (map (fun il : nat * jsstring =>
               Number_toString (number_of_nat (fst il) + 1) ++ js ". " ++ snd il)
            (combine (seq 0 3) (firstn 3 contextLines)))
  ++ newline
  ++ newline
  ++ (if (3 <? List.length contextLines)%nat
      then newline ++ js "（还有 "
           ++ Number_toString (number_of_nat (List.length contextLines) - 3)
           ++ js " 条相关记录）"
      else [])
  ++ newline
  ++ newline
  ++ js "注意：当前使用基础检索模式。配置 OpenAI API Key 可获得更智能的回答。".

Definition generateAnswer (s : t) (question context : jsstring)
  (currentMeetingId : option jsstring) : completion jsstring :=
  if negb (truthy (apiKey s)) then Return (generateFallbackAnswer question context)
  else
    let systemPrompt := createSystemPrompt currentMeetingId in
    let userPrompt := createUserPrompt question context in
    try_catch
      match fetch_chat apiUrl (apiKey s) model systemPrompt userPrompt
              (temperature (config s)) (maxTokens (config s)) with
      | FetchRejected reason => Throw (Error reason)
      | HttpResponse ok status body =>
        if negb ok then
          Throw (Error (js "LLM API failed: " ++ Number_toString status))
        else
          match body with
          | Some content => Return (trim content)
          | None => Throw (Error (js "TypeError"))
          end
      end
      (fun _ => Return (generateFallbackAnswer question context)).

Definition retrieveContext (s : t) (vs : VectorService.t) (question : jsstring)
  (currentMeetingId : option jsstring) : completion (list SimilarityResult) :=
  bind (semanticSearch vs question (retrievalLimit (config s))) (fun results =>
    let results :=
      filter (fun r => similarityThreshold (config s) <=? similarity r) results in
    let results :=
      match currentMeetingId with
      | Some id => if truthy id then boostCurrentMeeting results id else results
      | None => results
      end in
    Return (deduplicateResults results)).

Definition query (s : t) (vs : VectorService.t) (question : jsstring)
  (currentMeetingId : option jsstring) : completion RAGResult :=
  bind (retrieveContext s vs question currentMeetingId) (fun retrievalResults =>
    match retrievalResults with
    | [] => Return noEvidenceResult
    | _ :: _ =>
      let contextData := prepareContext s retrievalResults in
      bind (generateAnswer s question (fst contextData) currentMeetingId) (fun answer =>
        let confidence := calculateConfidence retrievalResults answer in
        Return
          {| answer := answer;
             sources := map toSource retrievalResults;
             usedContext := fst contextData;
             confidence := confidence |})
    end).

End WithHost.

End RAGService.
(** ** Browser built-ins used by the callers of the services *)
Module Web.

(** [localStorage]: strings under string keys; [getItem] of a key that was
    never set is [null], and [setItem] is taken to succeed (the quota is
    not modelled). *)
Definition Storage := Map jsstring.

Definition getItem (storage : Storage) (key : jsstring) : option jsstring :=
  Map_get storage key.

Definition setItem (storage : Storage) (key value : jsstring) : Storage :=
  Map_set storage key value.

Definition isDigit (c : Z) : bool := ((48 <=? c) && (c <=? 57))%Z.

Fixpoint takeWhile {A} (p : A -> bool) (l : list A) : list A :=
  match l with
  | [] => []
  | x :: l' => if p x then x :: takeWhile p l' else []
  end.

(** The Number nearest to an integer (ties to even). *)
Definition Number_of_Z (z : Z) : number :=
  SF2Prim (binary_normalize prec emax z 0 false).

(** The value of a string of decimal digits. *)
Definition digitsValue (digits : jsstring) : Z :=
  fold_left (fun value c => (10 * value + (c - 48))%Z) digits 0%Z.

(** [parseInt(s, 10)]: leading white space is skipped, a sign is read, and
    the longest prefix of decimal digits is the value; with no digit the
    result is NaN.  (Past 20 significant digits an implementation may
    round the digits; here they are read exactly.) *)
Definition parseInt10 (s : jsstring) : number :=
  let trimmed := trimStart s in
  let '(negative, unsigned) :=
    match trimmed with
    | 45%Z :: rest => (true, rest)
    | 43%Z :: rest => (false, rest)
    | _ => (false, trimmed)
    end in
  match takeWhile isDigit unsigned with
  | [] => nan
  | digits =>
    let mathInt := digitsValue digits in
    if negative then
      if (mathInt =? 0)%Z then (-0)%float else Number_of_Z (- mathInt)
    else Number_of_Z mathInt
  end.

Definition isNaN (x : number) : bool := is_nan x.

End Web.

(** ** The module-level singletons

    [export const vectorService = new VectorService()] and
    [export const ragService = new RAGService()], together with the
    [localStorage] both read and write. *)
Module App.

Import Web.

Definition keyName : jsstring := js "openai_api_key".

(** The key a constructor starts with: its argument when that is a
    non-empty string, and [localStorage.getItem('openai_api_key') || '']
    otherwise. *)
Definition initialKey (apiKey : option jsstring) (storage : Storage) : jsstring :=
  let stored :=
    match getItem storage keyName with
    | Some key => if truthy key then key else []
    | None => []
    end in
  match apiKey with
  | Some key => if truthy key then key else stored
  | None => stored
  end.

Definition newVectorService (apiKey : option jsstring) (storage : Storage)
  : VectorService.t :=
  {| VectorService.vectors := [];
     VectorService.apiKey := initialKey apiKey storage |}.

Definition newRAGService (apiKey : option jsstring) (storage : Storage)
  : RAGService.t :=
  {| RAGService.apiKey := initialKey apiKey storage;
     RAGService.config := RAGService.defaultConfig |}.

Record World := {
  localStorage : Storage;
  vectorService : VectorService.t;
  ragService : RAGService.t
}.

(** Loading the two modules creates the singletons. *)
Definition load (storage : Storage) : World :=
  {| localStorage := storage;
     vectorService := newVectorService None storage;
     ragService := newRAGService None storage |}.

(** [vectorService.setApiKey(apiKey)] *)
Definition VectorService_setApiKey (w : World) (apiKey : jsstring) : World :=
  {| localStorage := setItem (localStorage w) keyName apiKey;
     vectorService := VectorService.setApiKey (vectorService w) apiKey;
     ragService := ragService w |}.

(** [ragService.setApiKey(apiKey)] *)
Definition RAGService_setApiKey (w : World) (apiKey : jsstring) : World :=
  VectorService_setApiKey
    {| localStorage := setItem (localStorage w) keyName apiKey;
       vectorService := vectorService w;
       ragService :=
         {| RAGService.apiKey := apiKey;
            RAGService.config := RAGService.config (ragService w) |} |}
    apiKey.

(** The result of [testConnection]. *)
Record Outcome := {
  success : bool;
  error : option jsstring
}.

Section WithHost.
Context {host : Host}.

(** [ragService.testConnection()]; [probe] is the reply of the endpoint to
    the test request, by URL, key and model. *)
Definition testConnection
  (probe : jsstring -> jsstring -> jsstring -> FetchReply unit) (s : RAGService.t)
  : Outcome :=
  if negb (truthy (RAGService.apiKey s)) then
    {| success := false; error := Some (js "No API key configured") |}
  else
    match probe RAGService.apiUrl (RAGService.apiKey s) RAGService.model with
    | FetchRejected reason => {| success := false; error := Some reason |}
    | HttpResponse ok status _ =>
      if ok then {| success := true; error := None |}
      else {| success := false; error := Some (js "HTTP " ++ Number_toString status) |}
    end.

End WithHost.

End App.

(** ** The hook [useRAG] of RAGChat.tsx

    The state of the hook and, for each of its actions, the state after
    the action has run to its end (two actions are not interleaved). *)
Module UseRAG.

Import Web App.
Local Open Scope float_scope.

Inductive Role := user | assistant.

Record ChatMessage := {
  id : jsstring;
  role : Role;
  content : jsstring;
  timestamp : number;
  sources : option (list RAGService.Source);
  confidence : option number
}.

Record RAGStatus := {
  isLoading : bool;
  vectorCount : nat;
  isConfigured : bool;
  lastError : option jsstring;
  processingMeeting : option jsstring
}.

Record t := {
  chatMessages : list ChatMessage;
  status : RAGStatus;
  currentMeetingId : option jsstring;
  messageIdCounter : number
}.

Definition initial : t :=
  {| chatMessages := [];
     status :=
       {| isLoading := false;
          vectorCount := 0;
          isConfigured := false;
          lastError := None;
          processingMeeting := None |};
     currentMeetingId := None;
     messageIdCounter := 0 |}.

Definition withStatus (st : t) (status : RAGStatus) : t :=
  {| chatMessages := chatMessages st;
     status := status;
     currentMeetingId := currentMeetingId st;
     messageIdCounter := messageIdCounter st |}.

(** The effect run on mount. *)
Definition mount (w : World) (st : t) : t :=
  withStatus st
    {| isLoading := isLoading (status st);
       vectorCount := VectorService.getVectorCount (vectorService w);
       isConfigured :=
         match getItem (localStorage w) keyName with
         | Some key => truthy key
         | None => false
         end;
       lastError := lastError (status st);
       processingMeeting := processingMeeting (status st) |}.

Definition setCurrentMeeting (st : t) (meetingId : option jsstring) : t :=
  {| chatMessages := chatMessages st;
     status := status st;
     currentMeetingId := meetingId;
     messageIdCounter := messageIdCounter st |}.

Definition clearChat (st : t) : t :=
  {| chatMessages := [];
     status := status st;
     currentMeetingId := currentMeetingId st;
     messageIdCounter := messageIdCounter st |}.

Definition clearVectors (w : World) (st : t) : World * t :=
  ({| localStorage := localStorage w;
      vectorService := VectorService.clear (vectorService w);
      ragService := ragService w |},
   withStatus st
     {| isLoading := isLoading (status st);
        vectorCount := 0;
        isConfigured := isConfigured (status st);
        lastError := lastError (status st);
        processingMeeting := processingMeeting (status st) |}).

(** [jumpToSegment(segmentId, onJump)]: the index [onJump] is called with,
    if it is called; [hasOnJump] tells whether a callback was passed. *)
Definition jumpToSegment (segmentId : jsstring) (hasOnJump : bool) : option number :=
  let parts := split_string (js "_") segmentId in
  if (2 <=? List.length parts)%nat then
    let segmentIndex := parseInt10 (last parts []) in
    if negb (isNaN segmentIndex) && hasOnJump then Some segmentIndex else None
  else None.

Section WithHost.
Context {host : Host}.

(** [configureRAG(apiKey)]; neither [setApiKey] nor [testConnection]
    throws. *)
Definition configureRAG
  (probe : jsstring -> jsstring -> jsstring -> FetchReply unit)
  (w : World) (st : t) (apiKey : jsstring) : World * t * Outcome :=
  let w := RAGService_setApiKey w apiKey in
  let testResult := testConnection probe (ragService w) in
  let status :=
    if success testResult then
      {| isLoading := false;
         vectorCount := vectorCount (status st);
         isConfigured := true;
         lastError := None;
         processingMeeting := processingMeeting (status st) |}
    else
      {| isLoading := false;
         vectorCount := vectorCount (status st);
         isConfigured := false;
         lastError := error testResult;
         processingMeeting := processingMeeting (status st) |} in
  (w, withStatus st status,
   if success testResult then {| success := true; error := None |}
   else {| success := false; error := error testResult |}).

(** [indexMeeting(meetingId, segments)]; [addMeetingSegments] does not
    throw. *)
Definition indexMeeting (w : World) (st : t) (meetingId : jsstring)
  (segments : list VectorService.Segment) : World * t * Outcome :=
  let vs := VectorService.addMeetingSegments (vectorService w) meetingId segments in
  ({| localStorage := localStorage w;
      vectorService := vs;
      ragService := ragService w |},
   withStatus st
     {| isLoading := false;
        vectorCount := VectorService.getVectorCount vs;
        isConfigured := isConfigured (status st);
        lastError := None;
        processingMeeting := None |},
   {| success := true; error := None |}).

Definition messageId (counter : number) : jsstring :=
  js "msg_" ++ Number_toString counter.

(** [askQuestion(question)]; [asked] and [answered] are the two readings
    of the clock, and the result is [None] where the hook returns
    [undefined] or [null]. *)
Definition askQuestion (w : World) (st : t) (question : jsstring)
  (asked answered : number) : t * option RAGService.RAGResult :=
  if negb (truthy (trim question)) then (st, None)
  else
    let questionId := messageId (messageIdCounter st + 1) in
    let answerId := messageId (messageIdCounter st + 1 + 1) in
    let userMessage :=
      {| id := questionId;
         role := user;
         content := trim question;
         timestamp := asked;
         sources := None;
         confidence := None |} in
    let current :=
      match currentMeetingId st with
      | Some meetingId => if truthy meetingId then Some meetingId else None
      | None => None
      end in
    match RAGService.query (ragService w) (vectorService w) question current with
    | Return ragResult =>
      let assistantMessage :=
        {| id := answerId;
           role := assistant;
           content := RAGService.answer ragResult;
           timestamp := answered;
           sources := Some (RAGService.sources ragResult);
           confidence := Some (RAGService.confidence ragResult) |} in
      ({| chatMessages := chatMessages st ++ [userMessage] ++ [assistantMessage];
          status :=
            {| isLoading := false;
               vectorCount := vectorCount (status st);
               isConfigured := isConfigured (status st);
               lastError := None;
               processingMeeting := processingMeeting (status st) |};
          currentMeetingId := currentMeetingId st;
          messageIdCounter := messageIdCounter st + 1 + 1 |},
       Some ragResult)
    | Throw (Error errorMessage) =>
      let errorResponse :=
        {| id := answerId;
           role := assistant;
           content := js "抱歉，处理您的问题时遇到了错误：" ++ errorMessage;
           timestamp := answered;
           sources := None;
           confidence := Some 0 |} in
      ({| chatMessages := chatMessages st ++ [userMessage] ++ [errorResponse];
          status :=
            {| isLoading := false;
               vectorCount := vectorCount (status st);
               isConfigured := isConfigured (status st);
               lastError := Some errorMessage;
               processingMeeting := processingMeeting (status st) |};
          currentMeetingId := currentMeetingId st;
          messageIdCounter := messageIdCounter st + 1 + 1 |},
       None)
    end.

End WithHost.

End UseRAG.
(** ** A concrete host for running the services

    Case mapping and number formatting on the inputs used below (ASCII
    letters; non-negative integers below 2^53), and endpoints that answer
    every request with a fixed reply. *)
Module ScriptedHost.

Definition asciiToLowerCase (s : jsstring) : jsstring :=
  map (fun c => if ((65 <=? c) && (c <=? 90))%Z then (c + 32)%Z else c) s.

Fixpoint decimal_digits (fuel : nat) (z : Z) (acc : jsstring) : jsstring :=
  match fuel with
  | O => acc
  | S fuel' =>
    let acc' := (48 + z mod 10)%Z :: acc in
    if (z <? 10)%Z then acc' else decimal_digits fuel' (z / 10)%Z acc'
  end.

Definition integerToString (x : number) : jsstring :=
  match ToIntegerOrInfinity x with
  | Integer z =>
    if (z <? 0)%Z then 45%Z :: decimal_digits 20 (- z)%Z []
    else decimal_digits 20 z []
  | NegInfinity => js "-Infinity"
  | PosInfinity => js "Infinity"
  end.

(** [Math.floor] on the non-negative numbers, where it is truncation; the
    runs below give it no other argument. *)
Definition floorNonNegative (x : number) : number :=
  match ToIntegerOrInfinity x with
  | Integer z => if (0 <=? z)%Z then number_of_nat (Z.to_nat z) else x
  | _ => x
  end.

Definition remainderNonNegative (x y : number) : number :=
  (x - y * floorNonNegative (x / y))%float.

Definition make (embeddings : FetchReply (list number)) (chat : FetchReply jsstring)
  : Host :=
  {| String_toLowerCase := asciiToLowerCase;
     Number_toString := integerToString;
     Math_floor := floorNonNegative;
     Number_remainder := remainderNonNegative;
     fetch_embeddings := fun _ _ _ _ => embeddings;
     fetch_chat := fun _ _ _ _ _ _ _ => chat |}.

(** Both endpoints are unreachable. *)
Definition offline : Host :=
  make (FetchRejected (js "Failed to fetch")) (FetchRejected (js "Failed to fetch")).

End ScriptedHost.

(** ** Vocabulary for binary64 values *)
Module FloatDefs.

(** The format exponent of binary64. *)
Definition fexp64 (e : Z) : Z := Z.max (e - 53) (-1074).

(** A non-zero number (finite or infinite) of sign [s]. *)
Definition SFsigned (s : bool) (x : spec_float) : Prop :=
  match x with
  | S754_finite s' _ _ => s' = s
  | S754_infinity s' => s' = s
  | _ => False
  end.

Definition SFnot_nan (x : spec_float) : Prop :=
  match x with S754_nan => False | _ => True end.

(** Zero or a finite number. *)
Definition SFfinite (x : spec_float) : Prop :=
  match x with
  | S754_zero _ | S754_finite _ _ _ => True
  | _ => False
  end.

(** The value of a finite float in units of [2 ^ ez]. *)
Definition scaled (s : bool) (m : positive) (e ez : Z) : Z :=
  cond_Zopp s (Zpos (fst (shl_align m e ez))).

(** A positive number, finite or infinite, that is at least [2 ^ (b - 1)]:
    [b] bounds its binade from below. *)
Definition SFbig (b : Z) (x : spec_float) : Prop :=
  match x with
  | S754_infinity false => True
  | S754_finite false m e => b <= Zpos (digits2_pos m) + e
  | _ => False
  end.

(** Zero, or positive of binade at least [b]. *)
Definition SFzero_or_big (b : Z) (x : spec_float) : Prop :=
  x = S754_zero false \/ SFbig b x.

(** The same for primitive floats. *)
Definition big (b : Z) (x : float) : Prop := SFbig b (Prim2SF x).
Definition zero_or_big (b : Z) (x : float) : Prop := SFzero_or_big b (Prim2SF x).

End FloatDefs.
(** ** Vocabulary for the real values of binary64 numbers

    What "unit norm" says of a vector of floats is said of the real
    numbers the floats stand for. *)
Module FloatValue.
Import Reals.
Local Open Scope R_scope.

Definition pow2 (e : Z) : R := powerRZ 2 e.

(** The real number a finite float stands for (0 for the others). *)
Definition SF2R (x : spec_float) : R :=
  match x with
  | S754_finite s m e => IZR (cond_Zopp s (Zpos m)) * pow2 e
  | _ => 0
  end.

Definition value (x : float) : R := SF2R (Prim2SF x).

(** The sum of the squares of the components, and the Euclidean norm. *)
Definition sumOfSquares (v : list float) : R :=
  fold_right (fun x acc => value x * value x + acc) 0 v.

Definition euclideanNorm (v : list float) : R := sqrt (sumOfSquares v).

(** Zero or a finite number: neither NaN nor an infinity. *)
Definition finite (x : float) : Prop := FloatDefs.SFfinite (Prim2SF x).

(** A vector of finite numbers has unit norm up to [tolerance]. *)
Definition unitNorm (tolerance : R) (v : list float) : Prop :=
  Forall finite v /\ Rabs (euclideanNorm v - 1) <= tolerance.

(** A positive normal number: 53 significant bits. *)
Definition SFnormal (x : spec_float) : Prop :=
  exists m e, x = S754_finite false m e
              /\ (2 ^ 52 <= Zpos m < 2 ^ 53)%Z /\ (-1074 <= e <= 971)%Z.

Definition normal (x : float) : Prop := SFnormal (Prim2SF x).

(** The distance between 1 and the next binary64 number, [2 ^ -52]
    ([Number.EPSILON]): one rounding of a normal result changes a value by
    at most this fraction of the result. *)
Definition epsilon : R := / 4503599627370496.

(** The computed [x] is the exact [v] up to [k] roundings:
    [x (1 - epsilon)^k <= v <= x (1 + epsilon)^k]. *)
Definition near (k : nat) (x v : R) : Prop :=
  x * (1 - epsilon) ^ k <= v <= x * (1 + epsilon) ^ k.

(** The float [+0]. *)
Definition isZero (x : float) : Prop := Prim2SF x = S754_zero false.

Definition inRange (lo hi : R) (x : float) : Prop :=
  normal x /\ lo <= value x <= hi.

Definition zeroOrInRange (lo hi : R) (x : float) : Prop :=
  isZero x \/ inRange lo hi x.

(** Magnitudes between which a result is a normal number, with room to
    spare. *)
Definition rangeLow : R := pow2 (-200).
Definition rangeHigh : R := pow2 200.

(** One rounding makes a positive value larger by at most this factor. *)
Definition grow : R := 1 + 2 * epsilon.

(** A word frequency after [k] words have been counted: between 1 and
    [k], up to the roundings of the [k] increments. *)
Definition frequency (k : nat) (x : float) : Prop :=
  inRange 1 (INR k * grow ^ k) x.

(** What one word adds to a component, its frequency times 0.1: at most
    [2 ^ 28]. *)
Definition weight (x : float) : Prop := inRange (/ 11) 268435456 x.

(** A component after [j] additions of a weight. *)
Definition accumulated (j : nat) (x : float) : Prop :=
  zeroOrInRange (/ 16) (INR j * 268435456 * grow ^ j) x.

(** A bound, [2 ^ 64], on the components of the accumulated vector of a
    text of at most [2 ^ 30] words. *)
Definition componentBound : R := 18446744073709551616.

(** A component of the accumulated vector: 0, or a normal number between
    [1/16] and [componentBound]. *)
Definition component (x : float) : Prop := zeroOrInRange (/ 16) componentBound x.

(** The running sum of squares [acc] stands for the real number [t] up to
    [k] roundings. *)
Definition partialSum (k : nat) (acc : float) (t : R) : Prop :=
  (isZero acc /\ t = 0) \/ (normal acc /\ near k (value acc) t).

End FloatValue.


(** ** Sample data for concrete runs *)

Definition sampleVector (id meeting : jsstring) (e : list number)
  : VectorService.Vector :=
  {| VectorService.embedding := e;
     VectorService.metadata :=
       {| VectorService.segmentId := id;
          VectorService.meetingId := meeting;
          VectorService.speaker := js "A";
          VectorService.timestamp := 0%float;
          VectorService.text := js "text";
          VectorService.chunkIndex := None |} |}.

Definition scored (id meeting : jsstring) (sim : number)
  : VectorService.SimilarityResult :=
  {| VectorService.vector := sampleVector id meeting [];
     VectorService.similarity := sim |}.

Definition twoSources : list VectorService.SimilarityResult :=
  [scored (js "m_0") (js "m") 0.9%float; scored (js "m_1") (js "m") 0.8%float].

Definition sampleRag : RAGService.t :=
  {| RAGService.apiKey := []; RAGService.config := RAGService.defaultConfig |}.

Definition emptyStore : VectorService.t :=
  {| VectorService.vectors := []; VectorService.apiKey := js "sk-test" |}.

(** A store of three records and an endpoint that embeds every query as
    [[1; 0]]: the similarities are 0, 1 and 0.8. *)
Definition threeVectors : VectorService.t :=
  {| VectorService.vectors :=
       [sampleVector (js "m_0") (js "m") [0; 1]%float;
        sampleVector (js "m_1") (js "m") [1; 0]%float;
        sampleVector (js "m_2") (js "m") [0.8; 0.6]%float];
     VectorService.apiKey := js "sk-test" |}.

(** A store with the single record whose similarity to [[1; 0]] is 0. *)
Definition orthogonalStore : VectorService.t :=
  {| VectorService.vectors := [sampleVector (js "m_0") (js "m") [0; 1]%float];
     VectorService.apiKey := js "sk-test" |}.

(** Two chunks of the segment "m_1", of similarity 0.8 and 1 to [[1; 0]]. *)
Definition twoChunks : VectorService.t :=
  {| VectorService.vectors :=
       [sampleVector (js "m_1") (js "m") [0.8; 0.6]%float;
        sampleVector (js "m_1") (js "m") [1; 0]%float];
     VectorService.apiKey := js "sk-test" |}.

Definition online : Host :=
  ScriptedHost.make (HttpResponse true 200%float (Some [1; 0]%float))
    (FetchRejected (js "Failed to fetch")).

(** Two sentences of 250 units each. *)
Definition halfAndHalf : jsstring := repeat 97%Z 250 ++ js "." ++ repeat 98%Z 250.

Definition tiny : number := 1e-200%float.
Definition huge : number := 1e200%float.

(** ** Vocabulary of the specification *)

Local Open Scope float_scope.

(** The five properties of a [RAGConfig]. *)
Inductive ConfigField :=
| MaxContextLength
| Temperature
| MaxTokens
| RetrievalLimit
| SimilarityThreshold.

Definition getField (f : ConfigField) (c : RAGService.RAGConfig) : number :=
  match f with
  | MaxContextLength => RAGService.maxContextLength c
  | Temperature => RAGService.temperature c
  | MaxTokens => RAGService.maxTokens c
  | RetrievalLimit => RAGService.retrievalLimit c
  | SimilarityThreshold => RAGService.similarityThreshold c
  end.

(** The value a partial object gives to a property, when it names it. *)
Definition namedField (f : ConfigField) (p : RAGService.PartialRAGConfig)
  : option number :=
  match f with
  | MaxContextLength => RAGService.maxContextLength' p
  | Temperature => RAGService.temperature' p
  | MaxTokens => RAGService.maxTokens' p
  | RetrievalLimit => RAGService.retrievalLimit' p
  | SimilarityThreshold => RAGService.similarityThreshold' p
  end.

(** A chunk is within bounds when it is at most one unit longer than
    [maxLength], or no longer than some single sentence of the text. *)
Definition chunk_ok (sentences : list jsstring) (maxLength : Z) (c : jsstring) : Prop :=
  (Z.of_nat (String_length c) <= maxLength + 1)%Z
  \/ exists s, In s sentences /\ (String_length c <= String_length s)%nat.

(** Every frequency counted by the fallback embedder is at least 1. *)
Definition frequenciesCounted (wordFreq : Map number) : Prop :=
  Forall (fun entry => FloatDefs.big 1 (snd entry)) wordFreq.

(** The components of the accumulated vector are 0 or at least [2 ^ -4]
    (the binade of 0.1), and a vector is touched when some component is
    not 0. *)
Definition accumulatedOk (arr : list number) : Prop :=
  Forall (FloatDefs.zero_or_big (-3)) arr.

Definition touched (arr : list number) : Prop := Exists (FloatDefs.big (-3)) arr.

(** The computed Euclidean norm of a vector. *)
Definition norm (v : list number) : number :=
  Math_sqrt (VectorService.squaredNorm v).

(** The dot product, accumulated left to right from [acc]. *)
Definition dotFrom (acc : number) (a b : list number) : number :=
  fold_left (fun sum xy => sum + fst xy * snd xy) (combine a b) acc.

(** The confidence formula, term by term. *)
Definition average (xs : list number) : number :=
  fold_left PrimFloat.add xs 0 / number_of_nat (List.length xs).

Definition hedged (answer : jsstring) : bool :=
  existsb (fun phrase => includes answer phrase) RAGService.uncertaintyPhrases.

Definition clampAtMostOne (x : number) : number := Math_min x 1.

Definition confidenceFormula (evidence : list VectorService.SimilarityResult)
  (answer : jsstring) : number :=
  clampAtMostOne
    (average (map VectorService.similarity evidence)
     * Math_min (number_of_nat (List.length evidence) / 3) 1
     * (if hedged answer then 0.8 else 1)).

(** Sorting by a numeric key, largest first: the comparator
    [(a, b) => key(b) - key(a)], and the order it is meant to produce. *)
Definition descending {A} (key : A -> number) (a b : A) : number := key b - key a.

Definition nonIncreasing {A} (key : A -> number) (a b : A) : Prop :=
  (key b <=? key a) = true.

Definition keysAreNumbers {A} (key : A -> number) (l : list A) : Prop :=
  Forall (fun a => is_nan (key a) = false) l.

Definition segmentOf (r : VectorService.SimilarityResult) : jsstring :=
  VectorService.segmentId (VectorService.metadata (VectorService.vector r)).

(** One result after the boost for the meeting [id]. *)
Definition boostOne (id : jsstring) (r : VectorService.SimilarityResult)
  : VectorService.SimilarityResult :=
  {| VectorService.vector := VectorService.vector r;
     VectorService.similarity :=
       if String_eqb
            (VectorService.meetingId (VectorService.metadata (VectorService.vector r)))
            id
       then VectorService.similarity r * 1.2
       else VectorService.similarity r |}.

(** What the map of [deduplicateResults] holds after the results [seen]:
    one entry per segment id, taken from [seen], that no result of [seen]
    with the same id exceeds. *)
Record dedupe_inv (m : Map VectorService.SimilarityResult)
  (seen : list VectorService.SimilarityResult) : Prop := {
  inv_keys : NoDup (map fst m);
  inv_from : forall k v, In (k, v) m -> segmentOf v = k /\ In v seen;
  inv_best : forall r, In r seen ->
    exists v, In (segmentOf r, v) m
              /\ (VectorService.similarity r <=? VectorService.similarity v) = true
}.

Local Close Scope float_scope.
(** ** Vocabulary of the further properties *)

Section FurtherVocabulary.

Import VectorService.
Local Open Scope float_scope.
Context {host : Host}.

(** What [cleanText] lets through: word characters, CJK ideographs and
    the space U+0020. *)
Definition cleanChar (c : Z) : bool := isWordChar c || isCJK c || (c =? 32)%Z.

(** The polynomial [s[0]*31^(n-1) + ... + s[n-1]] over the integers. *)
Definition polynomial31 (str : jsstring) : Z :=
  fold_left (fun h c => (31 * h + c)%Z) str 0%Z.

(** What [chunkText] keeps of a text: the code units that are neither
    white space nor sentence punctuation. *)
Definition isContent (c : Z) : bool := negb (isWhiteSpace c) && negb (isSentenceEnd c).

(** The only sentence punctuation of a string is the ideographic full stop
    that [chunkText] joins sentences with. *)
Definition joinedOnly (c : jsstring) : Prop :=
  Forall (fun u => isSentenceEnd u = true -> u = 12290%Z) c.

(** A chunk in normal form: not empty, trimmed, and with no sentence
    punctuation other than the joining full stop. *)
Definition normalChunk (c : jsstring) : Prop :=
  c <> [] /\ trim c = c /\ joinedOnly c.

(** A chunk is at most one unit longer than [maxLength], or it is one
    sentence, trimmed. *)
Definition shortOrSentence (sentences : list jsstring) (maxLength : Z) (c : jsstring)
  : Prop :=
  (Z.of_nat (String_length c) <= maxLength + 1)%Z
  \/ exists s, In s sentences /\ c = trim s.

(** The same for [currentChunk], which is not trimmed yet. *)
Definition runningChunk (sentences : list jsstring) (maxLength : Z) (c : jsstring)
  : Prop :=
  (Z.of_nat (String_length c) <= maxLength + 1)%Z \/ In c sentences.

(** The vector [getEmbedding] returns for a text under a non-empty key:
    the one of the remote reply, or the fallback embedding. *)
Definition embeddingOf (key text : jsstring) : list number :=
  match fetch_embeddings apiUrl key model (cleanText text) with
  | HttpResponse true _ (Some embedding) => embedding
  | _ => getFallbackEmbedding (cleanText text)
  end.

(** The host with another embedding endpoint. *)
Definition withEmbeddings
  (replies : jsstring -> jsstring -> jsstring -> jsstring -> FetchReply (list number))
  : Host :=
  {| String_toLowerCase := String_toLowerCase;
     Number_toString := Number_toString;
     Math_floor := Math_floor;
     Number_remainder := Number_remainder;
     fetch_embeddings := replies;
     fetch_chat := fetch_chat |}.

(** The chunks of a segment that [addMeetingSegments] keeps, with their
    indices: those of trimmed length 10 or more. *)
Definition indexedChunks (segment : Segment) : list (nat * jsstring) :=
  let chunks := chunkText (seg_text segment) defaultMaxLength in
  filter (fun ic => negb (String_length (trim (snd ic)) <? 10)%nat)
    (combine (seq 0 (List.length chunks)) chunks).

(** The record stored for one kept chunk. *)
Definition recordOf (key meeting : jsstring) (segment : Segment) (ic : nat * jsstring)
  : Vector :=
  {| embedding := embeddingOf key (snd ic);
     metadata :=
       {| segmentId := meeting ++ js "_" ++ Number_toString (idx segment);
          meetingId := meeting;
          speaker := seg_speaker segment;
          timestamp := t_ segment;
          text := snd ic;
          chunkIndex :=
            if (1 <? List.length (chunkText (seg_text segment) defaultMaxLength))%nat
            then Some (number_of_nat (fst ic)) else None |} |}.

(** The records [addMeetingSegments] appends under a non-empty key. *)
Definition indexedRecords (key meeting : jsstring) (segments : list Segment)
  : list Vector :=
  flat_map (fun segment => map (recordOf key meeting segment) (indexedChunks segment))
    segments.

(** The partial configuration [{}]. *)
Definition emptyPartial : RAGService.PartialRAGConfig :=
  {| RAGService.maxContextLength' := None;
     RAGService.temperature' := None;
     RAGService.maxTokens' := None;
     RAGService.retrievalLimit' := None;
     RAGService.similarityThreshold' := None |}.

(** The object spread [{ ...first, ...second }] of two partial objects. *)
Definition overlay (first second : RAGService.PartialRAGConfig)
  : RAGService.PartialRAGConfig :=
  let pick (a b : option number) := match b with Some _ => b | None => a end in
  {| RAGService.maxContextLength' :=
       pick (RAGService.maxContextLength' first) (RAGService.maxContextLength' second);
     RAGService.temperature' :=
       pick (RAGService.temperature' first) (RAGService.temperature' second);
     RAGService.maxTokens' :=
       pick (RAGService.maxTokens' first) (RAGService.maxTokens' second);
     RAGService.retrievalLimit' :=
       pick (RAGService.retrievalLimit' first) (RAGService.retrievalLimit' second);
     RAGService.similarityThreshold' :=
       pick (RAGService.similarityThreshold' first)
         (RAGService.similarityThreshold' second) |}.

(** The line of the context made from one result. *)
Definition contextLine (result : SimilarityResult) : jsstring :=
  let m := metadata (vector result) in
  js "[" ++ RAGService.formatTime (timestamp m) ++ js "] " ++ speaker m
  ++ js ": " ++ text m.

(** One step of the loop of [prepareContext] that appends. *)
Definition appendLine (context : jsstring) (result : SimilarityResult) : jsstring :=
  context ++ (if truthy context then RAGService.newline ++ RAGService.newline else [])
  ++ contextLine result.

(** A source cites the record [v]. *)
Definition cites (src : RAGService.Source) (v : Vector) : Prop :=
  RAGService.src_segmentId src = segmentId (metadata v)
  /\ RAGService.src_meetingId src = meetingId (metadata v)
  /\ RAGService.src_speaker src = speaker (metadata v)
  /\ RAGService.src_timestamp src = timestamp (metadata v)
  /\ RAGService.src_text src = text (metadata v).

(** The decimal numeral of a natural number. *)
Definition decimal (n : nat) : jsstring :=
  ScriptedHost.decimal_digits (S n) (Z.of_nat n) [].

End FurtherVocabulary.

(** ** More sample data *)

Definition sampleSegment : VectorService.Segment :=
  {| VectorService.idx := 3%float;
     VectorService.t_ := 12%float;
     VectorService.seg_speaker := js "A";
     VectorService.seg_text := js "We agreed on the budget. Next steps follow next week" |}.

(** A service whose context may hold 28 code units. *)
Definition tightRag : RAGService.t :=
  RAGService.updateConfig sampleRag
    {| RAGService.maxContextLength' := Some 28%float;
       RAGService.temperature' := None;
       RAGService.maxTokens' := None;
       RAGService.retrievalLimit' := None;
       RAGService.similarityThreshold' := None |}.

Definition sampleWorld : App.World :=
  {| App.localStorage := [];
     App.vectorService := threeVectors;
     App.ragService := sampleRag |}.


(** A service with a key, and a host whose chat endpoint answers every
    request with the same completion. *)
Definition keyedRag : RAGService.t :=
  {| RAGService.apiKey := js "sk-test"; RAGService.config := RAGService.defaultConfig |}.

Definition answering : Host :=
  ScriptedHost.make (FetchRejected (js "Failed to fetch"))
    (HttpResponse true 200%float (Some (js "  The budget is 40k. "))).
(** ** Facts about binary64 arithmetic

    Derived from the specification of the primitive operations
    ([FloatAxioms]) and the reference implementation [SpecFloat]. *)
Module FloatFacts.

Import FloatDefs.

(** Case analysis on every comparison of the goal. *)
Ltac order_cases :=
  repeat match goal with
         | |- context [(?a ?= ?b)%Z] => destruct (Z.compare_spec a b)
         | |- context [(?a ?= ?b)%positive] => destruct (Pos.compare_spec a b)
         end.

Lemma fexp_eq e : SpecFloat.fexp prec emax e = fexp64 e.
Proof. reflexivity. Qed.

Lemma digits2_pos_bounds (m : positive) :
  2 ^ (Zpos (digits2_pos m) - 1) <= Zpos m < 2 ^ Zpos (digits2_pos m).
Proof.
  induction m as [m IH | m IH | ]; simpl digits2_pos.
  - rewrite Pos2Z.inj_succ.
    replace (Z.succ (Zpos (digits2_pos m)) - 1) with (Z.succ (Zpos (digits2_pos m) - 1)) by lia.
    rewrite !Z.pow_succ_r by lia. lia.
  - rewrite Pos2Z.inj_succ.
    replace (Z.succ (Zpos (digits2_pos m)) - 1) with (Z.succ (Zpos (digits2_pos m) - 1)) by lia.
    rewrite !Z.pow_succ_r by lia. lia.
  - simpl. lia.
Qed.

Lemma shr_1_m mrs : 0 <= shr_m mrs -> shr_m (shr_1 mrs) = Z.div2 (shr_m mrs).
Proof.
  destruct mrs as [m r s]; simpl.
  destruct m as [ | [p | p | ] | p ]; simpl; intros H; try reflexivity; lia.
Qed.

Lemma pow2_xO (n : positive) : 2 ^ Zpos n~0 = 2 ^ Zpos n * 2 ^ Zpos n.
Proof. rewrite <- Z.pow_add_r by lia. f_equal. lia. Qed.

Lemma pow2_xI (n : positive) : 2 ^ Zpos n~1 = 2 * (2 ^ Zpos n * 2 ^ Zpos n).
Proof.
  rewrite <- Z.pow_add_r by lia. rewrite <- Z.pow_succ_r by lia. f_equal. lia.
Qed.

Lemma shr_1_nonneg mrs : 0 <= shr_m mrs -> 0 <= shr_m (shr_1 mrs).
Proof.
  intros H. rewrite shr_1_m by assumption. rewrite Z.div2_div.
  apply Z.div_pos; lia.
Qed.

Lemma iter_pos_shr_1_m (n : positive) : forall mrs,
  0 <= shr_m mrs ->
  shr_m (iter_pos shr_1 n mrs) = shr_m mrs / 2 ^ Zpos n.
Proof.
  induction n as [n IH | n IH | ]; intros mrs H; simpl iter_pos.
  - assert (H1 : 0 <= shr_m (shr_1 mrs)) by (apply shr_1_nonneg; assumption).
    assert (H2 : 0 <= shr_m (iter_pos shr_1 n (shr_1 mrs))).
    { rewrite IH by assumption. apply Z.div_pos; [assumption | lia]. }
    rewrite IH by assumption. rewrite IH by assumption.
    rewrite shr_1_m by assumption. rewrite Z.div2_div.
    rewrite !Z.div_div by lia. rewrite pow2_xI. reflexivity.
  - assert (H2 : 0 <= shr_m (iter_pos shr_1 n mrs)).
    { rewrite IH by assumption. apply Z.div_pos; [assumption | lia]. }
    rewrite IH by assumption. rewrite IH by assumption.
    rewrite Z.div_div by lia. rewrite pow2_xO. reflexivity.
  - rewrite shr_1_m by assumption. rewrite Z.div2_div. reflexivity.
Qed.

Lemma shr_record_of_loc_m m l : shr_m (shr_record_of_loc m l) = m.
Proof. destruct l as [ | [ | | ]]; reflexivity. Qed.

(** Shifting a non-negative mantissa to its format exponent keeps it
    non-negative. *)
Lemma shr_fexp_nonneg m e l :
  0 <= m -> 0 <= shr_m (fst (shr_fexp prec emax m e l)).
Proof.
  intros Hm. unfold shr_fexp, shr.
  destruct (SpecFloat.fexp prec emax (Zdigits2 m + e) - e) as [ | n | n ]; simpl;
    rewrite ?iter_pos_shr_1_m; rewrite ?shr_record_of_loc_m; try assumption.
  apply Z.div_pos; [assumption | lia].
Qed.

(** A positive mantissa whose exponent is at least [emin] stays positive,
    and the exponent stays at least [emin]. *)
Lemma shr_fexp_pos m e l :
  -1074 <= e ->
  -1074 <= snd (shr_fexp prec emax (Zpos m) e l)
  /\ 0 < shr_m (fst (shr_fexp prec emax (Zpos m) e l)).
Proof.
  intros He. unfold shr_fexp, shr. rewrite fexp_eq. unfold fexp64.
  simpl Zdigits2.
  pose proof (digits2_pos_bounds m) as [Hlo Hhi].
  destruct (Z.max (Zpos (digits2_pos m) + e - 53) (-1074) - e) as [ | n | n ] eqn:En;
    simpl; rewrite ?iter_pos_shr_1_m; rewrite ?shr_record_of_loc_m; try lia.
  split; [lia | ].
  assert (Hn : Zpos n <= Zpos (digits2_pos m) - 1) by lia.
  apply Z.div_str_pos. split; [lia | ].
  apply Z.le_trans with (2 ^ (Zpos (digits2_pos m) - 1)); [ | assumption].
  apply Z.pow_le_mono_r; lia.
Qed.

Lemma round_nearest_even_ge m l : m <= round_nearest_even m l.
Proof.
  destruct l as [ | [ | | ]]; simpl; try lia.
  destruct (Z.even m); lia.
Qed.

Lemma binary_round_aux_not_nan s m e l :
  0 <= m -> SFnot_nan (binary_round_aux prec emax s m e l).
Proof.
  intros Hm. unfold binary_round_aux.
  pose proof (shr_fexp_nonneg m e l Hm) as H1.
  destruct (shr_fexp prec emax m e l) as [mrs' e'] eqn:E1. simpl in H1.
  pose proof (round_nearest_even_ge (shr_m mrs') (loc_of_shr_record mrs')) as H2.
  pose proof (shr_fexp_nonneg (round_nearest_even (shr_m mrs') (loc_of_shr_record mrs')) e' loc_Exact ltac:(lia)) as H3.
  destruct (shr_fexp prec emax _ e' loc_Exact) as [mrs'' e''] eqn:E2. simpl in H3.
  destruct (shr_m mrs'') as [ | p | p ]; simpl; try exact I; try lia.
  destruct (e'' <=? 971); exact I.
Qed.

Lemma binary_round_aux_signed s m e l :
  -1074 <= e -> SFsigned s (binary_round_aux prec emax s (Zpos m) e l).
Proof.
  intros He. unfold binary_round_aux.
  pose proof (shr_fexp_pos m e l He) as [H1e H1].
  destruct (shr_fexp prec emax (Zpos m) e l) as [mrs' e'] eqn:E1. simpl in H1, H1e.
  pose proof (round_nearest_even_ge (shr_m mrs') (loc_of_shr_record mrs')) as H2.
  destruct (round_nearest_even (shr_m mrs') (loc_of_shr_record mrs')) as [ | r | r ] eqn:Er;
    try lia.
  pose proof (shr_fexp_pos r e' loc_Exact H1e) as [H3e H3].
  destruct (shr_fexp prec emax (Zpos r) e' loc_Exact) as [mrs'' e''] eqn:E2. simpl in H3.
  destruct (shr_m mrs'') as [ | p | p ]; simpl; try lia.
  destruct (e'' <=? 971); reflexivity.
Qed.

Lemma shl_align_spec m e e' :
  Zpos (fst (shl_align m e e')) = Zpos m * 2 ^ (e - snd (shl_align m e e'))
  /\ snd (shl_align m e e') = Z.min e e'.
Proof.
  unfold shl_align. destruct (e' - e) as [ | d | d ] eqn:Ed; cbn [fst snd].
  - split; [ | lia]. rewrite Z.sub_diag, Z.pow_0_r. lia.
  - split; [ | lia]. rewrite Z.sub_diag, Z.pow_0_r. lia.
  - split; [ | lia].
    change (Pos.iter xO m d) with (shift_pos d m).
    rewrite shift_pos_correct. rewrite Z.pow_pos_fold.
    replace (e - e') with (Zpos d) by lia. lia.
Qed.

Lemma binary_round_signed s m e :
  -1074 <= e -> SFsigned s (binary_round prec emax s m e).
Proof.
  intros He. unfold binary_round.
  pose proof (shl_align_spec m e (SpecFloat.fexp prec emax (Zpos (digits2_pos m) + e))) as [_ Hs].
  destruct (shl_align m e _) as [mz ez]. simpl in Hs.
  apply binary_round_aux_signed. rewrite Hs, fexp_eq. unfold fexp64. lia.
Qed.

(** *** Valid binary64 values *)

Lemma valid_finite s m e :
  valid_binary (S754_finite s m e) = true ->
  -1074 <= e <= 971 /\ Zpos m < 2 ^ 53 /\ (e = -1074 \/ 2 ^ 52 <= Zpos m).
Proof.
  unfold SpecFloat.valid_binary, bounded, canonical_mantissa.
  rewrite fexp_eq. unfold fexp64. intros H.
  apply andb_true_iff in H. destruct H as [Hc He].
  apply Z.eqb_eq in Hc. apply Z.leb_le in He.
  change (emax - prec) with 971 in He.
  pose proof (digits2_pos_bounds m) as [Hlo Hhi].
  assert (Hd : Zpos (digits2_pos m) <= 53) by lia.
  split; [lia | ]. split.
  - apply Z.lt_le_trans with (2 ^ Zpos (digits2_pos m)); [assumption | ].
    apply Z.pow_le_mono_r; lia.
  - destruct (Z.eq_dec e (-1074)) as [ | Hne]; [left; assumption | right].
    replace 52 with (Zpos (digits2_pos m) - 1) by lia. assumption.
Qed.

Lemma scaled_eq s m e ez :
  ez <= e -> scaled s m e ez = cond_Zopp s (Zpos m * 2 ^ (e - ez)).
Proof.
  intros H. unfold scaled.
  destruct (shl_align_spec m e ez) as [H1 H2].
  rewrite H1, H2. rewrite Z.min_r by assumption. reflexivity.
Qed.

Lemma SFcompare_finite sx mx ex sy my ey :
  valid_binary (S754_finite sx mx ex) = true ->
  valid_binary (S754_finite sy my ey) = true ->
  SFcompare (S754_finite sx mx ex) (S754_finite sy my ey)
  = Some (scaled sx mx ex (Z.min ex ey) ?= scaled sy my ey (Z.min ex ey)).
Proof.
  intros Vx Vy.
  apply valid_finite in Vx. apply valid_finite in Vy.
  destruct Vx as (Hex & Hmx & Hnx). destruct Vy as (Hey & Hmy & Hny).
  rewrite !scaled_eq by lia.
  assert (Hpx : 0 < Zpos mx * 2 ^ (ex - Z.min ex ey)).
  { apply Z.mul_pos_pos; [lia | apply Z.pow_pos_nonneg; lia]. }
  assert (Hpy : 0 < Zpos my * 2 ^ (ey - Z.min ex ey)).
  { apply Z.mul_pos_pos; [lia | apply Z.pow_pos_nonneg; lia]. }
  assert (Hlt : forall m1 e1 m2 e2 : Z,
             0 < m1 < 2 ^ 53 -> 2 ^ 52 <= m2 -> e1 < e2 ->
             m1 * 2 ^ (e1 - e1) < m2 * 2 ^ (e2 - e1)).
  { intros m1 e1 m2 e2 H1 H2 H3. rewrite Z.sub_diag, Z.pow_0_r.
    assert (2 ^ 1 <= 2 ^ (e2 - e1)) by (apply Z.pow_le_mono_r; lia).
    change (2 ^ 1) with 2 in *. change (2 ^ 53) with (2 ^ 52 * 2) in H1. nia. }
  simpl SFcompare. f_equal.
  destruct (Z.compare_spec ex ey) as [Heq | Hlt' | Hgt].
  - subst ey. rewrite Z.min_id, Z.sub_diag, Z.pow_0_r, !Z.mul_1_r in *.
    change (Pos.compare_cont Eq mx my) with (mx ?= my)%positive.
    destruct sx, sy; reflexivity.
  - rewrite Z.min_l in * by lia.
    assert (Zpos mx * 2 ^ (ex - ex) < Zpos my * 2 ^ (ey - ex)).
    { apply Hlt; [split; [reflexivity | assumption] | | assumption].
      destruct Hny as [Hny | Hny]; [exfalso; clear - Hny Hlt' Hex; lia | assumption]. }
    destruct sx, sy; cbn [cond_Zopp]; symmetry.
    + apply Z.compare_gt_iff. lia.
    + apply Z.compare_lt_iff. lia.
    + apply Z.compare_gt_iff. lia.
    + apply Z.compare_lt_iff. lia.
  - rewrite Z.min_r in * by lia.
    assert (Zpos my * 2 ^ (ey - ey) < Zpos mx * 2 ^ (ex - ey)).
    { apply Hlt; [split; [reflexivity | assumption] | | assumption].
      destruct Hnx as [Hnx | Hnx]; [exfalso; clear - Hnx Hgt Hey; lia | assumption]. }
    destruct sx, sy; cbn [cond_Zopp]; symmetry.
    + apply Z.compare_lt_iff. lia.
    + apply Z.compare_lt_iff. lia.
    + apply Z.compare_gt_iff. lia.
    + apply Z.compare_gt_iff. lia.
Qed.

Lemma SFltb_signed_zero s x z :
  SFsigned s x -> SFltb x (S754_zero z) = s.
Proof.
  destruct x as [ | s' | | s' m e]; simpl; try contradiction; intros ->;
    destruct s; reflexivity.
Qed.

Lemma binary_normalize_ltb_zero m e :
  -1074 <= e ->
  SFltb (binary_normalize prec emax m e false) (S754_zero false) = (m <? 0).
Proof.
  intros He. destruct m as [ | p | p ]; simpl binary_normalize.
  - reflexivity.
  - rewrite (SFltb_signed_zero false) by (apply binary_round_signed; assumption).
    reflexivity.
  - rewrite (SFltb_signed_zero true) by (apply binary_round_signed; assumption).
    reflexivity.
Qed.

(** The sign of a difference decides the order of two numbers. *)
Lemma SFsub_ltb_zero x y :
  valid_binary x = true -> valid_binary y = true ->
  SFnot_nan x -> SFnot_nan y ->
  SFltb (SFsub prec emax x y) (S754_zero false) = SFltb x y.
Proof.
  intros Vx Vy Nx Ny.
  destruct x as [sx | sx | | sx mx ex]; try contradiction;
    destruct y as [sy | sy | | sy my ey]; try contradiction;
    try (destruct sx, sy; reflexivity);
    try (destruct sx; reflexivity); try (destruct sy; reflexivity).
  unfold SFltb at 2. rewrite SFcompare_finite by assumption.
  unfold SFsub. cbv zeta. fold (scaled sx mx ex (Z.min ex ey)).
  fold (scaled sy my ey (Z.min ex ey)).
  apply valid_finite in Vx. apply valid_finite in Vy.
  rewrite binary_normalize_ltb_zero by lia.
  destruct (Z.compare_spec (scaled sx mx ex (Z.min ex ey)) (scaled sy my ey (Z.min ex ey)));
    [apply Z.ltb_ge | apply Z.ltb_lt | apply Z.ltb_ge]; lia.
Qed.

(** *** The order of spec floats *)

Lemma SFcompare_refl x : SFnot_nan x -> SFcompare x x = Some Eq.
Proof.
  destruct x as [s | s | | s m e]; simpl; try contradiction; intros _;
    try (destruct s; reflexivity).
  rewrite Z.compare_refl.
  change (Pos.compare_cont Eq m m) with (m ?= m)%positive.
  rewrite Pos.compare_refl. destruct s; reflexivity.
Qed.

Lemma SFltb_not_nan x y : SFltb x y = true -> SFnot_nan x /\ SFnot_nan y.
Proof.
  destruct x as [ | | | ], y as [ | | | ]; simpl; try discriminate; intros _;
    split; exact I.
Qed.

Lemma SFleb_not_nan x y : SFleb x y = true -> SFnot_nan x /\ SFnot_nan y.
Proof.
  destruct x as [ | | | ], y as [ | | | ]; simpl; try discriminate; intros _;
    split; exact I.
Qed.

Lemma SFcompare_antisym x y :
  SFcompare y x = option_map CompOpp (SFcompare x y).
Proof.
  destruct x as [sx | sx | | sx mx ex], y as [sy | sy | | sy my ey]; simpl;
    try reflexivity; try (destruct sx; reflexivity);
    try (destruct sy; reflexivity); try (destruct sx, sy; reflexivity).
  change (Pos.compare_cont Eq my mx) with (my ?= mx)%positive.
  change (Pos.compare_cont Eq mx my) with (mx ?= my)%positive.
  rewrite (Z.compare_antisym ex ey), (Pos.compare_antisym mx my).
  destruct sx, sy, (ex ?= ey), (mx ?= my)%positive; reflexivity.
Qed.

Lemma SFltb_false_leb x y :
  SFnot_nan x -> SFnot_nan y -> SFltb x y = false -> SFleb y x = true.
Proof.
  intros Nx Ny. unfold SFltb, SFleb. rewrite (SFcompare_antisym x y).
  destruct x as [sx | sx | | sx mx ex]; try contradiction;
    destruct y as [sy | sy | | sy my ey]; try contradiction;
    destruct (SFcompare _ _) as [[ | | ] | ] eqn:E; simpl;
    try discriminate; try reflexivity; simpl in E; discriminate.
Qed.

Lemma SFltb_leb x y : SFltb x y = true -> SFleb x y = true.
Proof.
  unfold SFltb, SFleb. destruct (SFcompare x y) as [[ | | ] | ];
    try discriminate; reflexivity.
Qed.

Lemma SFltb_not_leb x y : SFltb x y = true -> SFleb y x = false.
Proof.
  unfold SFltb, SFleb. rewrite (SFcompare_antisym x y).
  destruct (SFcompare x y) as [[ | | ] | ]; try discriminate; reflexivity.
Qed.

Lemma SFleb_trans x y z :
  SFleb x y = true -> SFleb y z = true -> SFleb x z = true.
Proof.
  unfold SFleb.
  destruct x as [sx | sx | | sx mx ex]; destruct y as [sy | sy | | sy my ey];
    destruct z as [sz | sz | | sz mz ez]; simpl;
    try discriminate; try reflexivity;
    try (destruct sx; try discriminate; try reflexivity;
         destruct sy; try discriminate; try reflexivity;
         destruct sz; discriminate || reflexivity);
    try (destruct sx, sy; discriminate || reflexivity);
    try (destruct sx, sz; discriminate || reflexivity);
    try (destruct sy, sz; discriminate || reflexivity).
  all: change (Pos.compare_cont Eq mx my) with (mx ?= my)%positive;
    change (Pos.compare_cont Eq my mz) with (my ?= mz)%positive;
    change (Pos.compare_cont Eq mx mz) with (mx ?= mz)%positive.
  all: destruct sx, sy, sz; try discriminate; try reflexivity.
  all: order_cases; simpl; try discriminate; try reflexivity; intros _ _; lia.
Qed.

(** *** Magnitudes *)

Lemma digits2_pos_unique (m : positive) (k : Z) :
  2 ^ (k - 1) <= Zpos m < 2 ^ k -> Zpos (digits2_pos m) = k.
Proof.
  intros [Hlo Hhi]. pose proof (digits2_pos_bounds m) as [Dlo Dhi].
  assert (Hk : 0 < k).
  { destruct (Z.le_gt_cases k 0) as [Hle | Hgt]; [ | exact Hgt].
    assert (2 ^ k <= 2 ^ 0) by (apply Z.pow_le_mono_r; lia).
    change (2 ^ 0) with 1 in *. lia. }
  destruct (Z.lt_trichotomy (Zpos (digits2_pos m)) k) as [Hlt | [Heq | Hgt]];
    [ | exact Heq | ].
  - assert (2 ^ Zpos (digits2_pos m) <= 2 ^ (k - 1)) by (apply Z.pow_le_mono_r; lia).
    lia.
  - assert (2 ^ k <= 2 ^ (Zpos (digits2_pos m) - 1)) by (apply Z.pow_le_mono_r; lia).
    lia.
Qed.

Lemma digits2_pos_mono (a b : positive) :
  Zpos a <= Zpos b -> Zpos (digits2_pos a) <= Zpos (digits2_pos b).
Proof.
  intros H. pose proof (digits2_pos_bounds a) as [Alo _].
  pose proof (digits2_pos_bounds b) as [_ Bhi].
  destruct (Z.le_gt_cases (Zpos (digits2_pos a)) (Zpos (digits2_pos b))) as [Hle | Hgt];
    [exact Hle | ].
  assert (2 ^ Zpos (digits2_pos b) <= 2 ^ (Zpos (digits2_pos a) - 1))
    by (apply Z.pow_le_mono_r; lia).
  lia.
Qed.

Lemma digits2_pos_div (m : positive) (n : Z) :
  0 <= n < Zpos (digits2_pos m) ->
  exists q, Zpos m / 2 ^ n = Zpos q /\ Zpos (digits2_pos q) = Zpos (digits2_pos m) - n.
Proof.
  intros Hn. pose proof (digits2_pos_bounds m) as [Dlo Dhi].
  set (d := Zpos (digits2_pos m)) in *.
  assert (Hp : 0 < 2 ^ n) by (apply Z.pow_pos_nonneg; lia).
  assert (Hlo : 2 ^ (d - n - 1) <= Zpos m / 2 ^ n).
  { apply Z.div_le_lower_bound; [exact Hp | ].
    rewrite <- Z.pow_add_r by lia. replace (n + (d - n - 1)) with (d - 1) by lia.
    exact Dlo. }
  assert (Hhi : Zpos m / 2 ^ n < 2 ^ (d - n)).
  { apply Z.div_lt_upper_bound; [exact Hp | ].
    rewrite <- Z.pow_add_r by lia. replace (n + (d - n)) with d by lia. exact Dhi. }
  assert (Hpos : 0 < 2 ^ (d - n - 1)) by (apply Z.pow_pos_nonneg; lia).
  destruct (Zpos m / 2 ^ n) as [ | q | q] eqn:E; try lia.
  exists q. split; [reflexivity | ].
  apply digits2_pos_unique. split; [exact Hlo | exact Hhi].
Qed.

Lemma digits2_pos_shift (m : positive) (k : Z) (p : positive) :
  0 <= k -> Zpos p = Zpos m * 2 ^ k ->
  Zpos (digits2_pos p) = Zpos (digits2_pos m) + k.
Proof.
  intros Hk Hp. pose proof (digits2_pos_bounds m) as [Dlo Dhi].
  assert (H2 : 0 < 2 ^ k) by (apply Z.pow_pos_nonneg; lia).
  apply digits2_pos_unique. rewrite Hp.
  replace (Zpos (digits2_pos m) + k - 1) with ((Zpos (digits2_pos m) - 1) + k) by lia.
  rewrite !Z.pow_add_r by lia. split.
  - apply Z.mul_le_mono_nonneg_r; lia.
  - apply Z.mul_lt_mono_pos_r; lia.
Qed.

Lemma digits2_pos_mul (a b : positive) :
  Zpos (digits2_pos a) + Zpos (digits2_pos b) - 1 <= Zpos (digits2_pos (a * b)).
Proof.
  pose proof (digits2_pos_bounds a) as [Alo _].
  pose proof (digits2_pos_bounds b) as [Blo _].
  pose proof (digits2_pos_bounds (a * b)) as [_ Phi].
  set (da := Zpos (digits2_pos a)) in *. set (db := Zpos (digits2_pos b)) in *.
  set (dp := Zpos (digits2_pos (a * b))) in *.
  destruct (Z.le_gt_cases (da + db - 1) dp) as [Hle | Hgt]; [exact Hle | ].
  assert (H1 : 2 ^ dp <= 2 ^ (da + db - 2)) by (apply Z.pow_le_mono_r; lia).
  assert (H2 : 2 ^ (da + db - 2) = 2 ^ (da - 1) * 2 ^ (db - 1)).
  { rewrite <- Z.pow_add_r by lia. f_equal. lia. }
  assert (H3 : 2 ^ (da - 1) * 2 ^ (db - 1) <= Zpos a * Zpos b).
  { apply Z.mul_le_mono_nonneg; try assumption; apply Z.pow_nonneg; lia. }
  rewrite Pos2Z.inj_mul in Phi. lia.
Qed.

(** Shifting to the format exponent keeps the binade. *)
Lemma shr_fexp_binade m e l :
  -1074 <= e ->
  exists m',
    shr_m (fst (shr_fexp prec emax (Zpos m) e l)) = Zpos m'
    /\ Zpos (digits2_pos m') + snd (shr_fexp prec emax (Zpos m) e l)
       = Zpos (digits2_pos m) + e
    /\ -1074 <= snd (shr_fexp prec emax (Zpos m) e l).
Proof.
  intros He. unfold shr_fexp, shr. rewrite fexp_eq. unfold fexp64.
  simpl Zdigits2.
  destruct (Z.max (Zpos (digits2_pos m) + e - 53) (-1074) - e) as [ | n | n ] eqn:En;
    cbn [fst snd]; rewrite ?iter_pos_shr_1_m; rewrite ?shr_record_of_loc_m; try lia.
  - exists m. repeat split; lia.
  - destruct (digits2_pos_div m (Zpos n)) as (q & Hq & Hd); [lia | ].
    exists q. rewrite Hq. repeat split; lia.
  - exists m. repeat split; lia.
Qed.

Lemma binary_round_aux_big m e l :
  -1074 <= e ->
  SFbig (Zpos (digits2_pos m) + e) (binary_round_aux prec emax false (Zpos m) e l).
Proof.
  intros He. unfold binary_round_aux.
  destruct (shr_fexp_binade m e l He) as (m' & Hm' & Hb' & He').
  destruct (shr_fexp prec emax (Zpos m) e l) as [mrs' e'] eqn:E1.
  cbn [fst snd] in *.
  pose proof (round_nearest_even_ge (shr_m mrs') (loc_of_shr_record mrs')) as Hr.
  destruct (round_nearest_even (shr_m mrs') (loc_of_shr_record mrs')) as [ | r | r ] eqn:Er;
    rewrite Hm' in Hr; try lia.
  pose proof (digits2_pos_mono m' r Hr) as Hmono.
  destruct (shr_fexp_binade r e' loc_Exact He') as (m'' & Hm'' & Hb'' & He'').
  destruct (shr_fexp prec emax (Zpos r) e' loc_Exact) as [mrs'' e''] eqn:E2.
  cbn [fst snd] in *. rewrite Hm''.
  destruct (e'' <=? emax - prec); unfold SFbig; [lia | exact I].
Qed.

Lemma binary_round_big m e :
  -1074 <= e ->
  SFbig (Zpos (digits2_pos m) + e) (binary_round prec emax false m e).
Proof.
  intros He. unfold binary_round.
  pose proof (shl_align_spec m e (SpecFloat.fexp prec emax (Zpos (digits2_pos m) + e)))
    as [Hm Hs].
  destruct (shl_align m e _) as [mz ez]. cbn [fst snd] in *.
  rewrite fexp_eq in Hs. unfold fexp64 in Hs.
  assert (Hd : Zpos (digits2_pos mz) = Zpos (digits2_pos m) + (e - ez))
    by (apply digits2_pos_shift; [lia | exact Hm]).
  replace (Zpos (digits2_pos m) + e) with (Zpos (digits2_pos mz) + ez) by lia.
  apply binary_round_aux_big. lia.
Qed.

Lemma SFbig_weaken b b' x : b' <= b -> SFbig b x -> SFbig b' x.
Proof.
  intros Hb. destruct x as [ | [ | ] | | [ | ] m e]; unfold SFbig; try tauto. lia.
Qed.

(** The exponent of a valid number of binade at least [b]. *)
Lemma SFbig_exponent b m e :
  valid_binary (S754_finite false m e) = true ->
  SFbig b (S754_finite false m e) -> b - 53 <= e /\ -1074 <= e.
Proof.
  intros V H. unfold SFbig in H. apply valid_finite in V. destruct V as (He & Hm & _).
  pose proof (digits2_pos_bounds m) as [Dlo _].
  assert (Zpos (digits2_pos m) <= 53).
  { destruct (Z.le_gt_cases (Zpos (digits2_pos m)) 53) as [Hle | Hgt]; [exact Hle | ].
    assert (2 ^ 53 <= 2 ^ (Zpos (digits2_pos m) - 1)) by (apply Z.pow_le_mono_r; lia).
    lia. }
  lia.
Qed.

Lemma SFmul_big bx by_ x y :
  valid_binary x = true -> valid_binary y = true ->
  SFbig bx x -> SFbig by_ y -> -968 <= bx + by_ ->
  SFbig (bx + by_ - 1) (SFmul prec emax x y).
Proof.
  intros Vx Vy Hx Hy Hb.
  destruct x as [ | [ | ] | | [ | ] mx ex]; try contradiction;
    destruct y as [ | [ | ] | | [ | ] my ey]; try contradiction; try exact I.
  destruct (SFbig_exponent bx mx ex Vx Hx) as [Ex _].
  destruct (SFbig_exponent by_ my ey Vy Hy) as [Ey _].
  unfold SFbig in Hx, Hy. unfold SFmul. cbn [xorb].
  apply SFbig_weaken with (Zpos (digits2_pos (mx * my)) + (ex + ey)).
  - pose proof (digits2_pos_mul mx my). lia.
  - apply binary_round_aux_big. lia.
Qed.

Lemma SFadd_big_l b x y :
  valid_binary x = true -> valid_binary y = true ->
  SFbig b x -> SFzero_or_big b y -> SFbig b (SFadd prec emax x y).
Proof.
  intros Vx Vy Hx [-> | Hy].
  - destruct x as [ | [ | ] | | [ | ] mx ex]; try contradiction; exact Hx.
  - destruct x as [ | [ | ] | | [ | ] mx ex]; try contradiction;
      destruct y as [ | [ | ] | | [ | ] my ey]; try contradiction; try exact I.
    destruct (SFbig_exponent b mx ex Vx Hx) as [_ Ex].
    destruct (SFbig_exponent b my ey Vy Hy) as [_ Ey].
    unfold SFbig in Hx. unfold SFadd. cbn [cond_Zopp].
    pose proof (shl_align_spec mx ex (Z.min ex ey)) as [Hmx Hsx].
    pose proof (shl_align_spec my ey (Z.min ex ey)) as [Hmy Hsy].
    set (px := fst (shl_align mx ex (Z.min ex ey))) in *.
    set (py := fst (shl_align my ey (Z.min ex ey))) in *.
    rewrite Hsx in Hmx. rewrite Z.min_r in Hmx by lia.
    change (Zpos px + Zpos py) with (Zpos (px + py)). simpl binary_normalize.
    assert (Hd : Zpos (digits2_pos px) = Zpos (digits2_pos mx) + (ex - Z.min ex ey))
      by (apply digits2_pos_shift; [lia | exact Hmx]).
    assert (Hmono : Zpos (digits2_pos px) <= Zpos (digits2_pos (px + py)))
      by (apply digits2_pos_mono; lia).
    apply SFbig_weaken with (Zpos (digits2_pos (px + py)) + Z.min ex ey); [lia | ].
    apply binary_round_big. lia.
Qed.

Lemma SFadd_comm x y : SFadd prec emax x y = SFadd prec emax y x.
Proof.
  destruct x as [sx | sx | | sx mx ex], y as [sy | sy | | sy my ey]; simpl;
    try reflexivity; try (destruct sx, sy; reflexivity).
  rewrite (Z.min_comm ey ex), Z.add_comm. reflexivity.
Qed.

Lemma SFadd_zero_or_big b x y :
  valid_binary x = true -> valid_binary y = true ->
  SFzero_or_big b x -> SFzero_or_big b y -> SFzero_or_big b (SFadd prec emax x y).
Proof.
  intros Vx Vy [-> | Hx] Hy.
  - destruct Hy as [-> | Hy]; [left; reflexivity | right].
    rewrite SFadd_comm. apply SFadd_big_l; try assumption. left. reflexivity.
  - right. apply SFadd_big_l; assumption.
Qed.

Lemma SFsqrt_big b x :
  valid_binary x = true -> SFbig b x -> SFsigned false (SFsqrt prec emax x).
Proof.
  intros V H.
  destruct x as [ | [ | ] | | [ | ] m e]; try contradiction; [reflexivity | ].
  apply valid_finite in V. destruct V as (He & _ & _).
  unfold SFsqrt, SFsqrt_core_binary. rewrite fexp_eq. unfold fexp64.
  set (e' := Z.min (Z.max (Z.div2 (Zdigits2 (Zpos m) + e + 1) - 53) (-1074)) (Z.div2 e)).
  assert (Hdiv : 2 * Z.div2 e <= e /\ -1074 <= Z.div2 e).
  { rewrite Z.div2_div. pose proof (Z.div_mod e 2 ltac:(lia)).
    pose proof (Z.mod_pos_bound e 2 ltac:(lia)). lia. }
  assert (He' : -1074 <= e' /\ 0 <= e - 2 * e') by (unfold e'; lia).
  assert (Hm' : 0 < match e - 2 * e' with
                    | 0 => Zpos m
                    | Zpos _ => Z.shiftl (Zpos m) (e - 2 * e')
                    | Zneg _ => 0
                    end).
  { destruct (e - 2 * e') as [ | s | s] eqn:Es; try lia.
    rewrite Z.shiftl_mul_pow2 by lia.
    apply Z.mul_pos_pos; [lia | apply Z.pow_pos_nonneg; lia]. }
  set (m' := match e - 2 * e' with
             | 0 => Zpos m
             | Zpos _ => Z.shiftl (Zpos m) (e - 2 * e')
             | Zneg _ => 0
             end) in *.
  pose proof (Z.sqrtrem_spec m' ltac:(lia)) as Hs.
  destruct (Z.sqrtrem m') as [q r]. destruct Hs as [Hq Hr].
  destruct q as [ | q | q]; try lia.
  apply binary_round_aux_signed. lia.
Qed.

Lemma SFmul_zero_or_big b x :
  valid_binary x = true -> SFzero_or_big b x -> -484 <= b ->
  SFzero_or_big (b + b - 1) (SFmul prec emax x x).
Proof.
  intros V [-> | H] Hb; [left; reflexivity | right].
  apply SFmul_big; try assumption. lia.
Qed.

(** *** Primitive floats *)

Local Open Scope float_scope.

Lemma is_nan_false_iff (x : float) : is_nan x = false <-> SFnot_nan (Prim2SF x).
Proof.
  split.
  - intros H. unfold Prim2SF. rewrite H.
    destruct (is_zero x); [exact I | ].
    destruct (is_infinity x); [exact I | ].
    destruct (Z.frexp x) as [r exp].
    destruct (shr_fexp _ _ _ _ _) as [shr e'].
    destruct (shr_m shr); exact I.
  - intros H. unfold is_nan. rewrite FloatAxioms.eqb_spec. unfold SFeqb.
    rewrite SFcompare_refl by assumption. reflexivity.
Qed.

Lemma is_nan_true_iff (x : float) : is_nan x = true <-> Prim2SF x = S754_nan.
Proof.
  split.
  - intros H. unfold Prim2SF. rewrite H. reflexivity.
  - intros H. destruct (is_nan x) eqn:E; [reflexivity | ].
    apply is_nan_false_iff in E. rewrite H in E. contradiction.
Qed.

Lemma ltb_not_nan x y : (x <? y) = true -> is_nan x = false /\ is_nan y = false.
Proof.
  rewrite FloatAxioms.ltb_spec. intros H. apply SFltb_not_nan in H.
  rewrite !is_nan_false_iff. assumption.
Qed.

Lemma leb_not_nan x y : (x <=? y) = true -> is_nan x = false /\ is_nan y = false.
Proof.
  rewrite FloatAxioms.leb_spec. intros H. apply SFleb_not_nan in H.
  rewrite !is_nan_false_iff. assumption.
Qed.

Lemma ltb_false_leb x y :
  is_nan x = false -> is_nan y = false -> (x <? y) = false -> (y <=? x) = true.
Proof.
  rewrite !is_nan_false_iff, FloatAxioms.ltb_spec, FloatAxioms.leb_spec. apply SFltb_false_leb.
Qed.

Lemma ltb_leb x y : (x <? y) = true -> (x <=? y) = true.
Proof. rewrite FloatAxioms.ltb_spec, FloatAxioms.leb_spec. apply SFltb_leb. Qed.

Lemma ltb_not_leb x y : (x <? y) = true -> (y <=? x) = false.
Proof. rewrite FloatAxioms.ltb_spec, FloatAxioms.leb_spec. apply SFltb_not_leb. Qed.

Lemma leb_trans x y z : (x <=? y) = true -> (y <=? z) = true -> (x <=? z) = true.
Proof. rewrite !FloatAxioms.leb_spec. apply SFleb_trans. Qed.

Lemma leb_refl x : is_nan x = false -> (x <=? x) = true.
Proof.
  rewrite is_nan_false_iff, FloatAxioms.leb_spec. intros H. unfold SFleb.
  rewrite SFcompare_refl by assumption. reflexivity.
Qed.

(** [x - y < 0] exactly when [x < y]: what a comparator [(a, b) => b - a]
    relies on. *)
Lemma sub_ltb_zero x y :
  is_nan x = false -> is_nan y = false -> (x - y <? 0) = (x <? y).
Proof.
  rewrite !is_nan_false_iff. intros Nx Ny.
  rewrite !FloatAxioms.ltb_spec, FloatAxioms.sub_spec.
  change (Prim2SF 0) with (S754_zero false).
  apply SFsub_ltb_zero; auto using Prim2SF_valid.
Qed.

Lemma mul_comm x y : x * y = y * x.
Proof.
  apply Prim2SF_inj. rewrite !FloatAxioms.mul_spec. unfold SF64mul.
  destruct (Prim2SF x) as [sx | sx | | sx mx ex], (Prim2SF y) as [sy | sy | | sy my ey];
    simpl; rewrite ?(xorb_comm sx sy); try reflexivity.
  rewrite (Pos.mul_comm mx my), (Z.add_comm ex ey). reflexivity.
Qed.

(** Multiplying by a finite non-zero constant never produces NaN. *)
Lemma mul_finite_not_nan x c s m e :
  Prim2SF c = S754_finite s m e -> is_nan x = false -> is_nan (x * c) = false.
Proof.
  intros Hc. rewrite !is_nan_false_iff, FloatAxioms.mul_spec, Hc. unfold SF64mul.
  destruct (Prim2SF x) as [sx | sx | | sx mx ex]; simpl; try tauto.
  intros _. apply binary_round_aux_not_nan. lia.
Qed.

Lemma SFeqb_zero_inv x z : SFeqb x (S754_zero z) = true -> exists s, x = S754_zero s.
Proof.
  destruct x as [s | s | | s m e]; simpl; try discriminate.
  - intros _. exists s. reflexivity.
  - destruct s; discriminate.
  - destruct s; discriminate.
Qed.

Lemma is_infinity_SF x s : Prim2SF x = S754_infinity s -> is_infinity x = true.
Proof.
  intros H. unfold is_infinity. rewrite FloatAxioms.eqb_spec, FloatAxioms.abs_spec, H.
  reflexivity.
Qed.

Lemma is_finite_SF x : is_finite x = true -> SFfinite (Prim2SF x).
Proof.
  unfold is_finite. intros H. apply negb_true_iff, orb_false_iff in H.
  destruct H as [Hn Hi].
  apply is_nan_false_iff in Hn.
  destruct (Prim2SF x) as [s | s | | s m e] eqn:E; try exact I; try contradiction.
  rewrite (is_infinity_SF x s E) in Hi. discriminate.
Qed.

(** A zero times a finite number is a zero. *)
Lemma mul_zero_finite x y :
  (x =? 0) = true -> is_finite y = true -> (x * y =? 0) = true.
Proof.
  rewrite !FloatAxioms.eqb_spec, FloatAxioms.mul_spec.
  change (Prim2SF 0) with (S754_zero false).
  intros Hx Hy. apply SFeqb_zero_inv in Hx. destruct Hx as [s Hx].
  apply is_finite_SF in Hy. rewrite Hx. unfold SF64mul.
  destruct (Prim2SF y) as [sy | sy | | sy my ey]; try contradiction; reflexivity.
Qed.

(** *** Magnitudes of primitive floats *)

Lemma big_zero_or_big b x : big b x -> zero_or_big b x.
Proof. intros H. right. exact H. Qed.

Lemma big_not_zero_nan b x : big b x -> (x =? 0) = false /\ is_nan x = false.
Proof.
  unfold big. intros H. split.
  - rewrite FloatAxioms.eqb_spec. change (Prim2SF 0) with (S754_zero false).
    destruct (Prim2SF x) as [ | [ | ] | | [ | ] m e]; try contradiction; reflexivity.
  - apply is_nan_false_iff.
    destruct (Prim2SF x) as [ | [ | ] | | [ | ] m e]; try contradiction; exact I.
Qed.

Lemma mul_big bx by_ x y :
  big bx x -> big by_ y -> (-968 <= bx + by_)%Z -> big (bx + by_ - 1) (x * y).
Proof.
  unfold big. intros Hx Hy Hb. rewrite FloatAxioms.mul_spec.
  apply SFmul_big; auto using Prim2SF_valid.
Qed.

Lemma square_zero_or_big b x :
  zero_or_big b x -> (-484 <= b)%Z -> zero_or_big (b + b - 1) (x * x).
Proof.
  unfold zero_or_big. intros H Hb. rewrite FloatAxioms.mul_spec.
  apply SFmul_zero_or_big; auto using Prim2SF_valid.
Qed.

Lemma square_big b x : big b x -> (-484 <= b)%Z -> big (b + b - 1) (x * x).
Proof. intros H Hb. apply mul_big; try assumption. lia. Qed.

Lemma add_big_l b x y : big b x -> zero_or_big b y -> big b (x + y).
Proof.
  unfold big, zero_or_big. intros Hx Hy. rewrite FloatAxioms.add_spec.
  apply SFadd_big_l; auto using Prim2SF_valid.
Qed.

Lemma add_big_r b x y : zero_or_big b x -> big b y -> big b (x + y).
Proof.
  unfold big, zero_or_big. intros Hx Hy. rewrite FloatAxioms.add_spec.
  unfold SF64add. rewrite SFadd_comm.
  apply SFadd_big_l; auto using Prim2SF_valid.
Qed.

Lemma add_zero_or_big b x y : zero_or_big b x -> zero_or_big b y -> zero_or_big b (x + y).
Proof.
  unfold zero_or_big. intros Hx Hy. rewrite FloatAxioms.add_spec.
  apply SFadd_zero_or_big; auto using Prim2SF_valid.
Qed.

Lemma sqrt_big_positive b x : big b x -> (0 <? PrimFloat.sqrt x) = true.
Proof.
  unfold big. intros H. rewrite FloatAxioms.ltb_spec, FloatAxioms.sqrt_spec.
  change (Prim2SF 0) with (S754_zero false).
  pose proof (SFsqrt_big b (Prim2SF x) (Prim2SF_valid x) H) as Hs.
  unfold SF64sqrt.
  destruct (SFsqrt prec emax (Prim2SF x)) as [ | s | | s m e]; simpl in Hs;
    try contradiction; subst; reflexivity.
Qed.

End FloatFacts.

(** ** Properties of the services *)

Import FloatDefs FloatFacts.

Local Open Scope float_scope.

(** *** Strings and Map objects *)

Lemma dropWhile_length {A} (p : A -> bool) (l : list A) :
  (List.length (dropWhile p l) <= List.length l)%nat.
Proof.
  induction l as [ | x l IH]; simpl; [lia | ].
  destruct (p x); simpl; lia.
Qed.

Lemma trim_length s : (String_length (trim s) <= String_length s)%nat.
Proof.
  unfold trim, trimEnd, trimStart, String_length.
  rewrite length_rev.
  eapply Nat.le_trans; [apply dropWhile_length | ].
  rewrite length_rev. apply dropWhile_length.
Qed.

Lemma String_eqb_eq : forall s t, String_eqb s t = true <-> s = t.
Proof.
  induction s as [ | c s IH]; intros [ | d t]; simpl; split; intros H;
    try discriminate; try reflexivity.
  - apply andb_true_iff in H. destruct H as [Hc Hs].
    apply Z.eqb_eq in Hc. apply IH in Hs. subst. reflexivity.
  - inversion H; subst. rewrite Z.eqb_refl. simpl. apply IH. reflexivity.
Qed.

Lemma String_eqb_refl s : String_eqb s s = true.
Proof. apply String_eqb_eq. reflexivity. Qed.

Section MapFacts.
Context {V : Type}.

Lemma Map_get_None (m : Map V) k : Map_get m k = None -> ~ In k (map fst m).
Proof.
  induction m as [ | [k' v'] m IH]; simpl; intros H; [tauto | ].
  destruct (String_eqb k' k) eqn:E; [discriminate | ].
  intros [Hk | Hk]; [ | apply IH; assumption].
  subst. rewrite String_eqb_refl in E. discriminate.
Qed.

Lemma Map_get_Some (m : Map V) k v : Map_get m k = Some v -> In (k, v) m.
Proof.
  induction m as [ | [k' v'] m IH]; simpl; intros H; [discriminate | ].
  destruct (String_eqb k' k) eqn:E.
  - apply String_eqb_eq in E. inversion H; subst. left. reflexivity.
  - right. apply IH. assumption.
Qed.

Lemma Map_set_absent (m : Map V) k v :
  ~ In k (map fst m) -> Map_set m k v = m ++ [(k, v)].
Proof.
  induction m as [ | [k' v'] m IH]; simpl; intros H; [reflexivity | ].
  destruct (String_eqb k' k) eqn:E.
  - apply String_eqb_eq in E. subst. tauto.
  - rewrite IH by tauto. reflexivity.
Qed.

Lemma Map_set_keys (m : Map V) k v :
  In k (map fst m) -> map fst (Map_set m k v) = map fst m.
Proof.
  induction m as [ | [k' v'] m IH]; simpl; intros H; [tauto | ].
  destruct (String_eqb k' k) eqn:E; simpl; [reflexivity | ].
  f_equal. apply IH. destruct H as [H | H]; [ | assumption].
  subst. rewrite String_eqb_refl in E. discriminate.
Qed.

Lemma Map_set_In (m : Map V) k v k' v' :
  In (k', v') (Map_set m k v) -> (k' = k /\ v' = v) \/ In (k', v') m.
Proof.
  induction m as [ | [k0 v0] m IH]; simpl.
  - intros [H | []]. inversion H; subst. left. split; reflexivity.
  - destruct (String_eqb k0 k) eqn:E; simpl.
    + apply String_eqb_eq in E. subst k0.
      intros [H | H]; [inversion H; subst; left; split; reflexivity | ].
      right. right. exact H.
    + intros [H | H]; [right; left; exact H | ].
      destruct (IH H) as [H' | H']; [left; exact H' | right; right; exact H'].
Qed.

Lemma Map_set_In_same (m : Map V) k v : In (k, v) (Map_set m k v).
Proof.
  induction m as [ | [k0 v0] m IH]; simpl; [left; reflexivity | ].
  destruct (String_eqb k0 k) eqn:E; simpl.
  - apply String_eqb_eq in E. subst. left. reflexivity.
  - right. exact IH.
Qed.

Lemma Map_set_In_other (m : Map V) k v k' v' :
  k' <> k -> In (k', v') m -> In (k', v') (Map_set m k v).
Proof.
  intros Hne. induction m as [ | [k0 v0] m IH]; simpl; [tauto | ].
  destruct (String_eqb k0 k) eqn:E; simpl.
  - apply String_eqb_eq in E. subst k0.
    intros [H | H]; [inversion H; subst; contradiction | right; exact H].
  - intros [H | H]; [left; exact H | right; apply IH; exact H].
Qed.

Lemma Map_unique (m : Map V) k v1 v2 :
  NoDup (map fst m) -> In (k, v1) m -> In (k, v2) m -> v1 = v2.
Proof.
  induction m as [ | [k0 v0] m IH]; simpl; intros Hnd H1 H2; [contradiction | ].
  inversion Hnd as [ | ? ? Hnot Hnd']; subst.
  destruct H1 as [H1 | H1], H2 as [H2 | H2].
  - inversion H1; inversion H2; subst. reflexivity.
  - inversion H1; subst. exfalso. apply Hnot.
    apply (in_map fst) in H2. exact H2.
  - inversion H2; subst. exfalso. apply Hnot.
    apply (in_map fst) in H1. exact H1.
  - apply IH; assumption.
Qed.

End MapFacts.


(** *** Array.prototype.sort *)

Section Sorting.
Context {A : Type}.

Lemma sort_insert_perm (comparefn : A -> A -> number) (x : A) : forall l,
  Permutation (sort_insert comparefn x l) (x :: l).
Proof.
  induction l as [ | y l IH]; simpl; [apply Permutation_refl | ].
  destruct (comparefn y x <? 0); [ | apply Permutation_refl].
  apply perm_trans with (y :: x :: l); [apply perm_skip, IH | apply perm_swap].
Qed.

Lemma sort_perm (comparefn : A -> A -> number) : forall l,
  Permutation (sort comparefn l) l.
Proof.
  induction l as [ | x l IH]; simpl; [apply perm_nil | ].
  apply perm_trans with (x :: sort comparefn l);
    [apply sort_insert_perm | apply perm_skip, IH].
Qed.

Variable key : A -> number.

Lemma sort_insert_sorted (x : A) : forall l,
  is_nan (key x) = false -> keysAreNumbers key l ->
  StronglySorted (nonIncreasing key) l ->
  StronglySorted (nonIncreasing key) (sort_insert (descending key) x l).
Proof.
  intros l Nx. induction l as [ | y l IH]; intros Nl Hs; simpl.
  - constructor; constructor.
  - inversion Nl as [ | ? ? Ny Nl']; subst.
    inversion Hs as [ | ? ? Hs' Hy]; subst.
    unfold descending at 1. rewrite sub_ltb_zero by assumption.
    destruct (key x <? key y) eqn:E.
    + constructor; [apply IH; assumption | ].
      apply (Permutation_Forall (Permutation_sym (sort_insert_perm (descending key) x l))).
      constructor; [apply ltb_leb; exact E | exact Hy].
    + assert (Hxy : nonIncreasing key x y)
        by (apply ltb_false_leb; assumption).
      constructor; [exact Hs | ].
      constructor; [exact Hxy | ].
      apply Forall_impl with (P := nonIncreasing key y); [ | exact Hy].
      intros z Hz. unfold nonIncreasing in *. apply leb_trans with (key y); assumption.
Qed.

Lemma sort_sorted : forall l,
  keysAreNumbers key l -> StronglySorted (nonIncreasing key) (sort (descending key) l).
Proof.
  induction l as [ | x l IH]; intros Nl; simpl; [constructor | ].
  inversion Nl as [ | ? ? Nx Nl']; subst.
  apply sort_insert_sorted; [assumption | | apply IH; assumption].
  apply (Permutation_Forall (Permutation_sym (sort_perm (descending key) l))). exact Nl'.
Qed.

End Sorting.

(** *** Array.prototype.slice *)

Lemma slice0_top {A} (limit : number) (k : nat) (l : list A) :
  ToIntegerOrInfinity limit = Integer (Z.of_nat k) -> slice0 limit l = firstn k l.
Proof.
  intros H. unfold slice0. rewrite H.
  destruct (Z.of_nat k <? 0)%Z eqn:E; [apply Z.ltb_lt in E; lia | ].
  rewrite Nat2Z.id. reflexivity.
Qed.


Import VectorService.

(** *** updateConfig *)

(** C10. After [updateConfig(partial)] every configuration field that
    [partial] names has the value [partial] gives it, and every field it
    does not name has the value it had before; the API key is untouched. *)
Theorem updateConfig_merges_fields :
  forall (s : RAGService.t) (partial : RAGService.PartialRAGConfig) (f : ConfigField),
    getField f (RAGService.config (RAGService.updateConfig s partial))
    = match namedField f partial with
      | Some v => v
      | None => getField f (RAGService.config s)
      end
    /\ RAGService.apiKey (RAGService.updateConfig s partial) = RAGService.apiKey s.
Proof.
  intros s partial f. split; [ | reflexivity].
  destruct f; simpl; unfold RAGService.spread;
    match goal with |- context [match ?o with _ => _ end] => destruct o end;
    reflexivity.
Qed.


(** *** chunkText *)

Lemma chunk_ok_trim sentences maxLength c :
  chunk_ok sentences maxLength c -> chunk_ok sentences maxLength (trim c).
Proof.
  pose proof (trim_length c) as Ht.
  intros [H | (s & Hs & Hl)]; [left; lia | right].
  exists s. split; [assumption | lia].
Qed.

Lemma chunk_step_ok sentences maxLength st sentence :
  In sentence sentences ->
  Forall (chunk_ok sentences maxLength) (fst st) ->
  chunk_ok sentences maxLength (snd st) ->
  Forall (chunk_ok sentences maxLength) (fst (chunk_step maxLength st sentence))
  /\ chunk_ok sentences maxLength (snd (chunk_step maxLength st sentence)).
Proof.
  destruct st as [chunks cur]. simpl fst. simpl snd. intros Hin Hc Hcur.
  unfold chunk_step.
  destruct ((maxLength <? Z.of_nat (String_length (cur ++ sentence)))%Z && truthy cur) eqn:E;
    simpl fst; simpl snd.
  - split.
    + apply Forall_app. split; [assumption | ].
      constructor; [apply chunk_ok_trim; assumption | constructor].
    + right. exists sentence. split; [assumption | lia].
  - split; [assumption | ].
    destruct cur as [ | c cur'].
    + right. exists sentence. split; [assumption | simpl; lia].
    + left. simpl truthy in *. rewrite andb_true_r in E. apply Z.ltb_ge in E.
      unfold String_length in *. rewrite !length_app in *. simpl in *. lia.
Qed.

Lemma chunk_fold_ok sentences maxLength : forall l st,
  incl l sentences ->
  Forall (chunk_ok sentences maxLength) (fst st) ->
  chunk_ok sentences maxLength (snd st) ->
  Forall (chunk_ok sentences maxLength) (fst (fold_left (chunk_step maxLength) l st))
  /\ chunk_ok sentences maxLength (snd (fold_left (chunk_step maxLength) l st)).
Proof.
  induction l as [ | s l IH]; intros st Hincl Hc Hcur; simpl.
  - split; assumption.
  - destruct (chunk_step_ok sentences maxLength st s) as [H1 H2]; auto.
    + apply Hincl. left. reflexivity.
    + apply IH; auto. intros x Hx. apply Hincl. right. assumption.
Qed.

(** Whatever the text, a chunk is at most one unit longer than
    [maxLength], unless it is a single sentence or the whole text. *)
Lemma chunkText_bound text maxLength :
  (0 <= maxLength)%Z ->
  chunkText text maxLength = [text]
  \/ Forall (chunk_ok (sentencesOf text) maxLength) (chunkText text maxLength).
Proof.
  intros Hmax. unfold chunkText.
  destruct (chunk_fold_ok (sentencesOf text) maxLength (sentencesOf text) ([], []))
    as [H1 H2].
  - apply incl_refl.
  - constructor.
  - left. simpl. lia.
  - destruct (fold_left _ _ _) as [chunks cur]. simpl in H1, H2.
    assert (H : Forall (chunk_ok (sentencesOf text) maxLength)
                  (if truthy (trim cur) then chunks ++ [trim cur] else chunks)).
    { destruct (truthy (trim cur)); [ | assumption].
      apply Forall_app. split; [assumption | ].
      constructor; [apply chunk_ok_trim; assumption | constructor]. }
    destruct (if truthy (trim cur) then chunks ++ [trim cur] else chunks);
      [left; reflexivity | right; assumption].
Qed.


Lemma chunkText_no_sentence text maxLength :
  sentencesOf text = [] -> chunkText text maxLength = [text].
Proof. intros H. unfold chunkText. rewrite H. reflexivity. Qed.

(** C5. A text of two sentences of 250 units is returned by
    [chunkText(text, 500)] as one chunk of 501 units, and
    [chunkText("ab.c", 3)] is the one chunk "ab。c" of 4 units: the length
    test leaves out the separator that joining adds. *)
Theorem chunkText_exceeds_maxLength :
  map String_length (sentencesOf halfAndHalf) = [250; 250]%nat
  /\ map String_length (chunkText halfAndHalf defaultMaxLength) = [501]%nat
  /\ chunkText (js "ab.c") 3 = [js "ab。c"].
Proof. vm_compute. repeat split. Qed.


(** *** cosineSimilarity *)

Lemma cosine_loop_sums : forall a b dot na nb,
  List.length a = List.length b ->
  cosine_loop a b (dot, na, nb)
  = (dotFrom dot a b,
     fold_left (fun sum val => sum + val * val) a na,
     fold_left (fun sum val => sum + val * val) b nb).
Proof.
  induction a as [ | x a IH]; intros [ | y b] dot na nb Hlen; simpl in Hlen;
    try discriminate; [reflexivity | ].
  simpl cosine_loop. rewrite IH by lia. reflexivity.
Qed.

Lemma dotFrom_comm : forall a b acc, dotFrom acc a b = dotFrom acc b a.
Proof.
  unfold dotFrom.
  induction a as [ | x a IH]; intros [ | y b] acc; simpl; try reflexivity.
  rewrite (mul_comm x y). apply IH.
Qed.

Lemma dotFrom_self : forall a acc,
  dotFrom acc a a = fold_left (fun sum val => sum + val * val) a acc.
Proof.
  unfold dotFrom. induction a as [ | x a IH]; intros acc; simpl; [reflexivity | apply IH].
Qed.

Lemma cosineSimilarity_equal_length a b :
  List.length a = List.length b ->
  cosineSimilarity a b
  = if norm a * norm b =? 0 then 0 else dotFrom 0 a b / (norm a * norm b).
Proof.
  intros Hlen. unfold cosineSimilarity.
  rewrite (proj2 (Nat.eqb_eq _ _) Hlen). simpl negb. cbv iota.
  rewrite cosine_loop_sums by assumption. reflexivity.
Qed.

Lemma cosineSimilarity_length_mismatch a b :
  List.length a <> List.length b -> cosineSimilarity a b = 0.
Proof.
  intros Hlen. unfold cosineSimilarity.
  rewrite (proj2 (Nat.eqb_neq _ _) Hlen). reflexivity.
Qed.

(** C7 (amended). [cosineSimilarity] is symmetric; it is 0 when the lengths
    differ, and when one computed norm is 0 and the other is finite; and
    [cosineSimilarity(v, v)] is the computed squared norm [n] of [v]
    divided by [sqrt(n) * sqrt(n)] (0 when that product is 0), which is 1
    in exact arithmetic but not for every non-zero [v]. *)
Theorem cosineSimilarity_properties :
  forall a b : list number,
    cosineSimilarity a b = cosineSimilarity b a
    /\ (List.length a <> List.length b -> cosineSimilarity a b = 0)
    /\ (List.length a = List.length b ->
        (norm a =? 0) = true -> is_finite (norm b) = true ->
        cosineSimilarity a b = 0)
    /\ cosineSimilarity a a
       = (if norm a * norm a =? 0 then 0 else squaredNorm a / (norm a * norm a)).
Proof.
  intros a b. split; [ | split; [ | split]].
  - destruct (Nat.eq_dec (List.length a) (List.length b)) as [Hlen | Hlen].
    + rewrite (cosineSimilarity_equal_length a b Hlen).
      rewrite (cosineSimilarity_equal_length b a (eq_sym Hlen)).
      rewrite (mul_comm (norm b) (norm a)), (dotFrom_comm b a). reflexivity.
    + rewrite cosineSimilarity_length_mismatch by assumption.
      rewrite cosineSimilarity_length_mismatch by (intros E; apply Hlen; symmetry; exact E).
      reflexivity.
  - apply cosineSimilarity_length_mismatch.
  - intros Hlen Hzero Hfin. rewrite cosineSimilarity_equal_length by assumption.
    rewrite mul_zero_finite by assumption. reflexivity.
  - rewrite cosineSimilarity_equal_length by reflexivity.
    rewrite dotFrom_self. reflexivity.
Qed.


(** *** getFallbackEmbedding *)

Lemma add_at_length : forall arr index v, List.length (add_at index v arr) = List.length arr.
Proof.
  induction arr as [ | x arr IH]; intros [ | i] v; simpl; try reflexivity.
  rewrite IH. reflexivity.
Qed.

Lemma scatter_length embedding entry :
  List.length (scatter embedding entry) = List.length embedding.
Proof.
  destruct entry as [word freq]. unfold scatter. simpl fold_left.
  rewrite !add_at_length. reflexivity.
Qed.

Lemma fold_scatter_length : forall entries embedding,
  List.length (fold_left scatter entries embedding) = List.length embedding.
Proof.
  induction entries as [ | e entries IH]; intros embedding; simpl; [reflexivity | ].
  rewrite IH. apply scatter_length.
Qed.

(** The index written by [scatter] is inside the array. *)
Lemma scatter_index_in_range (word : jsstring) (i : Z) :
  (Z.to_nat ((simpleHash word + i) mod 384) < dimension)%nat.
Proof.
  unfold dimension.
  pose proof (Z.mod_pos_bound (simpleHash word + i) 384 ltac:(lia)). lia.
Qed.

(** The norm of the accumulated vector. *)

Lemma zero_is_zero_or_big b : zero_or_big b 0.
Proof. left. reflexivity. Qed.

Lemma one_is_big : big 1 1.
Proof. unfold big. vm_compute. discriminate. Qed.

Lemma tenth_is_big : big (-3) 0.1.
Proof. unfold big. vm_compute. discriminate. Qed.

Lemma Map_set_Forall {V} (P : jsstring * V -> Prop) (m : Map V) k v :
  (forall k', P (k', v)) -> Forall P m -> Forall P (Map_set m k v).
Proof.
  intros Hv. induction m as [ | [k0 v0] m IH]; simpl; intros H.
  - constructor; [apply Hv | constructor].
  - inversion H as [ | ? ? H0 Hm]; subst.
    destruct (String_eqb k0 k); constructor; auto.
Qed.

Lemma Map_set_not_empty {V} (m : Map V) k v : Map_set m k v <> [].
Proof. destruct m as [ | [k0 v0] m]; simpl; [ | destruct (String_eqb k0 k)]; discriminate. Qed.

Lemma count_word_counted wordFreq word :
  frequenciesCounted wordFreq -> frequenciesCounted (count_word wordFreq word).
Proof.
  intros H. unfold count_word. apply Map_set_Forall; [ | exact H].
  intros k'. simpl snd.
  destruct (Map_get wordFreq word) as [n | ] eqn:E.
  - apply Map_get_Some in E. unfold frequenciesCounted in H.
    rewrite Forall_forall in H. specialize (H _ E). simpl in H.
    destruct (big_not_zero_nan 1 n H) as [Hz Hn]. rewrite Hz, Hn. simpl.
    apply add_big_l; [exact H | apply big_zero_or_big, one_is_big].
  - apply add_big_r; [apply zero_is_zero_or_big | apply one_is_big].
Qed.

Lemma fold_count_word_counted : forall words wordFreq,
  frequenciesCounted wordFreq ->
  frequenciesCounted (fold_left count_word words wordFreq).
Proof.
  induction words as [ | w words IH]; intros wordFreq H; simpl; [exact H | ].
  apply IH, count_word_counted, H.
Qed.

Lemma fold_count_word_not_empty : forall words wordFreq,
  words <> [] \/ wordFreq <> [] -> fold_left count_word words wordFreq <> [].
Proof.
  induction words as [ | w words IH]; intros wordFreq H; simpl.
  - destruct H as [H | H]; [contradiction | exact H].
  - apply IH. right. unfold count_word. apply Map_set_not_empty.
Qed.

Lemma add_at_ok : forall arr index v,
  big (-3) v -> accumulatedOk arr -> accumulatedOk (add_at index v arr).
Proof.
  induction arr as [ | x arr IH]; intros [ | i] v Hv H; simpl; try exact H;
    inversion H as [ | ? ? Hx Harr]; subst; constructor; auto.
  - apply big_zero_or_big. apply add_big_r; assumption.
  - apply IH; assumption.
Qed.

Lemma add_at_touched : forall arr index v,
  big (-3) v -> accumulatedOk arr ->
  (index < List.length arr)%nat \/ touched arr -> touched (add_at index v arr).
Proof.
  induction arr as [ | x arr IH]; intros [ | i] v Hv H Hi; simpl.
  - destruct Hi as [Hi | Hi]; [simpl in Hi; lia | exact Hi].
  - destruct Hi as [Hi | Hi]; [simpl in Hi; lia | exact Hi].
  - inversion H as [ | ? ? Hx Harr]; subst.
    apply Exists_cons_hd. apply add_big_r; assumption.
  - inversion H as [ | ? ? Hx Harr]; subst.
    destruct Hi as [Hi | Hi].
    + apply Exists_cons_tl. apply IH; try assumption. left. simpl in Hi. lia.
    + inversion Hi as [? ? Hb | ? ? Ht]; subst.
      * apply Exists_cons_hd. exact Hb.
      * apply Exists_cons_tl. apply IH; try assumption. right. exact Ht.
Qed.

Lemma scatter_ok arr entry :
  big 1 (snd entry) -> accumulatedOk arr -> List.length arr = dimension ->
  accumulatedOk (scatter arr entry) /\ touched (scatter arr entry).
Proof.
  destruct entry as [word freq]. simpl snd. intros Hf H Hlen.
  assert (Hv : big (-3) (freq * 0.1)).
  { change (-3)%Z with (1 + -3 - 1)%Z.
    apply mul_big; [exact Hf | exact tenth_is_big | lia]. }
  unfold scatter. simpl fold_left. split.
  - repeat apply add_at_ok; assumption.
  - apply add_at_touched; [exact Hv | repeat apply add_at_ok; assumption | ].
    left. rewrite !add_at_length, Hlen. apply scatter_index_in_range.
Qed.

Lemma fold_scatter_ok : forall entries arr,
  frequenciesCounted entries -> accumulatedOk arr -> List.length arr = dimension ->
  accumulatedOk (fold_left scatter entries arr)
  /\ (entries <> [] \/ touched arr -> touched (fold_left scatter entries arr)).
Proof.
  induction entries as [ | entry entries IH]; intros arr Hf H Hlen; simpl.
  - split; [exact H | ]. intros [Hne | Ht]; [contradiction | exact Ht].
  - inversion Hf as [ | ? ? He Hes]; subst.
    destruct (scatter_ok arr entry He H Hlen) as [Hok Ht].
    destruct (IH (scatter arr entry) Hes Hok) as [Hok' Ht'].
    + rewrite scatter_length. exact Hlen.
    + split; [exact Hok' | ]. intros _. apply Ht'. right. exact Ht.
Qed.

Lemma squaredNorm_fold : forall arr acc,
  accumulatedOk arr -> zero_or_big (-7) acc ->
  zero_or_big (-7) (fold_left (fun sum val => sum + val * val) arr acc)
  /\ (big (-7) acc \/ touched arr ->
      big (-7) (fold_left (fun sum val => sum + val * val) arr acc)).
Proof.
  induction arr as [ | x arr IH]; intros acc H Hacc; simpl.
  - split; [exact Hacc | ]. intros [Hb | Ht]; [exact Hb | inversion Ht].
  - inversion H as [ | ? ? Hx Harr]; subst.
    assert (Hsq : zero_or_big (-7) (x * x)).
    { change (-7)%Z with (-3 + -3 - 1)%Z. apply square_zero_or_big; [exact Hx | lia]. }
    destruct (IH (acc + x * x) Harr (add_zero_or_big _ _ _ Hacc Hsq)) as [Hz Hb].
    split; [exact Hz | ].
    intros [Hbig | Ht].
    + apply Hb. left. apply add_big_l; assumption.
    + inversion Ht as [? ? Hxb | ? ? Ht']; subst.
      * apply Hb. left. apply add_big_r; [exact Hacc | ].
        change (-7)%Z with (-3 + -3 - 1)%Z. apply square_big; [exact Hxb | lia].
      * apply Hb. right. exact Ht'.
Qed.

Section Fallback.
Context {host : Host}.

Lemma fallbackAccumulated_length text :
  List.length (fallbackAccumulated text) = dimension.
Proof.
  unfold fallbackAccumulated. rewrite fold_scatter_length. apply repeat_length.
Qed.

Lemma getFallbackEmbedding_no_words text :
  fallbackWords text = [] -> getFallbackEmbedding text = repeat 0 dimension.
Proof.
  intros H. unfold getFallbackEmbedding, fallbackAccumulated. rewrite H.
  reflexivity.
Qed.

(** A text with a word has an accumulated vector of positive norm. *)
Lemma fallbackAccumulated_norm_positive text :
  fallbackWords text <> [] ->
  (0 <? Math_sqrt (squaredNorm (fallbackAccumulated text))) = true.
Proof.
  intros Hw. unfold Math_sqrt, squaredNorm.
  apply sqrt_big_positive with (b := (-7)%Z).
  destruct (fold_scatter_ok
              (Map_entries (fold_left count_word (fallbackWords text) []))
              (repeat 0 dimension)) as [Hok Ht].
  - apply fold_count_word_counted. constructor.
  - apply Forall_forall. intros x Hx. apply repeat_spec in Hx. subst.
    apply zero_is_zero_or_big.
  - apply repeat_length.
  - apply squaredNorm_fold; [exact Hok | apply zero_is_zero_or_big | ].
    right. apply Ht. left. apply fold_count_word_not_empty. left. exact Hw.
Qed.

End Fallback.

Section ServiceProperties.
Context {host : Host}.

(** *** getEmbedding *)

(** C1. [getEmbedding] with no API key throws: the missing key is tested
    before the [try] block, so the local fallback is not reached. *)
Theorem getEmbedding_without_key_throws :
  forall (stored : list Vector) (text : jsstring),
    getEmbedding {| vectors := stored; apiKey := [] |} text
    = Throw (Error (js "API key not configured for embedding service")).
Proof. intros stored text. reflexivity. Qed.

(** With a key, [getEmbedding] always returns: the vector of the remote
    reply, or the fallback embedding of the cleaned text on any failure. *)
Lemma getEmbedding_with_key (s : VectorService.t) (text : jsstring) :
  truthy (apiKey s) = true ->
  getEmbedding s text
  = Return
      match fetch_embeddings apiUrl (apiKey s) model (cleanText text) with
      | HttpResponse true _ (Some embedding) => embedding
      | _ => getFallbackEmbedding (cleanText text)
      end.
Proof.
  intros Hkey. unfold getEmbedding. rewrite Hkey. simpl negb. cbv iota.
  destruct (fetch_embeddings _ _ _ _) as [reason | [ | ] status [embedding | ]];
    reflexivity.
Qed.

(** Without a key nothing is indexed: every chunk's embedding throws and
    the chunk is skipped. *)
Lemma addMeetingSegments_without_key (stored : list Vector) (meeting : jsstring)
  (segments : list Segment) :
  addMeetingSegments {| vectors := stored; apiKey := [] |} meeting segments
  = {| vectors := stored; apiKey := [] |}.
Proof.
  unfold addMeetingSegments.
  induction segments as [ | segment segments IH]; simpl; [reflexivity | ].
  replace (addSegment meeting {| vectors := stored; apiKey := [] |} segment)
    with {| vectors := stored; apiKey := [] |}; [exact IH | ].
  unfold addSegment.
  generalize (List.length (chunkText (seg_text segment) defaultMaxLength)) at 1.
  intros n.
  induction (combine _ _) as [ | [i chunk] chunks IHc]; simpl; [reflexivity | ].
  destruct (String_length (trim chunk) <? 10)%nat; exact IHc.
Qed.

(** *** semanticSearch *)

Lemma semanticSearch_empty_store (s : VectorService.t) (q : jsstring) (limit : number) :
  vectors s = [] -> semanticSearch s q limit = Return [].
Proof. intros H. unfold semanticSearch. rewrite H. reflexivity. Qed.

(** [semanticSearch] never throws, and what it returns passed its filter. *)
Lemma semanticSearch_returns (s : VectorService.t) (q : jsstring) (limit : number) :
  exists results, semanticSearch s q limit = Return results
    /\ Forall (fun r => (0.7 <? similarity r) = true) results.
Proof.
  unfold semanticSearch. destruct (vectors s) as [ | v vs] eqn:Ev.
  - exists []. split; [reflexivity | constructor].
  - destruct (getEmbedding s q) as [qe | e]; simpl.
    + eexists. split; [reflexivity | ].
      apply Forall_forall. intros r Hr. apply filter_In in Hr. apply Hr.
    + exists []. split; [reflexivity | constructor].
Qed.

(** C3 (amended). On an empty store [semanticSearch] returns the empty
    list, whatever the key, the query and the limit.  When [getEmbedding]
    yields a query vector, [semanticSearch] scores every stored record by
    cosine similarity, sorts the scored records (into non-increasing
    similarity when no similarity is NaN), takes the first [limit] of them
    as [slice(0, limit)] does (the first [k] for a non-negative integer
    [k]) and returns those whose similarity is greater than 0.7. *)
Theorem semanticSearch_ranked :
  forall (s : VectorService.t) (query : jsstring) (limit : number),
    (vectors s = [] -> semanticSearch s query limit = Return [])
    /\ forall queryEmbedding : list number,
         getEmbedding s query = Return queryEmbedding ->
         exists ranking,
           Permutation ranking (map (score queryEmbedding) (vectors s))
           /\ (keysAreNumbers similarity ranking ->
               StronglySorted (nonIncreasing similarity) ranking)
           /\ semanticSearch s query limit
              = Return (filter (fun r => 0.7 <? similarity r) (slice0 limit ranking))
           /\ (forall k : nat,
                 ToIntegerOrInfinity limit = Integer (Z.of_nat k) ->
                 semanticSearch s query limit
                 = Return (filter (fun r => 0.7 <? similarity r) (firstn k ranking))).
Proof.
  intros s query limit. split; [apply semanticSearch_empty_store | ].
  intros queryEmbedding Hq.
  exists (sort bySimilarityDesc (map (score queryEmbedding) (vectors s))).
  assert (E : semanticSearch s query limit
              = Return (filter (fun r => 0.7 <? similarity r)
                          (slice0 limit
                             (sort bySimilarityDesc
                                (map (score queryEmbedding) (vectors s)))))).
  { unfold semanticSearch. rewrite Hq. simpl bind.
    destruct (vectors s) as [ | v vs] eqn:Ev; [ | reflexivity].
    simpl. unfold slice0.
    destruct (ToIntegerOrInfinity limit) as [ | k | ]; [reflexivity | | reflexivity].
    destruct (k <? 0)%Z; rewrite firstn_nil; reflexivity. }
  split; [apply sort_perm | ]. split; [ | split].
  - intros Hn. change bySimilarityDesc with (descending similarity).
    apply sort_sorted.
    exact (Permutation_Forall (sort_perm (descending similarity) _) Hn).
  - exact E.
  - intros k Hk. rewrite E, (slice0_top limit k) by assumption. reflexivity.
Qed.

(** C2. With no API key in the vector service, [semanticSearch] returns the
    empty list whatever is stored, and [query] returns the fixed
    no-evidence result, whose confidence is 0. *)
Theorem no_key_search_is_empty :
  forall (stored : list Vector) (rag : RAGService.t)
         (question : jsstring) (limit : number) (currentMeetingId : option jsstring),
    let vs := {| vectors := stored; apiKey := [] |} in
    semanticSearch vs question limit = Return []
    /\ RAGService.query rag vs question currentMeetingId
       = Return RAGService.noEvidenceResult
    /\ RAGService.confidence RAGService.noEvidenceResult = 0.
Proof.
  intros stored rag question limit currentMeetingId vs.
  assert (Hs : forall l, semanticSearch vs question l = Return []).
  { intros l. unfold semanticSearch. destruct stored; reflexivity. }
  split; [apply Hs | ]. split; [ | reflexivity].
  unfold RAGService.query, RAGService.retrieveContext. rewrite Hs.
  destruct currentMeetingId as [[ | c id] | ]; reflexivity.
Qed.

End ServiceProperties.

(** *** deduplicateResults *)

Lemma dedupe_step_inv m seen r :
  keysAreNumbers similarity (seen ++ [r]) ->
  dedupe_inv m seen -> dedupe_inv (RAGService.dedupe_step m r) (seen ++ [r]).
Proof.
  intros Hnum [Hkeys Hfrom Hbest].
  apply Forall_app in Hnum. destruct Hnum as [Hseen Hr].
  inversion Hr as [ | ? ? Nr _]; subst.
  assert (Hnan : forall k v, In (k, v) m -> is_nan (similarity v) = false).
  { intros k v Hin. destruct (Hfrom k v Hin) as [_ Hv].
    rewrite Forall_forall in Hseen. apply Hseen. exact Hv. }
  unfold RAGService.dedupe_step. fold (segmentOf r).
  destruct (Map_get m (segmentOf r)) as [existing | ] eqn:Eget.
  - apply Map_get_Some in Eget.
    destruct (similarity existing <? similarity r) eqn:Elt.
    + constructor.
      * rewrite Map_set_keys; [exact Hkeys | ].
        apply (in_map fst) in Eget. exact Eget.
      * intros k v Hin. apply Map_set_In in Hin.
        destruct Hin as [[-> ->] | Hin].
        -- split; [reflexivity | apply in_or_app; right; left; reflexivity].
        -- destruct (Hfrom k v Hin) as [Hk Hv].
           split; [exact Hk | apply in_or_app; left; exact Hv].
      * intros r0 Hr0. apply in_app_or in Hr0.
        destruct Hr0 as [Hr0 | [<- | []]].
        -- destruct (Hbest r0 Hr0) as (v0 & Hv0 & Hle).
           destruct (list_eq_dec Z.eq_dec (segmentOf r0) (segmentOf r)) as [Eid | Eid].
           ++ exists r. rewrite Eid in *. split; [apply Map_set_In_same | ].
              assert (v0 = existing) by (eapply Map_unique; eassumption). subst v0.
              apply leb_trans with (similarity existing); [exact Hle | ].
              apply ltb_leb. exact Elt.
           ++ exists v0. split; [apply Map_set_In_other; assumption | exact Hle].
        -- exists r. split; [apply Map_set_In_same | apply leb_refl; exact Nr].
    + constructor.
      * exact Hkeys.
      * intros k v Hin. destruct (Hfrom k v Hin) as [Hk Hv].
        split; [exact Hk | apply in_or_app; left; exact Hv].
      * intros r0 Hr0. apply in_app_or in Hr0.
        destruct Hr0 as [Hr0 | [<- | []]]; [apply Hbest; exact Hr0 | ].
        exists existing. split; [exact Eget | ].
        apply ltb_false_leb; [eapply Hnan; exact Eget | exact Nr | exact Elt].
  - apply Map_get_None in Eget. rewrite Map_set_absent by exact Eget.
    constructor.
    * rewrite map_app. simpl.
      apply (Permutation_NoDup (Permutation_cons_append (map fst m) (segmentOf r))).
      constructor; assumption.
    * intros k v Hin. apply in_app_or in Hin.
      destruct Hin as [Hin | [Hin | []]].
      -- destruct (Hfrom k v Hin) as [Hk Hv].
         split; [exact Hk | apply in_or_app; left; exact Hv].
      -- inversion Hin; subst.
         split; [reflexivity | apply in_or_app; right; left; reflexivity].
    * intros r0 Hr0. apply in_app_or in Hr0.
      destruct Hr0 as [Hr0 | [<- | []]].
      -- destruct (Hbest r0 Hr0) as (v0 & Hv0 & Hle).
         exists v0. split; [apply in_or_app; left; exact Hv0 | exact Hle].
      -- exists r. split; [apply in_or_app; right; left; reflexivity | ].
         apply leb_refl. exact Nr.
Qed.

Lemma dedupe_fold_inv : forall l m seen,
  keysAreNumbers similarity (seen ++ l) ->
  dedupe_inv m seen ->
  dedupe_inv (fold_left RAGService.dedupe_step l m) (seen ++ l).
Proof.
  induction l as [ | r l IH]; intros m seen Hnum Hinv; simpl.
  - rewrite app_nil_r. exact Hinv.
  - replace (seen ++ r :: l) with ((seen ++ [r]) ++ l) in *
      by (rewrite <- app_assoc; reflexivity).
    apply IH; [exact Hnum | ].
    apply dedupe_step_inv; [ | exact Hinv].
    apply Forall_app in Hnum. apply Hnum.
Qed.

Lemma dedupe_inv_keys m seen :
  dedupe_inv m seen -> map segmentOf (Map_values m) = map fst m.
Proof.
  intros [_ Hfrom _]. unfold Map_values. rewrite map_map.
  apply map_ext_in. intros [k v] Hin. simpl. apply (Hfrom k v Hin).
Qed.

Lemma dedupe_inv_empty : dedupe_inv [] [].
Proof.
  constructor; simpl; [constructor | intros k v [] | intros r []].
Qed.

(** [deduplicateResults] on results whose similarities are numbers: one
    result per segment id, each taken from the input and not exceeded by
    any input result of the same id, in non-increasing order. *)
Lemma deduplicateResults_spec (results : list SimilarityResult) :
  keysAreNumbers similarity results ->
  NoDup (map segmentOf (RAGService.deduplicateResults results))
  /\ (forall r, In r (RAGService.deduplicateResults results) -> In r results)
  /\ (forall r, In r results ->
        exists best, In best (RAGService.deduplicateResults results)
          /\ segmentOf best = segmentOf r
          /\ (similarity r <=? similarity best) = true)
  /\ StronglySorted (nonIncreasing similarity) (RAGService.deduplicateResults results).
Proof.
  intros Hnum. unfold RAGService.deduplicateResults.
  pose proof (dedupe_fold_inv results [] [] Hnum dedupe_inv_empty) as Hinv.
  simpl app in Hinv.
  set (m := fold_left RAGService.dedupe_step results []) in *.
  pose proof (sort_perm bySimilarityDesc (Map_values m)) as Hperm.
  assert (Hval : forall v, In v (Map_values m) -> exists k, In (k, v) m).
  { intros v Hv. unfold Map_values in Hv. apply in_map_iff in Hv.
    destruct Hv as ([k v'] & Ev & Hin). simpl in Ev. subst v'. exists k. exact Hin. }
  split; [ | split; [ | split]].
  - apply (Permutation_NoDup (Permutation_map segmentOf (Permutation_sym Hperm))).
    rewrite (dedupe_inv_keys m results Hinv). apply (inv_keys _ _ Hinv).
  - intros r Hr. apply (Permutation_in _ Hperm) in Hr.
    destruct (Hval r Hr) as [k Hk]. apply (inv_from _ _ Hinv k r Hk).
  - intros r Hr. destruct (inv_best _ _ Hinv r Hr) as (v & Hv & Hle).
    exists v. split; [ | split; [ | exact Hle]].
    + apply (Permutation_in _ (Permutation_sym Hperm)).
      unfold Map_values. apply in_map_iff. exists (segmentOf r, v).
      split; [reflexivity | exact Hv].
    + apply (inv_from _ _ Hinv _ _ Hv).
  - change bySimilarityDesc with (descending similarity).
    apply sort_sorted. apply Forall_forall. intros v Hv.
    destruct (Hval v Hv) as [k Hk].
    destruct (inv_from _ _ Hinv k v Hk) as [_ Hin].
    unfold keysAreNumbers in Hnum. rewrite Forall_forall in Hnum. apply Hnum. exact Hin.
Qed.

(** *** boostCurrentMeeting *)

Lemma boostOne_number id r :
  is_nan (similarity r) = false -> is_nan (similarity (boostOne id r)) = false.
Proof.
  intros H. unfold boostOne. simpl.
  destruct (String_eqb _ id); [ | exact H].
  eapply mul_finite_not_nan; [reflexivity | exact H].
Qed.

Lemma boostCurrentMeeting_spec (results : list SimilarityResult) (id : jsstring) :
  keysAreNumbers similarity results ->
  Permutation (RAGService.boostCurrentMeeting results id) (map (boostOne id) results)
  /\ keysAreNumbers similarity (RAGService.boostCurrentMeeting results id)
  /\ StronglySorted (nonIncreasing similarity)
       (RAGService.boostCurrentMeeting results id).
Proof.
  intros Hnum.
  change (RAGService.boostCurrentMeeting results id)
    with (sort (descending similarity) (map (boostOne id) results)).
  assert (Hb : keysAreNumbers similarity (map (boostOne id) results)).
  { unfold keysAreNumbers in *. rewrite Forall_map.
    apply Forall_impl with (2 := Hnum). intros r. apply boostOne_number. }
  split; [apply sort_perm | ]. split; [ | apply sort_sorted; exact Hb].
  exact (Permutation_Forall (Permutation_sym (sort_perm _ _)) Hb).
Qed.

Section RetrievalProperties.
Context {host : Host}.

(** *** retrieveContext *)

(** C4. [retrieveContext] returns (it never throws), and its result is made
    in this order from what [semanticSearch] returned: [kept], the results
    that are not below [similarityThreshold]; [ranked], which is [kept]
    with the similarity of every result of the current meeting multiplied
    by 1.2, re-sorted and not filtered again, when a (non-empty) current
    meeting id is given, and [kept] itself otherwise; and the output, which
    has one
    result per segment id, each a result of [ranked] that no result of
    [ranked] with the same id exceeds, in non-increasing similarity
    order. *)
Theorem retrieveContext_pipeline :
  forall (rag : RAGService.t) (vs : VectorService.t) (question : jsstring)
         (currentMeetingId : option jsstring),
    let threshold := RAGService.similarityThreshold (RAGService.config rag) in
    exists results kept ranked out,
      semanticSearch vs question (RAGService.retrievalLimit (RAGService.config rag))
      = Return results
      /\ RAGService.retrieveContext rag vs question currentMeetingId = Return out
      /\ kept = filter (fun r => threshold <=? similarity r) results
      /\ (forall r, In r results -> (similarity r <? threshold) = true -> ~ In r kept)
      /\ (forall r, In r results -> is_nan threshold = false ->
            (similarity r <? threshold) = false -> In r kept)
      /\ match currentMeetingId with
         | Some id =>
           if truthy id
           then Permutation ranked (map (boostOne id) kept)
                /\ StronglySorted (nonIncreasing similarity) ranked
           else ranked = kept
         | None => ranked = kept
         end
      /\ NoDup (map segmentOf out)
      /\ (forall r, In r out -> In r ranked)
      /\ (forall r, In r ranked ->
            exists best, In best out /\ segmentOf best = segmentOf r
                         /\ (similarity r <=? similarity best) = true)
      /\ StronglySorted (nonIncreasing similarity) out.
Proof.
  intros rag vs question currentMeetingId threshold.
  destruct (semanticSearch_returns vs question
              (RAGService.retrievalLimit (RAGService.config rag)))
    as (results & Hsearch & Hfilter).
  set (kept := filter (fun r => threshold <=? similarity r) results).
  set (ranked :=
         match currentMeetingId with
         | Some id => if truthy id then RAGService.boostCurrentMeeting kept id else kept
         | None => kept
         end).
  exists results, kept, ranked, (RAGService.deduplicateResults ranked).
  assert (Hres : keysAreNumbers similarity results).
  { unfold keysAreNumbers. apply Forall_impl with (2 := Hfilter).
    intros r Hr. apply ltb_not_nan in Hr. apply Hr. }
  assert (Hkept : keysAreNumbers similarity kept).
  { unfold keysAreNumbers in *. rewrite Forall_forall in *.
    intros r Hr. apply filter_In in Hr. apply Hres, Hr. }
  assert (Hranked : keysAreNumbers similarity ranked).
  { unfold ranked. destruct currentMeetingId as [id | ]; [ | exact Hkept].
    destruct (truthy id); [ | exact Hkept].
    apply (boostCurrentMeeting_spec kept id Hkept). }
  split; [exact Hsearch | ]. split.
  { unfold RAGService.retrieveContext. rewrite Hsearch. reflexivity. }
  split; [reflexivity | ]. split.
  { intros r _ Hlt Hin. apply filter_In in Hin. destruct Hin as [_ Hle].
    apply ltb_not_leb in Hlt. rewrite Hlt in Hle. discriminate. }
  split.
  { intros r Hin Hthr Hlt. apply filter_In. split; [exact Hin | ].
    apply ltb_false_leb; [ | exact Hthr | exact Hlt].
    unfold keysAreNumbers in Hres. rewrite Forall_forall in Hres. apply Hres, Hin. }
  split.
  { unfold ranked. destruct currentMeetingId as [id | ]; [ | reflexivity].
    destruct (truthy id); [ | reflexivity].
    destruct (boostCurrentMeeting_spec kept id Hkept) as (Hp & _ & Hs).
    split; assumption. }
  apply deduplicateResults_spec. exact Hranked.
Qed.

(** *** calculateConfidence *)

Lemma fold_left_add_map {A} (f : A -> number) (l : list A) : forall acc,
  fold_left (fun sum r => sum + f r) l acc = fold_left PrimFloat.add (map f l) acc.
Proof. induction l as [ | x l IH]; intros acc; simpl; [reflexivity | apply IH]. Qed.

Lemma Math_min_one_le x : is_nan (Math_min x 1) = false -> (Math_min x 1 <=? 1) = true.
Proof.
  unfold Math_min. destruct (is_nan x) eqn:Nx; simpl orb; cbv iota.
  - discriminate.
  - change (is_nan 1) with false. cbv iota.
    destruct (x <? 1) eqn:E1; [intros _; apply ltb_leb; assumption | ].
    destruct (1 <? x) eqn:E2; [intros _; reflexivity | ].
    destruct (is_negative_zero x); intros _; [ | reflexivity].
    apply ltb_false_leb; [reflexivity | assumption | assumption].
Qed.

(** C6. On non-empty evidence [calculateConfidence] is the average
    similarity, times [min(length / 3, 1)], times 0.8 when the answer
    contains a hedging phrase and 1 otherwise, clamped from above at 1 (a
    confidence that is a number is at most 1); it is not clamped from
    below: on one source of similarity -0.5 it is negative. *)
Theorem calculateConfidence_formula :
  (forall (results : list SimilarityResult) (answer : jsstring),
    results <> [] ->
    RAGService.calculateConfidence results answer = confidenceFormula results answer
    /\ (is_nan (RAGService.calculateConfidence results answer) = false ->
        (RAGService.calculateConfidence results answer <=? 1) = true))
  /\ (RAGService.calculateConfidence [scored (js "m_0") (js "m") (-0.5)] (js "ok") <? 0)
     = true.
Proof.
  split; [ | reflexivity].
  intros results answer Hne.
  assert (E : RAGService.calculateConfidence results answer
              = confidenceFormula results answer).
  { destruct results as [ | r rest]; [contradiction | ].
    unfold RAGService.calculateConfidence, confidenceFormula, clampAtMostOne, average.
    rewrite fold_left_add_map, length_map. reflexivity. }
  split; [exact E | ]. rewrite E. apply Math_min_one_le.
Qed.

(** *** query *)

(** C9. When retrieval yields no evidence, and in particular when the
    store is empty, [query] returns (it does not throw) the fixed
    "no relevant content" answer with no sources, an empty context and
    confidence 0. *)
Theorem query_without_evidence :
  forall (rag : RAGService.t) (vs : VectorService.t) (question : jsstring)
         (currentMeetingId : option jsstring),
    RAGService.retrieveContext rag vs question currentMeetingId = Return []
    \/ vectors vs = [] ->
    RAGService.query rag vs question currentMeetingId
    = Return {| RAGService.answer := RAGService.noEvidenceAnswer;
                RAGService.sources := [];
                RAGService.usedContext := [];
                RAGService.confidence := 0 |}.
Proof.
  intros rag vs question currentMeetingId [H | H].
  - unfold RAGService.query. rewrite H. reflexivity.
  - unfold RAGService.query, RAGService.retrieveContext.
    rewrite semanticSearch_empty_store by assumption.
    destruct currentMeetingId as [[ | c id] | ]; reflexivity.
Qed.

End RetrievalProperties.

(** *** getFallbackEmbedding: the norm of the result

    The embedder divides the accumulated vector by its computed norm.
    The result has norm 1 up to the rounding of the operations: each of
    the squares, the additions, the square root and the divisions rounds
    a normal result by at most one part in [2 ^ 52], and a vector of 384
    components goes through fewer than 400 of them. *)

(** **** The rounding error of the binary64 operations *)
Module FloatError.
Import Reals Lra Psatz.
Import FloatValue.
Local Open Scope Z_scope.

Lemma round_nearest_even_cases m l :
  round_nearest_even m l = m \/ round_nearest_even m l = m + 1.
Proof.
  destruct l as [ | [ | | ]]; simpl; auto.
  destruct (Z.even m); auto.
Qed.

(** Shifting a mantissa of at least 53 digits to the format exponent of a
    normal number drops the digits below the 53rd. *)
Lemma shr_fexp_floor (m : positive) (e : Z) (l : location) :
  53 <= Zpos (digits2_pos m) -> -1074 <= Zpos (digits2_pos m) + e - 53 ->
  shr_m (fst (shr_fexp prec emax (Zpos m) e l)) = Zpos m / 2 ^ (Zpos (digits2_pos m) - 53)
  /\ snd (shr_fexp prec emax (Zpos m) e l) = e + (Zpos (digits2_pos m) - 53).
Proof.
  intros Hd Hn. unfold shr_fexp, shr. rewrite fexp_eq. unfold fexp64.
  simpl Zdigits2.
  replace (Z.max (Zpos (digits2_pos m) + e - 53) (-1074) - e)
    with (Zpos (digits2_pos m) - 53) by lia.
  destruct (Zpos (digits2_pos m) - 53) as [ | n | n ] eqn:En;
    cbn [fst snd]; rewrite ?iter_pos_shr_1_m; rewrite ?shr_record_of_loc_m; try lia.
  change (2 ^ 0) with 1. rewrite Z.div_1_r. lia.
Qed.

(** Rounding a positive mantissa of at least 53 digits, in the range of
    the normal numbers: the result is a normal number, and the exact
    value lies within one unit in the last place of it. *)
Lemma binary_round_aux_normal (m : positive) (e : Z) (l : location) :
  53 <= Zpos (digits2_pos m) ->
  -1074 <= Zpos (digits2_pos m) + e - 53 ->
  Zpos (digits2_pos m) + e <= 1023 ->
  exists m' e',
    binary_round_aux prec emax false (Zpos m) e l = S754_finite false m' e'
    /\ 2 ^ 52 <= Zpos m' < 2 ^ 53
    /\ -1074 <= e' <= 971
    /\ e <= e'
    /\ (Zpos m' - 1) * 2 ^ (e' - e) <= Zpos m
    /\ Zpos m + 1 <= (Zpos m' + 1) * 2 ^ (e' - e).
Proof.
  intros Hd Hn Ho. unfold binary_round_aux.
  destruct (shr_fexp_floor m e l Hd Hn) as [Hq He1].
  destruct (shr_fexp prec emax (Zpos m) e l) as [mrs' e1]. cbn [fst snd] in *.
  destruct (digits2_pos_div m (Zpos (digits2_pos m) - 53)) as (q & Eq & Dq); [lia | ].
  rewrite Eq in Hq.
  pose proof (digits2_pos_bounds q) as Bq.
  replace (Zpos (digits2_pos q)) with 53 in Bq by lia.
  change (2 ^ (53 - 1)) with (2 ^ 52) in Bq.
  set (k := Zpos (digits2_pos m) - 53) in *.
  assert (Hk : 0 <= k) by lia.
  assert (Hp : 0 < 2 ^ k) by (apply Z.pow_pos_nonneg; lia).
  assert (Hfloor : Zpos q * 2 ^ k <= Zpos m < (Zpos q + 1) * 2 ^ k).
  { rewrite <- Eq. pose proof (Z.div_mod (Zpos m) (2 ^ k) ltac:(lia)) as Hdm.
    pose proof (Z.mod_pos_bound (Zpos m) (2 ^ k) Hp). nia. }
  assert (Finish : forall r e'', 2 ^ 52 <= Zpos r < 2 ^ 53 -> -1074 <= e'' <= 971 -> e <= e'' ->
            (Zpos r - 1) * 2 ^ (e'' - e) <= Zpos m ->
            Zpos m + 1 <= (Zpos r + 1) * 2 ^ (e'' - e) ->
            forall mrs'', shr_m mrs'' = Zpos r ->
            exists m' e',
              match shr_m mrs'' with
              | 0 => S754_zero false
              | Zpos m0 => if e'' <=? emax - prec then S754_finite false m0 e''
                           else S754_infinity false
              | Zneg _ => S754_nan
              end = S754_finite false m' e'
              /\ 2 ^ 52 <= Zpos m' < 2 ^ 53 /\ -1074 <= e' <= 971 /\ e <= e'
              /\ (Zpos m' - 1) * 2 ^ (e' - e) <= Zpos m
              /\ Zpos m + 1 <= (Zpos m' + 1) * 2 ^ (e' - e)).
  { intros r e'' Hr He Hee H1 H2 mrs'' ->. exists r, e''.
    replace (e'' <=? emax - prec) with true
      by (symmetry; apply Z.leb_le; unfold emax, prec; lia).
    repeat split; try assumption; lia. }
  destruct (round_nearest_even_cases (shr_m mrs') (loc_of_shr_record mrs')) as [Hr | Hr];
    rewrite Hr, Hq.
  - destruct (shr_fexp_floor q e1 loc_Exact) as [Hq2 He2]; [lia | lia | ].
    destruct (shr_fexp prec emax (Zpos q) e1 loc_Exact) as [mrs'' e'']. cbn [fst snd] in *.
    replace (Zpos (digits2_pos q) - 53) with 0 in * by lia.
    change (2 ^ 0) with 1 in Hq2. rewrite Z.div_1_r in Hq2.
    apply (Finish q e''); try lia; try assumption.
    + replace (e'' - e) with k by lia. nia.
    + replace (e'' - e) with k by lia. nia.
  - change (Zpos q + 1) with (Zpos (q + 1)).
    destruct (Z.lt_ge_cases (Zpos (q + 1)) (2 ^ 53)) as [Hlt | Hge].
    + assert (Dq1 : Zpos (digits2_pos (q + 1)) = 53).
      { apply digits2_pos_unique. change (2 ^ (53 - 1)) with (2 ^ 52). lia. }
      destruct (shr_fexp_floor (q + 1) e1 loc_Exact) as [Hq2 He2]; [lia | lia | ].
      destruct (shr_fexp prec emax (Zpos (q + 1)) e1 loc_Exact) as [mrs'' e''].
      cbn [fst snd] in *.
      replace (Zpos (digits2_pos (q + 1)) - 53) with 0 in * by lia.
      change (2 ^ 0) with 1 in Hq2. rewrite Z.div_1_r in Hq2.
      apply (Finish (q + 1)%positive e''); try lia; try assumption.
      * replace (e'' - e) with k by lia. nia.
      * replace (e'' - e) with k by lia. nia.
    + assert (E53 : Zpos (q + 1) = 2 ^ 53) by lia.
      assert (Dq1 : Zpos (digits2_pos (q + 1)) = 54).
      { apply digits2_pos_unique. rewrite E53. change (54 - 1) with 53.
        split; [lia | ]. apply Z.pow_lt_mono_r; lia. }
      destruct (shr_fexp_floor (q + 1) e1 loc_Exact) as [Hq2 He2]; [lia | lia | ].
      destruct (shr_fexp prec emax (Zpos (q + 1)) e1 loc_Exact) as [mrs'' e''].
      cbn [fst snd] in *.
      replace (Zpos (digits2_pos (q + 1)) - 53) with 1 in * by lia.
      rewrite E53 in Hq2. change (2 ^ 53 / 2 ^ 1) with (Zpos (2 ^ 52)) in Hq2.
      apply (Finish (2 ^ 52)%positive e''); try lia; try assumption.
      * replace (e'' - e) with (k + 1) by lia.
        rewrite Z.pow_add_r by lia. change (2 ^ 1) with 2.
        change (Zpos (2 ^ 52)) with (2 ^ 52).
        assert (Zpos q = 2 ^ 53 - 1) by lia.
        assert (2 ^ 53 = 2 * 2 ^ 52) by reflexivity. nia.
      * replace (e'' - e) with (k + 1) by lia.
        rewrite Z.pow_add_r by lia. change (2 ^ 1) with 2.
        change (Zpos (2 ^ 52)) with (2 ^ 52).
        assert (Zpos q = 2 ^ 53 - 1) by lia.
        assert (2 ^ 53 = 2 * 2 ^ 52) by reflexivity. nia.
Qed.

Local Open Scope R_scope.

Lemma pow2_pos e : 0 < pow2 e.
Proof. apply powerRZ_lt. lra. Qed.

Lemma pow2_add a b : pow2 (a + b) = pow2 a * pow2 b.
Proof. apply powerRZ_add. lra. Qed.

Lemma pow2_IZR k : (0 <= k)%Z -> pow2 k = IZR (2 ^ k).
Proof.
  intros H. unfold pow2. rewrite <- (Z2Nat.id k H).
  rewrite <- pow_powerRZ. rewrite pow_IZR. reflexivity.
Qed.

Lemma pow2_le a b : (a <= b)%Z -> pow2 a <= pow2 b.
Proof.
  intros H. replace b with (a + (b - a))%Z by lia.
  rewrite pow2_add, (pow2_IZR (b - a)) by lia.
  assert (1 <= IZR (2 ^ (b - a))).
  { apply IZR_le. pose proof (Z.pow_pos_nonneg 2 (b - a)). lia. }
  pose proof (pow2_pos a). nra.
Qed.

Lemma pow2_lt_inv a b : pow2 a < pow2 b -> (a < b)%Z.
Proof.
  intros H. destruct (Z.lt_ge_cases a b) as [Hlt | Hge]; [exact Hlt | ].
  pose proof (pow2_le b a Hge). lra.
Qed.

Lemma pow2_opp k : pow2 (- k) = / pow2 k.
Proof. apply powerRZ_neg'. Qed.

Lemma epsilon_pow2 : epsilon = pow2 (-52).
Proof.
  change (-52)%Z with (- (52))%Z. rewrite pow2_opp, pow2_IZR by lia. reflexivity.
Qed.

(** The value of a rounded mantissa. *)
Lemma binary_round_aux_value (m : positive) (e : Z) (l : location) (v : R) :
  (53 <= Zpos (digits2_pos m))%Z ->
  (-1074 <= Zpos (digits2_pos m) + e - 53)%Z ->
  (Zpos (digits2_pos m) + e <= 1023)%Z ->
  IZR (Zpos m) * pow2 e <= v <= IZR (Zpos m + 1) * pow2 e ->
  SFnormal (binary_round_aux prec emax false (Zpos m) e l)
  /\ near 1 (SF2R (binary_round_aux prec emax false (Zpos m) e l)) v.
Proof.
  intros Hd Hn Ho Hv.
  destruct (binary_round_aux_normal m e l Hd Hn Ho) as (m' & e' & -> & Hm & He & Hb & Hlo & Hhi).
  split; [exists m', e'; repeat split; lia | ].
  unfold near, SF2R. cbn [cond_Zopp]. rewrite !pow_1.
  assert (Hp : pow2 e' = pow2 (e' - e) * pow2 e)
    by (rewrite <- pow2_add; f_equal; lia).
  rewrite (pow2_IZR (e' - e)) in Hp by lia.
  pose proof (pow2_pos e) as Pe.
  apply IZR_le in Hlo, Hhi. rewrite mult_IZR in Hlo, Hhi.
  rewrite minus_IZR in Hlo. rewrite !plus_IZR in Hhi. rewrite plus_IZR in Hv.
  assert (Hm' : 4503599627370496 <= IZR (Zpos m')) by (apply IZR_le; lia).
  set (M' := IZR (Zpos m')) in *. set (M := IZR (Zpos m)) in *.
  set (P := IZR (2 ^ (e' - e))) in *.
  assert (PP : 0 < P) by (unfold P; apply IZR_lt, Z.pow_pos_nonneg; lia).
  rewrite Hp. unfold epsilon.
  assert (PQ : 0 < P * pow2 e) by (apply Rmult_lt_0_compat; assumption).
  replace (M' * (P * pow2 e) * (1 - / 4503599627370496))
    with (M' * (1 - / 4503599627370496) * (P * pow2 e)) by ring.
  replace (M' * (P * pow2 e) * (1 + / 4503599627370496))
    with (M' * (1 + / 4503599627370496) * (P * pow2 e)) by ring.
  replace (M * pow2 e) with (M * / P * (P * pow2 e)) in Hv by (field; lra).
  replace ((M + 1) * pow2 e) with ((M + 1) * / P * (P * pow2 e)) in Hv by (field; lra).
  set (Q := P * pow2 e) in *.
  assert (H1 : M' * (1 - / 4503599627370496) <= M' - 1) by lra.
  assert (H2 : M' + 1 <= M' * (1 + / 4503599627370496)) by lra.
  assert (H3 : M' - 1 <= M * / P).
  { apply Rmult_le_reg_r with P; [exact PP | ]. rewrite Rmult_assoc, Rinv_l by lra. lra. }
  assert (H4 : (M + 1) * / P <= M' + 1).
  { apply Rmult_le_reg_r with P; [exact PP | ]. rewrite Rmult_assoc, Rinv_l by lra. lra. }
  split.
  - apply Rle_trans with (M * / P * Q); [ | lra].
    apply Rmult_le_compat_r; lra.
  - apply Rle_trans with ((M + 1) * / P * Q); [lra | ].
    apply Rmult_le_compat_r; lra.
Qed.

Lemma pow2_lt a b : (a < b)%Z -> pow2 a < pow2 b.
Proof.
  intros H. replace b with (a + (b - a))%Z by lia.
  rewrite pow2_add, (pow2_IZR (b - a)) by lia.
  assert (2 <= IZR (2 ^ (b - a))).
  { apply IZR_le. replace (b - a)%Z with (1 + (b - a - 1))%Z by lia.
    rewrite Z.pow_add_r by lia. pose proof (Z.pow_pos_nonneg 2 (b - a - 1)). lia. }
  pose proof (pow2_pos a). nra.
Qed.

Lemma pow2_le_inv a b : pow2 a <= pow2 b -> (a <= b)%Z.
Proof.
  intros H. destruct (Z.le_gt_cases a b) as [Hle | Hgt]; [exact Hle | ].
  pose proof (pow2_lt b a Hgt). lra.
Qed.

(** A normal number of exponent [e] lies in [[2^(e+52), 2^(e+53))]. *)
Lemma normal_value (m : positive) (e : Z) :
  (2 ^ 52 <= Zpos m < 2 ^ 53)%Z ->
  pow2 (e + 52) <= IZR (Zpos m) * pow2 e < pow2 (e + 53).
Proof.
  intros [Hlo Hhi]. apply IZR_le in Hlo. apply IZR_lt in Hhi.
  rewrite !(Z.add_comm e), !pow2_add, (pow2_IZR 52), (pow2_IZR 53) by lia.
  change (2 ^ 52)%Z with 4503599627370496%Z in *.
  change (2 ^ 53)%Z with 9007199254740992%Z in *.
  pose proof (pow2_pos e). split; nra.
Qed.

Lemma digits_normal (m : positive) :
  (2 ^ 52 <= Zpos m < 2 ^ 53)%Z -> Zpos (digits2_pos m) = 53%Z.
Proof. intros H. apply digits2_pos_unique. exact H. Qed.

Lemma digits_le (m : positive) (k : Z) :
  (Zpos m < 2 ^ k)%Z -> (Zpos (digits2_pos m) <= k)%Z.
Proof.
  intros H. pose proof (digits2_pos_bounds m) as [Dlo _].
  destruct (Z.le_gt_cases (Zpos (digits2_pos m)) k) as [Hle | Hgt]; [exact Hle | ].
  assert (2 ^ k <= 2 ^ (Zpos (digits2_pos m) - 1))%Z by (apply Z.pow_le_mono_r; lia).
  lia.
Qed.

Lemma digits_value_le (m : positive) (e b : Z) :
  IZR (Zpos m) * pow2 e <= pow2 b -> (Zpos (digits2_pos m) + e <= b + 1)%Z.
Proof.
  intros H. pose proof (digits2_pos_bounds m) as [Dlo _].
  assert (Hd : (1 <= Zpos (digits2_pos m))%Z) by lia.
  apply IZR_le in Dlo. rewrite <- pow2_IZR in Dlo by lia.
  assert (pow2 (Zpos (digits2_pos m) - 1 + e) <= pow2 b).
  { rewrite pow2_add. pose proof (pow2_pos e). nra. }
  apply pow2_le_inv in H0. lia.
Qed.

(** ***** Multiplication *)
Lemma SFmul_value x y :
  SFnormal x -> SFnormal y ->
  pow2 (-1000) <= SF2R x * SF2R y <= pow2 1000 ->
  SFnormal (SFmul prec emax x y)
  /\ near 1 (SF2R (SFmul prec emax x y)) (SF2R x * SF2R y).
Proof.
  intros (mx & ex & -> & Hmx & Hex) (my & ey & -> & Hmy & Hey) Hv.
  unfold SFmul. cbn [xorb]. unfold SF2R in Hv. cbn [cond_Zopp] in Hv.
  pose proof (normal_value mx ex Hmx) as Vx. pose proof (normal_value my ey Hmy) as Vy.
  pose proof (pow2_pos (ex + 52)). pose proof (pow2_pos (ey + 52)).
  pose proof (digits2_pos_mul mx my) as Dlo.
  rewrite (digits_normal mx Hmx), (digits_normal my Hmy) in Dlo.
  assert (Dhi : (Zpos (digits2_pos (mx * my)) <= 106)%Z).
  { apply digits_le. rewrite Pos2Z.inj_mul. change (2 ^ 106)%Z with (2 ^ 53 * 2 ^ 53)%Z.
    nia. }
  assert (E1 : (-1000 < ex + 53 + (ey + 53))%Z).
  { apply pow2_lt_inv. rewrite pow2_add. nra. }
  assert (E2 : (ex + 52 + (ey + 52) <= 1000)%Z).
  { apply pow2_le_inv. rewrite pow2_add. nra. }
  assert (Eq : IZR (Zpos (mx * my)) * pow2 (ex + ey)
               = IZR (Zpos mx) * pow2 ex * (IZR (Zpos my) * pow2 ey)).
  { rewrite Pos2Z.inj_mul, mult_IZR, pow2_add. ring. }
  unfold SF2R. cbn [cond_Zopp]. rewrite <- Eq.
  apply binary_round_aux_value; try lia.
  rewrite plus_IZR. pose proof (pow2_pos (ex + ey)). split; nra.
Qed.

(** ***** Addition *)
Lemma SFadd_value x y :
  SFnormal x -> SFnormal y -> SF2R x + SF2R y <= pow2 1000 ->
  SFnormal (SFadd prec emax x y)
  /\ near 1 (SF2R (SFadd prec emax x y)) (SF2R x + SF2R y).
Proof.
  intros (mx & ex & -> & Hmx & Hex) (my & ey & -> & Hmy & Hey) Hv.
  unfold SFadd. cbn [cond_Zopp]. unfold SF2R in *. cbn [cond_Zopp] in *.
  pose proof (shl_align_spec mx ex (Z.min ex ey)) as [Hpx Hsx].
  pose proof (shl_align_spec my ey (Z.min ex ey)) as [Hpy Hsy].
  set (px := fst (shl_align mx ex (Z.min ex ey))) in *.
  set (py := fst (shl_align my ey (Z.min ex ey))) in *.
  set (ez := Z.min ex ey) in *.
  rewrite Hsx in Hpx. rewrite Hsy in Hpy.
  rewrite Z.min_r in Hpx by lia. rewrite Z.min_r in Hpy by lia.
  change (Zpos px + Zpos py)%Z with (Zpos (px + py)). cbn [binary_normalize].
  assert (Dx : Zpos (digits2_pos px) = (53 + (ex - ez))%Z).
  { rewrite <- (digits_normal mx Hmx). apply digits2_pos_shift; [lia | exact Hpx]. }
  assert (Dm : (Zpos (digits2_pos px) <= Zpos (digits2_pos (px + py)))%Z)
    by (apply digits2_pos_mono; lia).
  assert (Eq : IZR (Zpos (px + py)) * pow2 ez
               = IZR (Zpos mx) * pow2 ex + IZR (Zpos my) * pow2 ey).
  { rewrite Pos2Z.inj_add, plus_IZR, Hpx, Hpy, !mult_IZR.
    rewrite <- !pow2_IZR by lia.
    rewrite Rmult_plus_distr_r, !Rmult_assoc, <- !pow2_add.
    replace (ex - ez + ez)%Z with ex by lia. replace (ey - ez + ez)%Z with ey by lia.
    reflexivity. }
  rewrite <- Eq in Hv |- *.
  pose proof (digits_value_le (px + py) ez 1000 Hv) as Dhi.
  unfold binary_round.
  pose proof (shl_align_spec (px + py) ez
                (SpecFloat.fexp prec emax (Zpos (digits2_pos (px + py)) + ez))) as [Hm Hs].
  destruct (shl_align (px + py) ez _) as [mz ez'] eqn:Es. cbn [fst snd] in *.
  rewrite fexp_eq in Hs. unfold fexp64 in Hs.
  replace (ez - ez')%Z with 0%Z in Hm by lia.
  change (2 ^ 0)%Z with 1%Z in Hm. rewrite Z.mul_1_r in Hm.
  injection Hm as ->. replace ez' with ez by lia.
  apply binary_round_aux_value; try lia.
  rewrite plus_IZR. pose proof (pow2_pos ez). split; nra.
Qed.

Lemma digits_ge (m : positive) (k : Z) :
  (2 ^ (k - 1) <= Zpos m)%Z -> (k <= Zpos (digits2_pos m))%Z.
Proof.
  intros H. pose proof (digits2_pos_bounds m) as [_ Dhi].
  destruct (Z.le_gt_cases k (Zpos (digits2_pos m))) as [Hle | Hgt]; [exact Hle | ].
  assert (2 ^ Zpos (digits2_pos m) <= 2 ^ (k - 1))%Z by (apply Z.pow_le_mono_r; lia).
  lia.
Qed.

(** ***** Division *)
Lemma SFdiv_value x y :
  SFnormal x -> SFnormal y ->
  pow2 (-1000) <= SF2R x / SF2R y <= pow2 1000 ->
  SFnormal (SFdiv prec emax x y)
  /\ near 1 (SF2R (SFdiv prec emax x y)) (SF2R x / SF2R y).
Proof.
  intros (mx & ex & -> & Hmx & Hex) (my & ey & -> & Hmy & Hey) Hv.
  unfold SF2R in *. cbn [cond_Zopp] in *.
  pose proof (normal_value mx ex Hmx) as Vx. pose proof (normal_value my ey Hmy) as Vy.
  pose proof (pow2_pos (ex + 52)) as Px. pose proof (pow2_pos (ey + 52)) as Py.
  set (vx := IZR (Zpos mx) * pow2 ex) in *. set (vy := IZR (Zpos my) * pow2 ey) in *.
  assert (Hq : vx / vy * vy = vx) by (field; lra).
  set (q := vx / vy) in *.
  assert (E1 : (-1000 < ex - ey + 1)%Z).
  { apply pow2_lt_inv. apply Rle_lt_trans with q; [lra | ].
    apply Rmult_lt_reg_r with (pow2 (ey + 52)); [exact Py | ].
    rewrite <- pow2_add. replace (ex - ey + 1 + (ey + 52))%Z with (ex + 53)%Z by lia.
    apply Rle_lt_trans with vx; [ | lra]. rewrite <- Hq.
    apply Rmult_le_compat_l; [ | lra].
    pose proof (pow2_pos (-1000)). lra. }
  assert (E2 : (ex - ey - 1 < 1000)%Z).
  { apply pow2_lt_inv. apply Rlt_le_trans with q; [ | lra].
    apply Rmult_lt_reg_r with (pow2 (ey + 53)); [apply pow2_pos | ].
    rewrite <- pow2_add. replace (ex - ey - 1 + (ey + 53))%Z with (ex + 52)%Z by lia.
    apply Rle_lt_trans with vx; [lra | ]. rewrite <- Hq.
    apply Rmult_lt_compat_l; [ | lra].
    pose proof (pow2_pos (-1000)). lra. }
  unfold SFdiv, SFdiv_core_binary. rewrite fexp_eq. unfold fexp64. simpl Zdigits2.
  rewrite (digits_normal mx Hmx), (digits_normal my Hmy).
  replace (Z.min (Z.max (53 + ex - (53 + ey) - 53) (-1074)) (ex - ey))
    with (ex - ey - 53)%Z by lia.
  replace (ex - ey - (ex - ey - 53))%Z with 53%Z by lia.
  rewrite Z.shiftl_mul_pow2 by lia.
  pose proof (Z_div_mod (Zpos mx * 2 ^ 53) (Zpos my) ltac:(lia)) as Hdm.
  destruct (Z.div_eucl (Zpos mx * 2 ^ 53) (Zpos my)) as [qz r]. destruct Hdm as [Hdm Hr].
  cbn [xorb].
  assert (Hqz : (2 ^ 52 <= qz < 2 ^ 54)%Z).
  { change (2 ^ 54)%Z with (2 * 2 ^ 53)%Z. change (2 ^ 53)%Z with (2 * 2 ^ 52)%Z in *.
    split; nia. }
  destruct qz as [ | qp | qp]; try lia.
  assert (D1 : (53 <= Zpos (digits2_pos qp))%Z) by (apply digits_ge; lia).
  assert (D2 : (Zpos (digits2_pos qp) <= 54)%Z) by (apply digits_le; lia).
  apply binary_round_aux_value; try lia.
  assert (Pe : pow2 (ex - ey - 53) = pow2 ex * / pow2 ey * / IZR (2 ^ 53)).
  { replace (ex - ey - 53)%Z with (ex + (- ey + - (53)))%Z by lia.
    rewrite !pow2_add, !pow2_opp, (pow2_IZR 53) by lia. ring. }
  pose proof (pow2_pos ex) as Pex. pose proof (pow2_pos ey) as Pey.
  assert (PK : 0 < IZR (2 ^ 53)) by (apply IZR_lt; reflexivity).
  assert (PM : 0 < IZR (Zpos my)) by (apply IZR_lt; lia).
  assert (Hscale : forall t, t * pow2 (ex - ey - 53) * vy
                             = t * IZR (Zpos my) * / IZR (2 ^ 53) * pow2 ex).
  { intros t. rewrite Pe. unfold vy. field. lra. }
  assert (Hvx : vx = IZR (Zpos mx) * IZR (2 ^ 53) * / IZR (2 ^ 53) * pow2 ex).
  { unfold vx. field. lra. }
  assert (Hk : 0 < / IZR (2 ^ 53) * pow2 ex).
  { apply Rmult_lt_0_compat; [apply Rinv_0_lt_compat; exact PK | exact Pex]. }
  assert (Vy0 : 0 < vy) by lra.
  split.
  - apply Rmult_le_reg_r with vy; [exact Vy0 | ].
    rewrite Hq, Hscale, Hvx. rewrite !Rmult_assoc.
    rewrite <- !(Rmult_assoc _ _ (/ IZR (2 ^ 53) * pow2 ex)).
    apply Rmult_le_compat_r; [lra | ].
    rewrite <- !mult_IZR. apply IZR_le. lia.
  - apply Rmult_le_reg_r with vy; [exact Vy0 | ].
    rewrite Hq, Hscale, Hvx. rewrite !Rmult_assoc.
    rewrite <- !(Rmult_assoc _ _ (/ IZR (2 ^ 53) * pow2 ex)).
    apply Rmult_le_compat_r; [lra | ].
    rewrite <- !mult_IZR. apply IZR_le. lia.
Qed.

(** ***** Square root *)
Lemma SFsqrt_value x :
  SFnormal x ->
  SFnormal (SFsqrt prec emax x)
  /\ near 1 (SF2R (SFsqrt prec emax x)) (sqrt (SF2R x)).
Proof.
  intros (m & e & -> & Hm & He).
  unfold SF2R at 2. cbn [cond_Zopp].
  unfold SFsqrt, SFsqrt_core_binary. rewrite fexp_eq. unfold fexp64. simpl Zdigits2.
  rewrite (digits_normal m Hm).
  assert (Hdiv : (Z.div2 (53 + e + 1) = Z.div2 e + 27)%Z
                 /\ (e = 2 * Z.div2 e \/ e = 2 * Z.div2 e + 1)%Z).
  { rewrite !Z.div2_div.
    pose proof (Z.div_mod e 2 ltac:(lia)).
    pose proof (Z.mod_pos_bound e 2 ltac:(lia)).
    pose proof (Z.div_mod (53 + e + 1) 2 ltac:(lia)).
    pose proof (Z.mod_pos_bound (53 + e + 1) 2 ltac:(lia)). lia. }
  destruct Hdiv as [Hd1 Hd2]. rewrite Hd1.
  replace (Z.min (Z.max (Z.div2 e + 27 - 53) (-1074)) (Z.div2 e))
    with (Z.div2 e - 26)%Z by lia.
  set (e' := (Z.div2 e - 26)%Z) in *.
  assert (Hs : (e - 2 * e' = 52 \/ e - 2 * e' = 53)%Z) by (unfold e'; lia).
  set (m' := (Zpos m * 2 ^ (e - 2 * e'))%Z).
  assert (Em : match (e - 2 * e')%Z with
               | 0%Z => Zpos m
               | Zpos _ => Z.shiftl (Zpos m) (e - 2 * e')
               | Zneg _ => 0%Z
               end = m').
  { unfold m'. destruct Hs as [-> | ->]; rewrite Z.shiftl_mul_pow2 by lia; reflexivity. }
  rewrite Em.
  assert (Bm : (2 ^ 104 <= m' < 2 ^ 106)%Z).
  { unfold m'. change (2 ^ 104)%Z with (2 ^ 52 * 2 ^ 52)%Z.
    change (2 ^ 106)%Z with (2 ^ 53 * 2 ^ 53)%Z.
    destruct Hs as [-> | ->]; [ | change (2 ^ 53)%Z with (2 * 2 ^ 52)%Z in *]; nia. }
  pose proof (Z.sqrtrem_spec m' ltac:(lia)) as Hq.
  destruct (Z.sqrtrem m') as [q r]. destruct Hq as [Hq Hr].
  assert (Bq : (2 ^ 52 <= q < 2 ^ 53)%Z).
  { change (2 ^ 104)%Z with (2 ^ 52 * 2 ^ 52)%Z in Bm.
    change (2 ^ 106)%Z with (2 ^ 53 * 2 ^ 53)%Z in Bm. split; nia. }
  destruct q as [ | qp | qp]; try lia.
  pose proof (digits_normal qp Bq) as Dq.
  pose proof (pow2_pos e') as Pe.
  assert (Ev : IZR (Zpos m) * pow2 e = IZR m' * (pow2 e' * pow2 e')).
  { unfold m'. rewrite mult_IZR, <- pow2_IZR by lia.
    rewrite Rmult_assoc, <- !pow2_add. do 2 f_equal. lia. }
  apply binary_round_aux_value; try lia.
  rewrite Ev. destruct Hr as [Hr0 Hr1].
  apply IZR_le in Hr0, Hr1. rewrite mult_IZR in Hr1.
  assert (Hq' : IZR m' = IZR (Zpos qp) * IZR (Zpos qp) + IZR r)
    by (rewrite Hq, plus_IZR, mult_IZR; reflexivity).
  assert (Q0 : 0 < IZR (Zpos qp)) by (apply IZR_lt; lia).
  rewrite plus_IZR. set (Q := IZR (Zpos qp)) in *.
  split.
  - rewrite <- (sqrt_square (Q * pow2 e')) by nra.
    apply sqrt_le_1_alt. rewrite Hq'. nra.
  - rewrite <- (sqrt_square ((Q + 1) * pow2 e')) by nra.
    apply sqrt_le_1_alt. rewrite Hq'. nra.
Qed.

Lemma rangeHigh_eq : rangeHigh = 1606938044258990275541962092341162602522202993782792835301376.
Proof. unfold rangeHigh. rewrite pow2_IZR by lia. reflexivity. Qed.

Lemma rangeLow_eq : rangeLow = / 1606938044258990275541962092341162602522202993782792835301376.
Proof.
  unfold rangeLow. change (-200)%Z with (- (200))%Z. rewrite pow2_opp, pow2_IZR by lia.
  reflexivity.
Qed.

Lemma range_within_format v : rangeLow <= v <= rangeHigh -> pow2 (-1000) <= v <= pow2 1000.
Proof.
  intros [H1 H2]. pose proof (pow2_le (-1000) (-200) ltac:(lia)).
  pose proof (pow2_le 200 1000 ltac:(lia)). unfold rangeLow, rangeHigh in *. lra.
Qed.

(** ***** Powers of [1 + a] and [1 - a] *)

Lemma pow_grow_le (a : R) (n : nat) :
  0 <= a -> 2 * INR n * a <= 1 -> (1 + a) ^ n <= 1 + 2 * INR n * a.
Proof.
  intros Ha. induction n as [ | n IH]; intros H.
  - simpl. lra.
  - rewrite S_INR in H |- *. pose proof (pos_INR n) as Hn.
    assert (H' : 2 * INR n * a <= 1) by nra.
    specialize (IH H'). simpl pow.
    assert (0 <= (1 + a) ^ n) by (apply pow_le; lra).
    nra.
Qed.

Lemma pow_shrink_ge (a : R) (n : nat) :
  0 <= a <= 1 -> 1 - INR n * a <= (1 - a) ^ n.
Proof.
  intros Ha. induction n as [ | n IH].
  - simpl. lra.
  - rewrite S_INR. pose proof (pos_INR n) as Hn. simpl pow.
    assert (0 <= (1 - a) ^ n) by (apply pow_le; lra).
    assert ((1 - a) ^ n <= 1).
    { apply Rle_trans with (1 ^ n); [apply pow_incr; lra | rewrite pow1; lra]. }
    nra.
Qed.

Lemma epsilon_bounds : 0 < epsilon /\ epsilon <= / 4503599627370496.
Proof. unfold epsilon. lra. Qed.

(** ***** The calculus of [near] *)

Lemma near_refl x : near 0 x x.
Proof. unfold near. simpl. lra. Qed.

Lemma near_weaken k k' x v : (k <= k')%nat -> 0 <= x -> near k x v -> near k' x v.
Proof.
  intros Hk Hx [H1 H2]. unfold near.
  replace k' with (k + (k' - k))%nat by lia. rewrite !pow_add.
  pose proof epsilon_bounds as [U0 U1].
  assert (A1 : 0 <= (1 - epsilon) ^ k) by (apply pow_le; lra).
  assert (A2 : 0 <= (1 - epsilon) ^ (k' - k) <= 1).
  { split; [apply pow_le; lra | ].
    apply Rle_trans with (1 ^ (k' - k)); [apply pow_incr; lra | rewrite pow1; lra]. }
  assert (B1 : 0 <= (1 + epsilon) ^ k) by (apply pow_le; lra).
  assert (B2 : 1 <= (1 + epsilon) ^ (k' - k)).
  { apply Rle_trans with (1 ^ (k' - k)); [rewrite pow1; lra | apply pow_incr; lra]. }
  assert (XA : 0 <= x * (1 - epsilon) ^ k) by (apply Rmult_le_pos; assumption).
  assert (XB : 0 <= x * (1 + epsilon) ^ k) by (apply Rmult_le_pos; assumption).
  rewrite <- !Rmult_assoc.
  split.
  - apply Rle_trans with (x * (1 - epsilon) ^ k); [ | exact H1]. nra.
  - apply Rle_trans with (x * (1 + epsilon) ^ k); [exact H2 | ]. nra.
Qed.

Lemma near_add k x y v w :
  near k x v -> near k y w -> near k (x + y) (v + w).
Proof. unfold near. intros [H1 H2] [H3 H4]. split; lra. Qed.

Lemma near_step k x y v : near 1 x y -> near k y v -> near (S k) x v.
Proof.
  unfold near. rewrite !pow_1. intros [H1 H2] [H3 H4].
  pose proof epsilon_bounds as [U0 U1].
  assert (A1 : 0 <= (1 - epsilon) ^ k) by (apply pow_le; lra).
  assert (B1 : 0 <= (1 + epsilon) ^ k) by (apply pow_le; lra).
  simpl pow. split.
  - apply Rle_trans with (y * (1 - epsilon) ^ k); [ | exact H3]. nra.
  - apply Rle_trans with (y * (1 + epsilon) ^ k); [exact H4 | ]. nra.
Qed.

(** One rounding changes a positive value by less than one part in [2^51]. *)
Lemma near_1_bounds x v :
  near 1 x v -> 0 <= x -> v * (1 - epsilon) <= x <= v * (1 + 2 * epsilon).
Proof.
  unfold near. rewrite !pow_1. intros [H1 H2] Hx.
  pose proof epsilon_bounds as [U0 U1]. split; nra.
Qed.

(** Up to a thousand roundings change a positive value by less than half. *)
Lemma near_bounds k x v :
  (k <= 1000)%nat -> near k x v -> 0 <= x -> v <= 2 * x /\ x <= 2 * v.
Proof.
  intros Hk Hn Hx. apply (near_weaken k 1000 x v Hk Hx) in Hn.
  destruct Hn as [H1 H2]. pose proof epsilon_bounds as [U0 U1].
  assert (I : INR 1000 = 1000) by (rewrite INR_IZR_INZ; reflexivity).
  pose proof (pow_grow_le epsilon 1000 ltac:(lra)) as G.
  pose proof (pow_shrink_ge epsilon 1000 ltac:(lra)) as S.
  rewrite I in G, S.
  set (g := (1 + epsilon) ^ 1000) in *. set (s := (1 - epsilon) ^ 1000) in *.
  clearbody g s.
  assert (G' : g <= 2) by (specialize (G ltac:(lra)); lra).
  assert (S' : / 2 <= s) by lra.
  split; nra.
Qed.

(** ***** The operations on primitive floats *)

Lemma normal_positive x : normal x -> pow2 (-1022) <= value x.
Proof.
  intros (m & e & E & Hm & He). unfold value. rewrite E. unfold SF2R. cbn [cond_Zopp].
  pose proof (normal_value m e Hm) as [V _].
  pose proof (pow2_le (-1022) (e + 52) ltac:(lia)). lra.
Qed.

Lemma normal_value_pos x : normal x -> 0 < value x.
Proof. intros H. pose proof (normal_positive x H). pose proof (pow2_pos (-1022)). lra. Qed.

Lemma isZero_value x : isZero x -> value x = 0.
Proof. unfold isZero, value. intros ->. reflexivity. Qed.

Lemma mul_value (x y : float) :
  normal x -> normal y -> rangeLow <= value x * value y <= rangeHigh ->
  normal (x * y)%float /\ near 1 (value (x * y)%float) (value x * value y).
Proof.
  unfold normal, value. intros Hx Hy Hv. rewrite FloatAxioms.mul_spec.
  apply SFmul_value; [exact Hx | exact Hy | apply range_within_format, Hv].
Qed.

Lemma add_value (x y : float) :
  normal x -> normal y -> value x + value y <= rangeHigh ->
  normal (x + y)%float /\ near 1 (value (x + y)%float) (value x + value y).
Proof.
  unfold normal, value. intros Hx Hy Hv. rewrite FloatAxioms.add_spec.
  apply SFadd_value; [exact Hx | exact Hy | ].
  pose proof (pow2_le 200 1000 ltac:(lia)). unfold rangeHigh in *. lra.
Qed.

Lemma div_value (x y : float) :
  normal x -> normal y -> rangeLow <= value x / value y <= rangeHigh ->
  normal (x / y)%float /\ near 1 (value (x / y)%float) (value x / value y).
Proof.
  unfold normal, value. intros Hx Hy Hv. rewrite FloatAxioms.div_spec.
  apply SFdiv_value; [exact Hx | exact Hy | apply range_within_format, Hv].
Qed.

Lemma sqrt_value (x : float) :
  normal x ->
  normal (PrimFloat.sqrt x) /\ near 1 (value (PrimFloat.sqrt x)) (sqrt (value x)).
Proof.
  unfold normal, value. intros Hx. rewrite FloatAxioms.sqrt_spec.
  apply SFsqrt_value. exact Hx.
Qed.

Lemma add_zero_l (x y : float) : isZero x -> normal y -> (x + y)%float = y.
Proof.
  unfold isZero, normal. intros Hx (m & e & Hy & _).
  apply FloatAxioms.Prim2SF_inj.
  rewrite FloatAxioms.add_spec, Hx, Hy. reflexivity.
Qed.

Lemma add_zero_r (x y : float) : normal x -> isZero y -> (x + y)%float = x.
Proof.
  unfold isZero, normal. intros (m & e & Hx & _) Hy.
  apply FloatAxioms.Prim2SF_inj.
  rewrite FloatAxioms.add_spec, Hx, Hy. reflexivity.
Qed.

Lemma add_zero_zero (x y : float) : isZero x -> isZero y -> isZero (x + y)%float.
Proof.
  unfold isZero. intros Hx Hy. rewrite FloatAxioms.add_spec, Hx, Hy. reflexivity.
Qed.

Lemma mul_zero_zero (x y : float) : isZero x -> isZero y -> isZero (x * y)%float.
Proof.
  unfold isZero. intros Hx Hy. rewrite FloatAxioms.mul_spec, Hx, Hy. reflexivity.
Qed.

Lemma div_zero_normal (x y : float) : isZero x -> normal y -> isZero (x / y)%float.
Proof.
  unfold isZero, normal. intros Hx (m & e & Hy & _).
  rewrite FloatAxioms.div_spec, Hx, Hy. reflexivity.
Qed.

End FloatError.

(** **** Normalising a vector *)
Module Normalisation.
Import Reals Lra Psatz.
Import FloatValue FloatError.
Local Open Scope R_scope.

Ltac numbers := rewrite ?rangeHigh_eq, ?rangeLow_eq in *; unfold componentBound in *.

Lemma sumOfSquares_nonneg v : 0 <= sumOfSquares v.
Proof.
  induction v as [ | x v IH]; simpl; [lra | ].
  pose proof (Rle_0_sqr (value x)) as H. unfold Rsqr in H. lra.
Qed.

Lemma component_value x : component x -> 0 <= value x <= componentBound.
Proof.
  intros [H | [_ H]].
  - rewrite (isZero_value x H). unfold componentBound. lra.
  - lra.
Qed.

Lemma sumOfSquares_bound v :
  Forall component v ->
  sumOfSquares v <= INR (List.length v) * (componentBound * componentBound).
Proof.
  induction 1 as [ | x v Hx Hv IH]; [simpl; lra | ].
  change (List.length (x :: v)) with (S (List.length v)). rewrite S_INR.
  simpl sumOfSquares. pose proof (component_value x Hx). nra.
Qed.

Lemma sumOfSquares_touched v :
  Forall component v -> Exists normal v -> / 256 <= sumOfSquares v.
Proof.
  intros Hc He. induction He as [x v Hx | x v He IH]; inversion Hc as [ | ? ? Cx Cv]; subst;
    simpl sumOfSquares.
  - pose proof (sumOfSquares_nonneg v). destruct Cx as [Z | [_ R]].
    + apply isZero_value in Z. pose proof (normal_value_pos x Hx). lra.
    + nra.
  - specialize (IH Cv). pose proof (Rle_0_sqr (value x)) as H. unfold Rsqr in H. lra.
Qed.

(** The square of a component. *)
Lemma square_component x :
  component x ->
  (isZero (x * x)%float /\ value x = 0)
  \/ (normal (x * x)%float /\ near 1 (value (x * x)%float) (value x * value x)).
Proof.
  intros [Z | [N R]].
  - left. split; [apply mul_zero_zero; exact Z | apply isZero_value, Z].
  - right. apply mul_value; try exact N. numbers. split; nra.
Qed.

(** One step of the loop [norm += val * val]. *)
Lemma partialSum_step k acc t x :
  (1 <= k <= 999)%nat -> partialSum k acc t -> component x ->
  t + value x * value x <= pow2 190 ->
  partialSum (S k) (acc + x * x)%float (t + value x * value x).
Proof.
  intros Hk Hacc Hx Ht.
  assert (P190 : pow2 190 = 1569275433846670190958947355801916604025588861116008628224)
    by (rewrite pow2_IZR by lia; reflexivity).
  destruct (square_component x Hx) as [[Zs Vx] | [Ns Rs]].
  - rewrite Vx, Rmult_0_l, Rplus_0_r.
    destruct Hacc as [[Za T0] | [Na Ra]].
    + left. split; [apply add_zero_zero; assumption | exact T0].
    + right. rewrite (add_zero_r acc _ Na Zs). split; [exact Na | ].
      apply near_weaken with k; [lia | | exact Ra].
      pose proof (normal_value_pos acc Na). lra.
  - right. pose proof (normal_value_pos _ Ns) as Ps.
    destruct Hacc as [[Za T0] | [Na Ra]].
    + rewrite (add_zero_l acc _ Za Ns). split; [exact Ns | ]. subst t. rewrite Rplus_0_l.
      apply near_weaken with 1%nat; [lia | lra | exact Rs].
    + pose proof (normal_value_pos acc Na) as Pa.
      assert (Rs' : near k (value (x * x)%float) (value x * value x))
        by (apply near_weaken with 1%nat; [lia | lra | exact Rs]).
      pose proof (near_add k _ _ _ _ Ra Rs') as Rsum.
      destruct (near_bounds k _ _ ltac:(lia) Rsum ltac:(lra)) as [_ Hb].
      destruct (add_value acc (x * x)%float Na Ns) as [N R].
      * numbers. lra.
      * split; [exact N | ]. apply near_step with (value acc + value (x * x)%float);
          assumption.
Qed.

Lemma partialSum_fold : forall (arr : list float) k acc t,
  (1 <= k)%nat -> (k + List.length arr <= 1000)%nat ->
  Forall component arr -> partialSum k acc t -> 0 <= t ->
  t + sumOfSquares arr <= pow2 190 ->
  partialSum (k + List.length arr)
    (fold_left (fun sum val => (sum + val * val)%float) arr acc)
    (t + sumOfSquares arr).
Proof.
  induction arr as [ | x arr IH]; intros k acc t Hk Hlen Hc Hacc Ht Hb.
  - simpl. rewrite Nat.add_0_r, Rplus_0_r. exact Hacc.
  - inversion Hc as [ | ? ? Cx Carr]; subst. simpl in Hlen.
    simpl sumOfSquares in *. cbn [fold_left List.length].
    pose proof (sumOfSquares_nonneg arr) as Hs.
    pose proof (Rle_0_sqr (value x)) as Hq. unfold Rsqr in Hq.
    replace (k + S (List.length arr))%nat with (S k + List.length arr)%nat by lia.
    rewrite <- Rplus_assoc. apply IH; try assumption; try lia; try lra.
    apply partialSum_step; try assumption; try lia; lra.
Qed.

(** The computed sum of squares of a vector of components, one of which is
    not 0. *)
Lemma squaredNorm_value (arr : list float) :
  (List.length arr <= 500)%nat -> Forall component arr -> Exists normal arr ->
  let s := VectorService.squaredNorm arr in
  normal s /\ near (1 + List.length arr) (value s) (sumOfSquares arr)
  /\ / 256 <= sumOfSquares arr <= pow2 150.
Proof.
  intros Hlen Hc He s.
  pose proof (sumOfSquares_bound arr Hc) as Hb.
  pose proof (sumOfSquares_touched arr Hc He) as Ht.
  assert (L : INR (List.length arr) <= 500).
  { replace 500 with (INR 500) by (rewrite INR_IZR_INZ; reflexivity).
    apply le_INR. exact Hlen. }
  pose proof (pos_INR (List.length arr)) as L0.
  assert (P150 : pow2 150 = 1427247692705959881058285969449495136382746624)
    by (rewrite pow2_IZR by lia; reflexivity).
  assert (Hb' : sumOfSquares arr <= pow2 150).
  { rewrite P150. unfold componentBound in Hb.
    assert (INR (List.length arr) * (18446744073709551616 * 18446744073709551616)
            <= 500 * (18446744073709551616 * 18446744073709551616))
      by (apply Rmult_le_compat_r; [ | exact L]; lra).
    lra. }
  assert (P : partialSum (1 + List.length arr) s (0 + sumOfSquares arr)).
  { apply partialSum_fold; try assumption; try lia; try lra.
    - left. split; reflexivity.
    - pose proof (pow2_le 150 190 ltac:(lia)). lra. }
  rewrite Rplus_0_l in P. destruct P as [[_ T0] | [N R]]; [lra | ].
  split; [exact N | split; [exact R | split; assumption]].
Qed.

(** Scaling a vector of components by the computed norm. *)
Lemma scaled_component (x n : float) :
  component x -> normal n -> / 64 <= value n <= pow2 80 ->
  near 1 (value (x / n)%float) (value x / value n) /\ 0 <= value (x / n)%float
  /\ finite (x / n)%float.
Proof.
  intros Hx Hn Rn.
  assert (P80 : pow2 80 = 1208925819614629174706176)
    by (rewrite pow2_IZR by lia; reflexivity).
  rewrite P80 in Rn.
  destruct Hx as [Z | [N R]].
  - pose proof (div_zero_normal x n Z Hn) as Zd.
    rewrite (isZero_value _ Zd), (isZero_value _ Z).
    split; [ | split]; [ | lra | unfold finite; rewrite Zd; exact I].
    unfold near, Rdiv. rewrite !Rmult_0_l. lra.
  - assert (Hq : value x / value n * value n = value x) by (field; lra).
    set (q := value x / value n) in *.
    assert (Q : / 16 / 1208925819614629174706176 <= q <= componentBound * 64).
    { unfold componentBound in *. split.
      - apply Rmult_le_reg_r with (value n); [lra | ]. rewrite Hq.
        apply Rle_trans with (/ 16); [ | lra].
        apply Rle_trans with (/ 16 / 1208925819614629174706176 * 1208925819614629174706176);
          [ | lra].
        apply Rmult_le_compat_l; lra.
      - apply Rmult_le_reg_r with (value n); [lra | ]. rewrite Hq. nra. }
    destruct (div_value x n N Hn) as [Nd Rd].
    + fold q. numbers. lra.
    + split; [exact Rd | split].
      * pose proof (normal_value_pos _ Nd). lra.
      * destruct Nd as (m & e & E & _). unfold finite. rewrite E. exact I.
Qed.

Lemma sumOfSquares_scaled (arr : list float) (n : float) :
  Forall component arr -> normal n -> / 64 <= value n <= pow2 80 ->
  let scaled := map (fun val => (val / n)%float) arr in
  sumOfSquares scaled * ((1 - epsilon) * (1 - epsilon))
    <= sumOfSquares arr / (value n * value n)
    <= sumOfSquares scaled * ((1 + epsilon) * (1 + epsilon)).
Proof.
  intros Hc Hn Rn. cbv zeta.
  pose proof epsilon_bounds as [U0 U1].
  induction Hc as [ | x arr Hx Hc IH].
  - simpl. unfold Rdiv. rewrite !Rmult_0_l. lra.
  - simpl map. simpl sumOfSquares.
    destruct (scaled_component x n Hx Hn Rn) as ([R1 R2] & P & _). rewrite !pow_1 in R1, R2.
    pose proof (component_value x Hx) as [V0 _].
    assert (Q0 : 0 <= value x / value n).
    { apply Rmult_le_pos; [exact V0 | ]. apply Rlt_le, Rinv_0_lt_compat. lra. }
    assert (E : (value x * value x + sumOfSquares arr) / (value n * value n)
                = value x / value n * (value x / value n)
                  + sumOfSquares arr / (value n * value n)) by (field; lra).
    rewrite E. set (q := value x / value n) in *. set (r := value (x / n)%float) in *.
    assert (A0 : 0 <= r * (1 - epsilon)) by (apply Rmult_le_pos; lra).
    assert (r * (1 - epsilon) * (r * (1 - epsilon)) <= q * q)
      by (apply Rmult_le_compat; lra).
    assert (q * q <= r * (1 + epsilon) * (r * (1 + epsilon)))
      by (apply Rmult_le_compat; lra).
    set (a := r * (1 - epsilon)) in *. set (b := r * (1 + epsilon)) in *.
    replace ((r * r + sumOfSquares (map (fun val => (val / n)%float) arr))
             * ((1 - epsilon) * (1 - epsilon)))
      with (a * a + sumOfSquares (map (fun val => (val / n)%float) arr)
                    * ((1 - epsilon) * (1 - epsilon))) by (unfold a; ring).
    replace ((r * r + sumOfSquares (map (fun val => (val / n)%float) arr))
             * ((1 + epsilon) * (1 + epsilon)))
      with (b * b + sumOfSquares (map (fun val => (val / n)%float) arr)
                    * ((1 + epsilon) * (1 + epsilon))) by (unfold b; ring).
    lra.
Qed.

(** ***** A normalised vector has unit norm, up to rounding *)
Lemma normalised_unitNorm (arr : list float) :
  (List.length arr <= 500)%nat -> Forall component arr -> Exists normal arr ->
  let n := PrimFloat.sqrt (VectorService.squaredNorm arr) in
  normal n
  /\ unitNorm (pow2 (-43)) (map (fun val => (val / n)%float) arr).
Proof.
  intros Hlen Hc He n.
  destruct (squaredNorm_value arr Hlen Hc He) as (Ns & Rs & Tlo & Thi).
  destruct (sqrt_value _ Ns) as [Nn Rn]. fold n in Nn, Rn.
  split; [exact Nn | ].
  set (s := value (VectorService.squaredNorm arr)) in *.
  set (T := sumOfSquares arr) in *. set (nu := value n) in *.
  pose proof epsilon_bounds as [U0 U1].
  pose proof (normal_value_pos _ Ns) as Ps. fold s in Ps.
  pose proof (normal_value_pos _ Nn) as Pn. fold nu in Pn.
  destruct (near_bounds (1 + List.length arr) s T ltac:(lia) Rs ltac:(lra)) as [B1 B2].
  assert (P150 : pow2 150 = 1427247692705959881058285969449495136382746624)
    by (rewrite pow2_IZR by lia; reflexivity).
  assert (P80 : pow2 80 = 1208925819614629174706176)
    by (rewrite pow2_IZR by lia; reflexivity).
  (* the square of the computed norm *)
  destruct Rn as [Rn1 Rn2]. rewrite !pow_1 in Rn1, Rn2.
  pose proof (sqrt_def s ltac:(lra)) as Hsq. pose proof (sqrt_pos s) as Hsp.
  set (r := sqrt s) in *.
  assert (A0 : 0 <= nu * (1 - epsilon)) by (apply Rmult_le_pos; lra).
  assert (S1 : nu * (1 - epsilon) * (nu * (1 - epsilon)) <= s)
    by (rewrite <- Hsq; apply Rmult_le_compat; lra).
  assert (S2 : s <= nu * (1 + epsilon) * (nu * (1 + epsilon)))
    by (rewrite <- Hsq; apply Rmult_le_compat; lra).
  assert (Rnu : / 64 <= nu <= pow2 80).
  { rewrite P80. rewrite P150 in Thi.
    assert (C1 : nu * nu <= 4 * s).
    { assert (/ 2 * nu <= nu * (1 - epsilon)) by (unfold epsilon; nra).
      assert (/ 2 * nu * (/ 2 * nu) <= nu * (1 - epsilon) * (nu * (1 - epsilon)))
        by (apply Rmult_le_compat; lra).
      lra. }
    assert (C2 : s <= 4 * (nu * nu)).
    { assert (nu * (1 + epsilon) <= 2 * nu) by (unfold epsilon; nra).
      assert (nu * (1 + epsilon) * (nu * (1 + epsilon)) <= 2 * nu * (2 * nu))
        by (apply Rmult_le_compat; lra).
      lra. }
    split.
    - destruct (Rle_lt_dec (/ 64) nu) as [Hle | Hlt]; [exact Hle | ].
      assert (nu * nu <= / 64 * / 64) by (apply Rmult_le_compat; lra). lra.
    - destruct (Rle_lt_dec nu 1208925819614629174706176) as [Hle | Hlt]; [exact Hle | ].
      assert (1208925819614629174706176 * 1208925819614629174706176 <= nu * nu)
        by (apply Rmult_le_compat; lra).
      lra. }
  pose proof (sumOfSquares_scaled arr n Hc Nn Rnu) as Hsc. cbv zeta in Hsc.
  fold T nu in Hsc.
  set (R2 := sumOfSquares (map (fun val => (val / n)%float) arr)) in *.
  assert (R0 : 0 <= R2) by apply sumOfSquares_nonneg.
  (* the powers of the rounding error *)
  destruct Rs as [Rs1 Rs2].
  set (k := (1 + List.length arr)%nat) in *.
  assert (K : INR k <= 501).
  { replace 501 with (INR 501) by (rewrite INR_IZR_INZ; reflexivity).
    apply le_INR. unfold k. lia. }
  pose proof (pos_INR k) as K0.
  pose proof (pow_grow_le epsilon k ltac:(lra)) as G.
  pose proof (pow_shrink_ge epsilon k ltac:(lra)) as Sh.
  assert (G0 : 0 <= (1 + epsilon) ^ k) by (apply pow_le; lra).
  assert (S0 : 0 <= (1 - epsilon) ^ k) by (apply pow_le; lra).
  set (g := (1 + epsilon) ^ k) in *. set (h := (1 - epsilon) ^ k) in *. clearbody g h.
  assert (G' : g <= 1 + 1002 * epsilon) by (specialize (G ltac:(unfold epsilon in *; nra)); nra).
  assert (H' : 1 - 501 * epsilon <= h) by nra.
  assert (Q : T / (nu * nu) * (nu * nu) = T) by (field; lra).
  set (q := T / (nu * nu)) in *.
  assert (N2 : 0 < nu * nu) by nra.
  assert (Qhi : q <= g * ((1 + epsilon) * (1 + epsilon))).
  { apply Rmult_le_reg_r with (nu * nu); [exact N2 | ]. rewrite Q.
    apply Rle_trans with (s * g); [lra | ].
    replace (g * ((1 + epsilon) * (1 + epsilon)) * (nu * nu))
      with (nu * (1 + epsilon) * (nu * (1 + epsilon)) * g) by ring.
    apply Rmult_le_compat_r; lra. }
  assert (Qlo : h * ((1 - epsilon) * (1 - epsilon)) <= q).
  { apply Rmult_le_reg_r with (nu * nu); [exact N2 | ]. rewrite Q.
    apply Rle_trans with (s * h); [ | lra].
    replace (h * ((1 - epsilon) * (1 - epsilon)) * (nu * nu))
      with (nu * (1 - epsilon) * (nu * (1 - epsilon)) * h) by ring.
    apply Rmult_le_compat_r; lra. }
  assert (P43 : pow2 (-43) = / 8796093022208).
  { change (-43)%Z with (- (43))%Z. rewrite pow2_opp, pow2_IZR by lia. reflexivity. }
  assert (Bhi : R2 <= 1 + 2 * pow2 (-43)).
  { rewrite P43. unfold epsilon in *. nra. }
  assert (Blo : 1 - 2 * pow2 (-43) + pow2 (-43) * pow2 (-43) <= R2).
  { rewrite P43. unfold epsilon in *. nra. }
  unfold unitNorm, euclideanNorm. fold R2.
  set (d := pow2 (-43)) in *. assert (D : 0 < d <= / 2) by lra.
  split.
  { apply Forall_forall. intros y Hy. apply in_map_iff in Hy.
    destruct Hy as (x & <- & Hx). rewrite Forall_forall in Hc.
    apply (scaled_component x n (Hc x Hx) Nn Rnu). }
  apply Rabs_le. split.
  - assert (1 - d <= sqrt R2); [ | lra].
    rewrite <- (sqrt_square (1 - d)) by lra. apply sqrt_le_1_alt. nra.
  - assert (sqrt R2 <= 1 + d); [ | lra].
    rewrite <- (sqrt_square (1 + d)) by lra. apply sqrt_le_1_alt. nra.
Qed.

End Normalisation.

(** **** The magnitudes of the accumulated vector *)
Module Accumulation.
Import Reals Lra Psatz.
Import FloatValue FloatError Normalisation.
Import VectorService.
Local Open Scope R_scope.

Lemma INR_bound (n : nat) (b : Z) : (Z.of_nat n <= b)%Z -> INR n <= IZR b.
Proof. intros H. rewrite INR_IZR_INZ. apply IZR_le. exact H. Qed.

Lemma grow_pow (n : nat) : (Z.of_nat n <= 2 ^ 33)%Z -> 1 <= grow ^ n <= 2.
Proof.
  intros H. apply INR_bound in H. change (2 ^ 33)%Z with 8589934592%Z in H.
  pose proof (pos_INR n) as N0. pose proof epsilon_bounds as [U0 U1]. split.
  - apply pow_R1_Rle. unfold grow. lra.
  - unfold grow. pose proof (pow_grow_le (2 * epsilon) n ltac:(lra)) as G.
    assert (2 * INR n * (2 * epsilon) <= / 2) by (unfold epsilon in *; nra).
    specialize (G ltac:(lra)). lra.
Qed.

Lemma one_normal : normal 1 /\ value 1 = 1.
Proof.
  unfold normal, value.
  change (Prim2SF 1) with (S754_finite false 4503599627370496 (-52)). split.
  - exists 4503599627370496%positive, (-52)%Z. split; [reflexivity | ].
    split; split; try lia; try (apply Z.leb_le; reflexivity); apply Z.ltb_lt; reflexivity.
  - unfold SF2R. cbn [cond_Zopp]. rewrite <- epsilon_pow2. unfold epsilon. field.
Qed.

Lemma tenth_normal : normal 0.1 /\ value 0.1 = 7205759403792794 / 72057594037927936.
Proof.
  unfold normal, value.
  change (Prim2SF 0.1) with (S754_finite false 7205759403792794 (-56)). split.
  - exists 7205759403792794%positive, (-56)%Z. split; [reflexivity | ].
    split; split; try lia; try (apply Z.leb_le; reflexivity); apply Z.ltb_lt; reflexivity.
  - unfold SF2R. cbn [cond_Zopp]. change (-56)%Z with (- (56))%Z.
    rewrite pow2_opp, pow2_IZR by lia. reflexivity.
Qed.

Lemma normal_not_zero_nan x : normal x -> (x =? 0)%float = false /\ is_nan x = false.
Proof.
  intros (m & e & E & _). split.
  - rewrite FloatAxioms.eqb_spec, E. reflexivity.
  - apply is_nan_false_iff. rewrite E. exact I.
Qed.

(** ***** The word frequencies *)

Lemma frequency_bound k x :
  (Z.of_nat k <= 2 ^ 30)%Z -> frequency k x -> inRange 1 2147483648 x.
Proof.
  intros Hk [N [V1 V2]]. split; [exact N | split; [exact V1 | ]].
  destruct (grow_pow k ltac:(lia)) as [G1 G2].
  apply INR_bound in Hk. change (2 ^ 30)%Z with 1073741824%Z in Hk.
  pose proof (pos_INR k). nra.
Qed.

Lemma frequency_next k x : frequency k x -> frequency (S k) x.
Proof.
  intros [N [V1 V2]]. split; [exact N | split; [exact V1 | ]].
  rewrite S_INR. simpl pow. pose proof (pos_INR k) as K0.
  assert (G0 : 1 <= grow ^ k) by (apply pow_R1_Rle; unfold grow, epsilon; lra).
  assert (G1 : 1 <= grow) by (unfold grow, epsilon; lra).
  apply Rle_trans with (INR k * grow ^ k); [exact V2 | ].
  apply Rle_trans with (INR k * (grow * grow ^ k)); [ | nra].
  apply Rmult_le_compat_l; [exact K0 | nra].
Qed.

Lemma frequency_first k : frequency (S k) 1.
Proof.
  destruct one_normal as [N V]. split; [exact N | ]. rewrite V, S_INR.
  pose proof (pos_INR k) as K0.
  assert (G0 : 1 <= grow ^ S k) by (apply pow_R1_Rle; unfold grow, epsilon; lra).
  split; [lra | nra].
Qed.

Lemma frequency_incremented k x :
  (Z.of_nat k <= 2 ^ 30)%Z -> frequency k x -> frequency (S k) (x + 1)%float.
Proof.
  intros Hk H. destruct (frequency_bound k x Hk H) as [N [B1 B2]].
  destruct H as [_ [V1 V2]]. destruct one_normal as [N1 E1].
  destruct (add_value x 1 N N1) as [Ns Rs].
  - rewrite E1, rangeHigh_eq. lra.
  - rewrite E1 in Rs. split; [exact Ns | ].
    pose proof (normal_value_pos _ Ns) as Ps.
    destruct (near_1_bounds _ _ Rs ltac:(lra)) as [L U]. fold grow in U.
    pose proof epsilon_bounds as [U0 U1].
    rewrite S_INR. simpl pow. pose proof (pos_INR k) as K0.
    assert (G0 : 1 <= grow ^ k) by (apply pow_R1_Rle; unfold grow, epsilon; lra).
    assert (G1 : 1 <= grow) by (unfold grow, epsilon; lra).
    split; [unfold epsilon in *; nra | ].
    apply Rle_trans with ((value x + 1) * grow); [exact U | ].
    apply Rle_trans with ((INR k * grow ^ k + grow ^ k) * grow); [ | nra].
    apply Rmult_le_compat_r; lra.
Qed.

Lemma count_word_frequency k (wordFreq : Map number) word :
  (Z.of_nat k <= 2 ^ 30)%Z ->
  Forall (fun entry => frequency k (snd entry)) wordFreq ->
  Forall (fun entry => frequency (S k) (snd entry)) (count_word wordFreq word).
Proof.
  intros Hk H. unfold count_word. apply Map_set_Forall.
  - intros k'. simpl snd.
    destruct (@Map_get number wordFreq word) as [n | ] eqn:E.
    + apply Map_get_Some in E. rewrite Forall_forall in H. specialize (H _ E).
      simpl in H. destruct H as [N R].
      destruct (normal_not_zero_nan n N) as [Hz Hn]. rewrite Hz, Hn. simpl.
      apply frequency_incremented; [exact Hk | split; assumption].
    + rewrite (add_zero_l 0 1); [apply frequency_first | reflexivity | apply one_normal].
  - eapply Forall_impl; [ | exact H]. intros entry. apply frequency_next.
Qed.

Lemma fold_count_word_frequency : forall words k (wordFreq : Map number),
  (Z.of_nat (k + List.length words) <= 2 ^ 30)%Z ->
  Forall (fun entry => frequency k (snd entry)) wordFreq ->
  Forall (fun entry => frequency (k + List.length words) (snd entry))
         (fold_left count_word words wordFreq).
Proof.
  induction words as [ | w words IH]; intros k wordFreq Hk H.
  - simpl. rewrite Nat.add_0_r. exact H.
  - cbn [fold_left List.length] in *.
    replace (k + S (List.length words))%nat with (S k + List.length words)%nat in * by lia.
    apply IH; [exact Hk | ]. apply count_word_frequency; [lia | exact H].
Qed.

Lemma Map_set_length {V} (m : Map V) k v :
  (List.length (Map_set m k v) <= S (List.length m))%nat.
Proof.
  induction m as [ | [k0 v0] m IH]; simpl; [lia | ].
  destruct (String_eqb k0 k); simpl; lia.
Qed.

Lemma fold_count_word_length : forall words (wordFreq : Map number),
  (List.length (fold_left count_word words wordFreq)
   <= List.length wordFreq + List.length words)%nat.
Proof.
  induction words as [ | w words IH]; intros wordFreq; simpl; [lia | ].
  specialize (IH (count_word wordFreq w)).
  assert (Hs : (List.length (count_word wordFreq w) <= S (List.length wordFreq))%nat)
    by (unfold count_word; apply Map_set_length).
  lia.
Qed.

(** ***** The accumulated vector *)

Lemma weight_of_frequency x : inRange 1 2147483648 x -> weight (x * 0.1)%float.
Proof.
  intros [N [V1 V2]]. destruct tenth_normal as [Nt Et].
  destruct (mul_value x 0.1 N Nt) as [Nm Rm].
  - rewrite Et, rangeHigh_eq, rangeLow_eq. split; nra.
  - split; [exact Nm | ]. pose proof (normal_value_pos _ Nm) as Pm.
    destruct (near_1_bounds _ _ Rm ltac:(lra)) as [L U]. rewrite Et in L, U.
    unfold epsilon in *. split; nra.
Qed.

Lemma accumulated_next j x : accumulated j x -> accumulated (S j) x.
Proof.
  intros [Z | [N [V1 V2]]]; [left; exact Z | right].
  split; [exact N | split; [exact V1 | ]].
  rewrite S_INR. simpl pow. pose proof (pos_INR j) as K0.
  assert (G0 : 1 <= grow ^ j) by (apply pow_R1_Rle; unfold grow, epsilon; lra).
  assert (G1 : 1 <= grow) by (unfold grow, epsilon; lra).
  apply Rle_trans with (INR j * 268435456 * grow ^ j); [exact V2 | ].
  apply Rle_trans with (INR j * 268435456 * (grow * grow ^ j)); [ | nra].
  apply Rmult_le_compat_l; nra.
Qed.

Lemma accumulated_bound j x :
  (Z.of_nat j <= 2 ^ 33)%Z -> accumulated j x -> component x.
Proof.
  intros Hj [Z | [N [V1 V2]]]; [left; exact Z | right].
  split; [exact N | split; [exact V1 | ]].
  destruct (grow_pow j Hj) as [G1 G2].
  apply INR_bound in Hj. change (2 ^ 33)%Z with 8589934592%Z in Hj.
  pose proof (pos_INR j). unfold componentBound.
  apply Rle_trans with (INR j * 268435456 * grow ^ j); [exact V2 | ].
  apply Rle_trans with (8589934592 * 268435456 * 2); [ | lra].
  apply Rmult_le_compat; nra.
Qed.

Lemma accumulated_added j x v :
  (Z.of_nat j <= 2 ^ 33)%Z -> accumulated j x -> weight v ->
  normal (x + v)%float /\ accumulated (S j) (x + v)%float.
Proof.
  intros Hj Hx [Nv [W1 W2]].
  pose proof (accumulated_bound j x Hj Hx) as Cx.
  destruct Hx as [Z | [N [V1 V2]]].
  - rewrite (add_zero_l x v Z Nv). split; [exact Nv | right].
    split; [exact Nv | split; [lra | ]].
    rewrite S_INR. pose proof (pos_INR j) as K0.
    assert (G0 : 1 <= grow ^ S j) by (apply pow_R1_Rle; unfold grow, epsilon; lra).
    apply Rle_trans with (1 * 268435456 * 1); [lra | ].
    apply Rmult_le_compat; nra.
  - destruct Cx as [Z | [_ [_ C2]]]; [apply isZero_value in Z; lra | ].
    unfold componentBound in C2.
    destruct (add_value x v N Nv) as [Ns Rs]; [rewrite rangeHigh_eq; lra | ].
    split; [exact Ns | right]. split; [exact Ns | ].
    pose proof (normal_value_pos _ Ns) as Ps.
    destruct (near_1_bounds _ _ Rs ltac:(lra)) as [L U]. fold grow in U.
    rewrite S_INR. simpl pow. pose proof (pos_INR j) as K0.
    assert (G0 : 1 <= grow ^ j) by (apply pow_R1_Rle; unfold grow, epsilon; lra).
    assert (G1 : 1 <= grow) by (unfold grow, epsilon; lra).
    split; [unfold epsilon in *; nra | ].
    apply Rle_trans with ((value x + value v) * grow); [exact U | ].
    apply Rle_trans with ((INR j * 268435456 * grow ^ j + 268435456 * grow ^ j) * grow);
      [ | nra].
    apply Rmult_le_compat_r; [lra | ]. nra.
Qed.

Lemma add_at_accumulated : forall arr j index v,
  (Z.of_nat j <= 2 ^ 33)%Z -> weight v ->
  Forall (accumulated j) arr -> Forall (accumulated (S j)) (add_at index v arr).
Proof.
  induction arr as [ | x arr IH]; intros j [ | i] v Hj Hv H; simpl;
    try constructor; inversion H as [ | ? ? Hx Harr]; subst.
  - apply accumulated_added; assumption.
  - eapply Forall_impl; [ | exact Harr]. apply accumulated_next.
  - apply accumulated_next, Hx.
  - apply IH; assumption.
Qed.

Lemma add_at_normal : forall arr j index v,
  (Z.of_nat j <= 2 ^ 33)%Z -> weight v -> Forall (accumulated j) arr ->
  (index < List.length arr)%nat \/ Exists normal arr ->
  Exists normal (add_at index v arr).
Proof.
  induction arr as [ | x arr IH]; intros j [ | i] v Hj Hv H Hi; simpl.
  - destruct Hi as [Hi | Hi]; [simpl in Hi; lia | exact Hi].
  - destruct Hi as [Hi | Hi]; [simpl in Hi; lia | exact Hi].
  - inversion H as [ | ? ? Hx Harr]; subst.
    apply Exists_cons_hd. apply (accumulated_added j); assumption.
  - inversion H as [ | ? ? Hx Harr]; subst.
    destruct Hi as [Hi | Hi].
    + apply Exists_cons_tl. apply (IH j); try assumption. left. simpl in Hi. lia.
    + inversion Hi as [? ? Hb | ? ? Ht]; subst.
      * apply Exists_cons_hd. exact Hb.
      * apply Exists_cons_tl. apply (IH j); try assumption. right. exact Ht.
Qed.

Lemma scatter_accumulated j (arr : list number) (entry : jsstring * number) :
  (Z.of_nat j + 5 <= 2 ^ 33)%Z -> inRange 1 2147483648 (snd entry) ->
  Forall (accumulated j) arr -> List.length arr = dimension ->
  Forall (accumulated (5 + j)) (scatter arr entry)
  /\ Exists normal (scatter arr entry).
Proof.
  destruct entry as [word freq]. simpl snd. intros Hj Hf H Hlen.
  pose proof (weight_of_frequency freq Hf) as Hv.
  unfold scatter. cbn [fold_left].
  set (w := (freq * 0.1)%float) in *.
  set (a1 := add_at _ w arr).
  assert (H1 : Forall (accumulated (1 + j)) a1)
    by (apply add_at_accumulated; [lia | exact Hv | exact H]).
  set (a2 := add_at _ w a1).
  assert (H2 : Forall (accumulated (2 + j)) a2)
    by (apply (add_at_accumulated a1 (1 + j)); [lia | exact Hv | exact H1]).
  set (a3 := add_at _ w a2).
  assert (H3 : Forall (accumulated (3 + j)) a3)
    by (apply (add_at_accumulated a2 (2 + j)); [lia | exact Hv | exact H2]).
  set (a4 := add_at _ w a3).
  assert (H4 : Forall (accumulated (4 + j)) a4)
    by (apply (add_at_accumulated a3 (3 + j)); [lia | exact Hv | exact H3]).
  split.
  - apply (add_at_accumulated a4 (4 + j)); [lia | exact Hv | exact H4].
  - apply (add_at_normal a4 (4 + j)); [lia | exact Hv | exact H4 | ].
    left. unfold a4, a3, a2, a1. rewrite !add_at_length, Hlen.
    apply scatter_index_in_range.
Qed.

Lemma fold_scatter_accumulated : forall (entries : list (jsstring * number)) j (arr : list number),
  (Z.of_nat j + 5 * Z.of_nat (List.length entries) <= 2 ^ 33)%Z ->
  Forall (fun entry => inRange 1 2147483648 (snd entry)) entries ->
  Forall (accumulated j) arr -> List.length arr = dimension ->
  Forall (accumulated (5 * List.length entries + j)) (fold_left scatter entries arr)
  /\ (entries <> [] -> Exists normal (fold_left scatter entries arr)).
Proof.
  induction entries as [ | entry entries IH]; intros j arr Hj Hf H Hlen.
  - simpl. split; [exact H | ]. intros Hne. contradiction.
  - inversion Hf as [ | ? ? He Hes]; subst. cbn [fold_left List.length] in *.
    destruct (scatter_accumulated j arr entry ltac:(lia) He H Hlen) as [Hacc Hn].
    destruct (IH (5 + j)%nat (scatter arr entry) ltac:(lia) Hes Hacc) as [Hacc' Hn'].
    + rewrite scatter_length. exact Hlen.
    + replace (5 * S (List.length entries) + j)%nat
        with (5 * List.length entries + (5 + j))%nat by lia.
      split; [exact Hacc' | ]. intros _.
      destruct entries as [ | e' entries']; [exact Hn | apply Hn'; discriminate].
Qed.

End Accumulation.

(** **** The norm of the fallback embedding *)
Module FallbackNorm.
Import Reals.
Import FloatValue Accumulation Normalisation.
Import VectorService.
Local Open Scope R_scope.

Section WithHost.
Context {host : Host}.

(** The components of the accumulated vector of a text of at most [2^30]
    words. *)
Lemma fallbackAccumulated_components text :
  (Z.of_nat (List.length (fallbackWords text)) <= 2 ^ 30)%Z ->
  Forall component (fallbackAccumulated text)
  /\ (fallbackWords text <> [] -> Exists normal (fallbackAccumulated text)).
Proof.
  intros Hw. unfold fallbackAccumulated.
  set (words := fallbackWords text) in *.
  set (entries := fold_left count_word words []).
  assert (Hf : Forall (fun entry => inRange 1 2147483648 (snd entry)) entries).
  { pose proof (fold_count_word_frequency words 0 [] Hw (Forall_nil _)) as H.
    eapply Forall_impl; [ | exact H]. intros entry. apply frequency_bound. exact Hw. }
  pose proof (fold_count_word_length words []) as He. fold entries in He. simpl in He.
  destruct (fold_scatter_accumulated (Map_entries entries) 0 (repeat 0%float dimension))
    as [Hacc Hn].
  - unfold Map_entries. simpl Z.of_nat. lia.
  - exact Hf.
  - apply Forall_forall. intros x Hx. apply repeat_spec in Hx. subst. left. reflexivity.
  - apply repeat_length.
  - split.
    + eapply Forall_impl; [ | exact Hacc]. intros x. apply accumulated_bound.
      unfold Map_entries. lia.
    + intros Hne. apply Hn. unfold Map_entries, entries.
      apply fold_count_word_not_empty. left. exact Hne.
Qed.

Lemma normal_ltb_zero x : normal x -> (0 <? x)%float = true.
Proof.
  intros (m & e & E & _). rewrite FloatAxioms.ltb_spec, E. reflexivity.
Qed.

(** The fallback embedding of a text with a word is a unit vector, up to
    the rounding of the operations. *)
Lemma getFallbackEmbedding_unitNorm text :
  fallbackWords text <> [] ->
  (Z.of_nat (List.length (fallbackWords text)) <= 2 ^ 30)%Z ->
  unitNorm (pow2 (-43)) (getFallbackEmbedding text).
Proof.
  intros Hne Hw.
  destruct (fallbackAccumulated_components text Hw) as [Hc Hn].
  destruct (normalised_unitNorm (fallbackAccumulated text)) as [Nn Hu].
  - rewrite fallbackAccumulated_length. unfold dimension. lia.
  - exact Hc.
  - apply Hn, Hne.
  - unfold getFallbackEmbedding, Math_sqrt.
    rewrite (normal_ltb_zero _ Nn). exact Hu.
Qed.

End WithHost.

End FallbackNorm.

(** C8. For every text the fallback embedding has 384 components and is
    determined by the text alone (two hosts that lower-case it alike give
    the same vector).  The computed norm of the accumulated vector is
    greater than 0 exactly when the text has a word; when it is not, the
    embedding is 384 zeros; and when it is, the embedding is a unit
    vector: for a text of at most [2^30] words its components are finite
    and its Euclidean norm, taken over the real numbers, differs from 1 by
    at most [2^-43], the rounding of the floating-point operations. *)
Theorem getFallbackEmbedding_properties :
  forall (host other : Host) (text : jsstring),
    let embedding := getFallbackEmbedding (host := host) text in
    let n := norm (fallbackAccumulated (host := host) text) in
    List.length embedding = 384%nat
    /\ (String_toLowerCase (Host := other) text = String_toLowerCase (Host := host) text ->
        getFallbackEmbedding (host := other) text = embedding)
    /\ ((0 <? n) = true <-> fallbackWords (host := host) text <> [])
    /\ ((0 <? n) = false -> embedding = repeat 0 384)
    /\ ((0 <? n) = true ->
        (Z.of_nat (List.length (fallbackWords (host := host) text)) <= 2 ^ 30)%Z ->
        FloatValue.unitNorm (FloatValue.pow2 (-43)) embedding).
Proof.
  intros host other text embedding n.
  set (accumulated := fallbackAccumulated (host := host) text) in *.
  assert (Hacc : List.length accumulated = 384%nat)
    by apply fallbackAccumulated_length.
  assert (Hiff : (0 <? n) = true <-> fallbackWords (host := host) text <> []).
  { split.
    - intros Hn Hw.
      assert (Hz : accumulated = repeat 0 dimension).
      { unfold accumulated, fallbackAccumulated. rewrite Hw. reflexivity. }
      unfold n in Hn. rewrite Hz in Hn. vm_compute in Hn. discriminate.
    - apply fallbackAccumulated_norm_positive. }
  split; [ | split; [ | split; [exact Hiff | split]]].
  - unfold embedding, getFallbackEmbedding. fold accumulated. fold (norm accumulated).
    fold n. destruct (0 <? n); [rewrite length_map | ]; exact Hacc.
  - intros H. unfold embedding, getFallbackEmbedding, fallbackAccumulated, fallbackWords.
    rewrite H. reflexivity.
  - intros H. apply getFallbackEmbedding_no_words.
    destruct (fallbackWords text) as [ | w ws] eqn:E; [reflexivity | ].
    assert (Hn : (0 <? n) = true) by (apply Hiff; discriminate).
    rewrite Hn in H. discriminate.
  - intros Hn Hw. apply FallbackNorm.getFallbackEmbedding_unitNorm; [apply Hiff, Hn | exact Hw].
Qed.


(** ** Further properties of the services and of their callers *)

(** *** Strings *)

Lemma dropWhile_split {A} (p : A -> bool) (l : list A) :
  exists pre, l = pre ++ dropWhile p l /\ Forall (fun x => p x = true) pre.
Proof.
  induction l as [ | x l (pre & E & H)]; simpl.
  - exists []. split; [reflexivity | constructor].
  - destruct (p x) eqn:Px.
    + exists (x :: pre). split; [simpl; congruence | constructor; assumption].
    + exists []. split; [reflexivity | constructor].
Qed.

Lemma dropWhile_head {A} (p : A -> bool) (l : list A) x r :
  dropWhile p l = x :: r -> p x = false.
Proof.
  induction l as [ | y l IH]; simpl; [discriminate | ].
  destruct (p y) eqn:Py; [exact IH | ].
  intros E. injection E as -> _. exact Py.
Qed.

Lemma dropWhile_Forall {A} (P : A -> Prop) (p : A -> bool) (l : list A) :
  Forall P l -> Forall P (dropWhile p l).
Proof.
  induction 1 as [ | x l Hx Hl IH]; simpl; [constructor | ].
  destruct (p x); [exact IH | constructor; assumption].
Qed.

(** [trimEnd] keeps a prefix. *)
Lemma trimEnd_prefix s : exists ws, s = trimEnd s ++ ws /\ Forall (fun c => isWhiteSpace c = true) ws.
Proof.
  unfold trimEnd. destruct (dropWhile_split isWhiteSpace (rev s)) as (pre & E & H).
  exists (rev pre). split.
  - rewrite <- rev_app_distr, <- E, rev_involutive. reflexivity.
  - apply Forall_rev. exact H.
Qed.

Lemma trimEnd_Forall (P : Z -> Prop) s : Forall P s -> Forall P (trimEnd s).
Proof.
  intros H. destruct (trimEnd_prefix s) as (ws & E & _).
  rewrite E in H. apply Forall_app in H. apply H.
Qed.

Lemma trim_Forall (P : Z -> Prop) s : Forall P s -> Forall P (trim s).
Proof. intros H. apply trimEnd_Forall, dropWhile_Forall, H. Qed.

Lemma trim_head s c r : trim s = c :: r -> isWhiteSpace c = false.
Proof.
  unfold trim. intros E.
  destruct (trimEnd_prefix (trimStart s)) as (ws & E' & _).
  rewrite E in E'. simpl in E'. apply dropWhile_head in E'. exact E'.
Qed.

Lemma trimEnd_last s c : isWhiteSpace c = false -> trimEnd (s ++ [c]) = s ++ [c].
Proof.
  intros H. unfold trimEnd. rewrite rev_app_distr. simpl. rewrite H.
  simpl. rewrite rev_involutive. reflexivity.
Qed.

Lemma collapse_whitespace_spaces s : forall in_run,
  Forall (fun c => isWhiteSpace c = true -> c = 32%Z) (collapse_whitespace s in_run).
Proof.
  induction s as [ | c s IH]; intros in_run; simpl; [constructor | ].
  destruct (isWhiteSpace c) eqn:Wc.
  - destruct in_run; [apply IH | constructor; [reflexivity | apply IH]].
  - constructor; [congruence | apply IH].
Qed.

Lemma Forall_firstn_of {A} (P : A -> Prop) (n : nat) (l : list A) :
  Forall P l -> Forall P (firstn n l).
Proof.
  intros H. rewrite <- (firstn_skipn n l) in H. apply Forall_app in H. apply H.
Qed.

(** X1. Whatever the text, [cleanText] returns at most 8000 code units,
    each of them a word character, a CJK ideograph or the space U+0020
    (punctuation, tabs and line breaks are gone), and the result does not
    start with white space. *)
Theorem cleanText_output (text : jsstring) :
  (String_length (cleanText text) <= 8000)%nat
  /\ Forall (fun c => cleanChar c = true) (cleanText text)
  /\ (forall c rest, cleanText text = c :: rest -> isWhiteSpace c = false).
Proof.
  unfold cleanText. split; [apply firstn_le_length | ]. split.
  - apply Forall_firstn_of. apply trim_Forall.
    apply Forall_forall. intros c Hc. apply filter_In in Hc. destruct Hc as [Hin Hk].
    pose proof (collapse_whitespace_spaces text false) as Hs.
    rewrite Forall_forall in Hs. specialize (Hs c Hin).
    unfold cleanChar. destruct (isWordChar c); [reflexivity | ].
    destruct (isCJK c); [reflexivity | ]. simpl in Hk |- *.
    rewrite orb_false_r in Hk. rewrite (Hs Hk). reflexivity.
  - intros c rest E.
    destruct (trim _) as [ | c' r'] eqn:Et; [discriminate | ].
    simpl in E. injection E as -> _. apply trim_head in Et. exact Et.
Qed.

(** *** simpleHash *)
Lemma ToInt32_mod z : (ToInt32 z mod 4294967296 = z mod 4294967296)%Z.
Proof.
  unfold ToInt32.
  destruct (2147483648 <=? z mod 4294967296)%Z.
  - replace (z mod 4294967296 - 4294967296)%Z
      with (z mod 4294967296 + (-1) * 4294967296)%Z by lia.
    rewrite Z.mod_add by lia. apply Z.mod_mod. lia.
  - apply Z.mod_mod. lia.
Qed.

Lemma ToInt32_congr a b :
  (a mod 4294967296 = b mod 4294967296)%Z -> ToInt32 a = ToInt32 b.
Proof. intros H. unfold ToInt32. rewrite H. reflexivity. Qed.

Lemma ToInt32_range z : (- 2147483648 <= ToInt32 z < 2147483648)%Z.
Proof.
  unfold ToInt32. pose proof (Z.mod_pos_bound z 4294967296 ltac:(lia)).
  destruct (2147483648 <=? z mod 4294967296)%Z eqn:E;
    [apply Z.leb_le in E | apply Z.leb_gt in E]; lia.
Qed.

Lemma simpleHash_step_polynomial h p c :
  h = ToInt32 p -> simpleHash_step h c = ToInt32 (31 * p + c).
Proof.
  intros ->. unfold simpleHash_step. apply ToInt32_congr.
  rewrite Zplus_mod, Zminus_mod, !ToInt32_mod.
  rewrite (Zmult_mod (ToInt32 p)), ToInt32_mod, <- Zmult_mod.
  rewrite <- Zminus_mod, <- Zplus_mod. f_equal. lia.
Qed.

Lemma fold_simpleHash_polynomial : forall str h p,
  h = ToInt32 p ->
  fold_left simpleHash_step str h
  = ToInt32 (fold_left (fun h c => (31 * h + c)%Z) str p).
Proof.
  induction str as [ | c str IH]; intros h p E; simpl; [exact E | ].
  apply IH. apply simpleHash_step_polynomial. exact E.
Qed.

(** X2. [simpleHash] is the absolute value of the polynomial hash
    [s[0]*31^(n-1) + ... + s[n-1]] reduced to a signed 32-bit integer, so it
    lies between 0 and 2^31 (inclusive: the absolute value of [-2^31] is not
    reduced again). *)
Theorem simpleHash_polynomial (str : jsstring) :
  simpleHash str = Z.abs (ToInt32 (polynomial31 str))
  /\ (0 <= simpleHash str <= 2147483648)%Z.
Proof.
  assert (E : simpleHash str = Z.abs (ToInt32 (polynomial31 str))).
  { unfold simpleHash, polynomial31. f_equal.
    apply fold_simpleHash_polynomial. reflexivity. }
  split; [exact E | ]. rewrite E.
  pose proof (ToInt32_range (polynomial31 str)). lia.
Qed.

(** *** chunkText *)

Lemma filter_all_false {A} (f : A -> bool) (l : list A) :
  Forall (fun x => f x = false) l -> filter f l = [].
Proof.
  induction 1 as [ | x l Hx Hl IH]; simpl; [reflexivity | ].
  rewrite Hx. exact IH.
Qed.

Lemma trimStart_filter (f : Z -> bool) s :
  (forall c, isWhiteSpace c = true -> f c = false) ->
  filter f (trimStart s) = filter f s.
Proof.
  intros Hf. unfold trimStart.
  destruct (dropWhile_split isWhiteSpace s) as (pre & E & H).
  transitivity (filter f (pre ++ dropWhile isWhiteSpace s)); [ | rewrite <- E; reflexivity].
  rewrite filter_app, (filter_all_false f pre); [reflexivity | ].
  apply Forall_impl with (2 := H). exact Hf.
Qed.

Lemma trimEnd_filter (f : Z -> bool) s :
  (forall c, isWhiteSpace c = true -> f c = false) ->
  filter f (trimEnd s) = filter f s.
Proof.
  intros Hf. destruct (trimEnd_prefix s) as (ws & E & H).
  transitivity (filter f (trimEnd s ++ ws)); [ | rewrite <- E; reflexivity].
  rewrite filter_app, (filter_all_false f ws), app_nil_r; [reflexivity | ].
  apply Forall_impl with (2 := H). exact Hf.
Qed.

Lemma trim_filter (f : Z -> bool) s :
  (forall c, isWhiteSpace c = true -> f c = false) ->
  filter f (trim s) = filter f s.
Proof.
  intros Hf. unfold trim. rewrite trimEnd_filter, trimStart_filter by exact Hf.
  reflexivity.
Qed.

Lemma isContent_whitespace c : isWhiteSpace c = true -> isContent c = false.
Proof. intros H. unfold isContent. rewrite H. reflexivity. Qed.

Lemma isContent_sentenceEnd c : isSentenceEnd c = true -> isContent c = false.
Proof. intros H. unfold isContent. rewrite H. apply andb_false_r. Qed.

(** A string whose trimmed form is empty is white space only. *)
Lemma trim_empty_whitespace s :
  trim s = [] -> Forall (fun c => isWhiteSpace c = true) s.
Proof.
  unfold trim. intros E.
  destruct (trimEnd_prefix (trimStart s)) as (ws & E' & Hws).
  rewrite E in E'. simpl in E'.
  destruct (dropWhile_split isWhiteSpace s) as (pre & Es & Hpre).
  rewrite Es. apply Forall_app. split; [exact Hpre | ].
  unfold trimStart in E'. rewrite E'. exact Hws.
Qed.

Lemma trim_nonempty s :
  Exists (fun c => isWhiteSpace c = false) s -> trim s <> [].
Proof.
  intros He E. apply trim_empty_whitespace in E.
  apply Exists_exists in He. destruct He as (c & Hin & Hc).
  rewrite Forall_forall in E. rewrite (E c Hin) in Hc. discriminate.
Qed.

Lemma nonempty_trim_content s :
  trim s <> [] -> Exists (fun c => isWhiteSpace c = false) s.
Proof.
  intros Hne. destruct (trim s) as [ | c r] eqn:E; [contradiction | ].
  pose proof (trim_head s c r E) as Hc.
  apply Exists_exists. exists c. split; [ | exact Hc].
  unfold trim in E.
  destruct (trimEnd_prefix (trimStart s)) as (ws & E' & _).
  destruct (dropWhile_split isWhiteSpace s) as (pre & Es & _).
  rewrite Es. apply in_or_app. right. unfold trimStart in *. rewrite E', E.
  left. reflexivity.
Qed.

Lemma dropWhile_fixed {A} (p : A -> bool) (l : list A) :
  dropWhile p (dropWhile p l) = dropWhile p l.
Proof.
  destruct (dropWhile p l) as [ | x r] eqn:E; [reflexivity | ].
  apply dropWhile_head in E. simpl. rewrite E. reflexivity.
Qed.

Lemma trim_idempotent s : trim (trim s) = trim s.
Proof.
  destruct (trim s) as [ | c r] eqn:E; [reflexivity | ].
  pose proof (trim_head s c r E) as Hc.
  unfold trim in *. unfold trimStart at 1. simpl dropWhile. rewrite Hc.
  rewrite <- E. unfold trimEnd. rewrite rev_involutive, dropWhile_fixed. reflexivity.
Qed.

Lemma split_class_no_sep (sep : Z -> bool) (s : jsstring) :
  Forall (Forall (fun c => sep c = false)) (split_class sep s).
Proof.
  induction s as [ | c s IH]; simpl.
  - constructor; constructor.
  - destruct (sep c) eqn:Sc.
    + constructor; [constructor | exact IH].
    + destruct (split_class sep s) as [ | cur rest].
      * constructor; [ | constructor]. constructor; [exact Sc | constructor].
      * inversion IH; subst. constructor; [ | assumption].
        constructor; assumption.
Qed.

Lemma split_class_filter (sep f : Z -> bool) (s : jsstring) :
  (forall c, sep c = true -> f c = false) ->
  filter f (List.concat (split_class sep s)) = filter f s.
Proof.
  intros Hf. induction s as [ | c s IH]; simpl; [reflexivity | ].
  destruct (sep c) eqn:Sc.
  - simpl. rewrite (Hf c Sc). exact IH.
  - destruct (split_class sep s) as [ | cur rest]; simpl in *.
    + rewrite <- IH. reflexivity.
    + rewrite <- IH. reflexivity.
Qed.

Lemma sentencesOf_filter text :
  filter isContent (List.concat (sentencesOf text)) = filter isContent text.
Proof.
  unfold sentencesOf.
  rewrite <- (split_class_filter isSentenceEnd isContent text isContent_sentenceEnd).
  induction (split_class isSentenceEnd text) as [ | s l IH]; simpl; [reflexivity | ].
  destruct (truthy (trim s)) eqn:T; simpl; rewrite !filter_app, IH; [reflexivity | ].
  rewrite (filter_all_false isContent s); [reflexivity | ].
  assert (E : trim s = []) by (destruct (trim s); [reflexivity | discriminate]).
  apply Forall_impl with (2 := trim_empty_whitespace s E).
  exact isContent_whitespace.
Qed.

Lemma chunk_step_filter maxLength st sentence :
  filter isContent (List.concat (fst (chunk_step maxLength st sentence))
                    ++ snd (chunk_step maxLength st sentence))
  = filter isContent (List.concat (fst st) ++ snd st) ++ filter isContent sentence.
Proof.
  destruct st as [chunks cur]. unfold chunk_step.
  destruct ((maxLength <? Z.of_nat (String_length (cur ++ sentence)))%Z && truthy cur);
    simpl fst; simpl snd.
  - rewrite concat_app. simpl List.concat. rewrite app_nil_r.
    rewrite !filter_app. rewrite (trim_filter isContent cur isContent_whitespace).
    reflexivity.
  - rewrite !filter_app. destruct (truthy cur); simpl; rewrite ?app_assoc; reflexivity.
Qed.

Lemma chunk_fold_filter maxLength : forall l st,
  filter isContent (List.concat (fst (fold_left (chunk_step maxLength) l st))
                    ++ snd (fold_left (chunk_step maxLength) l st))
  = filter isContent (List.concat (fst st) ++ snd st) ++ filter isContent (List.concat l).
Proof.
  induction l as [ | s l IH]; intros st; simpl.
  - rewrite app_nil_r. reflexivity.
  - rewrite IH, chunk_step_filter, (filter_app isContent s), <- app_assoc. reflexivity.
Qed.

(** X3. [chunkText] loses no content: the code units of the chunks that are
    neither white space nor sentence punctuation are, in order, those of
    the text, whatever [maxLength] is. *)
Theorem chunkText_preserves_content (text : jsstring) (maxLength : Z) :
  filter isContent (List.concat (chunkText text maxLength)) = filter isContent text.
Proof.
  unfold chunkText.
  pose proof (chunk_fold_filter maxLength (sentencesOf text) ([], [])) as H.
  simpl in H. rewrite sentencesOf_filter in H.
  destruct (fold_left _ _ _) as [chunks cur]. simpl fst in H. simpl snd in H.
  cbv zeta.
  match goal with
  | |- filter _ (List.concat match ?c with _ => _ end) = _ =>
    assert (E : filter isContent (List.concat c) = filter isContent text);
      [ | destruct c; [simpl List.concat; rewrite app_nil_r; reflexivity | exact E]]
  end.
  rewrite <- H, filter_app. destruct (truthy (trim cur)) eqn:T.
  - rewrite concat_app. simpl List.concat. rewrite app_nil_r, filter_app.
    rewrite (trim_filter isContent cur isContent_whitespace). reflexivity.
  - assert (Et : trim cur = []) by (destruct (trim cur); [reflexivity | discriminate]).
    rewrite (filter_all_false isContent cur), app_nil_r; [reflexivity | ].
    apply Forall_impl with (2 := trim_empty_whitespace cur Et).
    exact isContent_whitespace.
Qed.

Lemma truthy_nonempty (s : jsstring) : truthy s = true <-> s <> [].
Proof. destruct s; simpl; split; congruence. Qed.

Lemma normalChunk_trim cur :
  Exists (fun c => isWhiteSpace c = false) cur -> joinedOnly cur ->
  normalChunk (trim cur).
Proof.
  intros He Hj. split; [apply trim_nonempty; exact He | ].
  split; [apply trim_idempotent | apply trim_Forall; exact Hj].
Qed.

Lemma chunk_step_normal maxLength st sentence :
  Exists (fun c => isWhiteSpace c = false) sentence ->
  Forall (fun c => isSentenceEnd c = false) sentence ->
  Forall normalChunk (fst st) ->
  (snd st = [] \/ Exists (fun c => isWhiteSpace c = false) (snd st)) ->
  joinedOnly (snd st) ->
  Forall normalChunk (fst (chunk_step maxLength st sentence))
  /\ Exists (fun c => isWhiteSpace c = false) (snd (chunk_step maxLength st sentence))
  /\ joinedOnly (snd (chunk_step maxLength st sentence)).
Proof.
  destruct st as [chunks cur]. simpl fst. simpl snd. intros Hs Hp Hc Hcur Hj.
  assert (Hsj : joinedOnly sentence).
  { apply Forall_impl with (2 := Hp). intros c H1 H2. congruence. }
  unfold chunk_step.
  destruct ((maxLength <? Z.of_nat (String_length (cur ++ sentence)))%Z && truthy cur) eqn:E;
    simpl fst; simpl snd.
  - apply andb_true_iff in E. destruct E as [_ E]. apply truthy_nonempty in E.
    destruct Hcur as [Hcur | Hcur]; [contradiction | ].
    split; [ | split; assumption].
    apply Forall_app. split; [assumption | ].
    constructor; [apply normalChunk_trim; assumption | constructor].
  - split; [assumption | ]. split.
    + apply Exists_app. right. apply Exists_app. right. exact Hs.
    + apply Forall_app. split; [exact Hj | ]. apply Forall_app. split; [ | exact Hsj].
      destruct (truthy cur); constructor; [reflexivity | constructor].
Qed.

Lemma chunk_fold_normal maxLength : forall l st,
  Forall (fun s => Exists (fun c => isWhiteSpace c = false) s
                   /\ Forall (fun c => isSentenceEnd c = false) s) l ->
  Forall normalChunk (fst st) ->
  (snd st = [] \/ Exists (fun c => isWhiteSpace c = false) (snd st)) ->
  joinedOnly (snd st) ->
  Forall normalChunk (fst (fold_left (chunk_step maxLength) l st))
  /\ (snd (fold_left (chunk_step maxLength) l st) = []
      \/ Exists (fun c => isWhiteSpace c = false)
           (snd (fold_left (chunk_step maxLength) l st)))
  /\ joinedOnly (snd (fold_left (chunk_step maxLength) l st)).
Proof.
  induction l as [ | s l IH]; intros st Hl Hc Hcur Hj; simpl.
  - repeat split; assumption.
  - inversion Hl as [ | ? ? [Hs Hp] Hl']; subst.
    destruct (chunk_step_normal maxLength st s Hs Hp Hc Hcur Hj) as (H1 & H2 & H3).
    apply IH; auto.
Qed.

Lemma sentencesOf_sentences text :
  Forall (fun s => Exists (fun c => isWhiteSpace c = false) s
                   /\ Forall (fun c => isSentenceEnd c = false) s) (sentencesOf text).
Proof.
  unfold sentencesOf. apply Forall_forall. intros s Hs.
  apply filter_In in Hs. destruct Hs as [Hin Ht]. split.
  - apply nonempty_trim_content. apply truthy_nonempty. exact Ht.
  - pose proof (split_class_no_sep isSentenceEnd text) as H.
    rewrite Forall_forall in H. apply H. exact Hin.
Qed.

(** X4. When the text has no sentence, [chunkText] returns the text itself
    as the one chunk; otherwise it returns at least one chunk, and every
    chunk is non-empty, trimmed, and holds no sentence punctuation other
    than the ideographic full stop that joins its sentences, whatever mark
    ended them in the text. *)
Theorem chunkText_normal_form (text : jsstring) (maxLength : Z) :
  (sentencesOf text = [] /\ chunkText text maxLength = [text])
  \/ (sentencesOf text <> [] /\ chunkText text maxLength <> []
      /\ Forall normalChunk (chunkText text maxLength)).
Proof.
  destruct (sentencesOf text) as [ | s0 l0] eqn:Es.
  - left. split; [reflexivity | apply chunkText_no_sentence; exact Es].
  - right. split; [discriminate | ].
    unfold chunkText. rewrite Es.
    pose proof (sentencesOf_sentences text) as Hall. rewrite Es in Hall.
    inversion Hall as [ | ? ? [Hs Hp] Hl']; subst.
    simpl fold_left.
    destruct (chunk_step_normal maxLength ([], []) s0 Hs Hp) as (H1 & H2 & H3);
      [constructor | left; reflexivity | constructor | ].
    destruct (chunk_fold_normal maxLength l0 _ Hl' H1 (or_intror H2) H3)
      as (G1 & G2 & G3).
    assert (Hcur : Exists (fun c => isWhiteSpace c = false)
                     (snd (fold_left (chunk_step maxLength) l0
                             (chunk_step maxLength ([], []) s0)))).
    { clear G1 G2 G3 H1 H3 Hall Es Hs Hp. revert H2.
      generalize (chunk_step maxLength ([], []) s0). 
      induction l0 as [ | s l IH]; intros st H2; simpl; [exact H2 | ].
      inversion Hl' as [ | ? ? [Hs Hp] Hl'']; subst.
      apply IH; [exact Hl'' | ].
      destruct st as [chunks cur]. unfold chunk_step.
      destruct (_ && _); simpl snd; [exact Hs | ].
      apply Exists_app. right. apply Exists_app. right. exact Hs. }
    destruct (fold_left _ _ _) as [chunks cur]. simpl in G1, G3, Hcur.
    pose proof (trim_nonempty cur Hcur) as Hne.
    apply truthy_nonempty in Hne. rewrite Hne.
    assert (Hall' : Forall normalChunk (chunks ++ [trim cur])).
    { apply Forall_app. split; [exact G1 | ].
      constructor; [apply normalChunk_trim; assumption | constructor]. }
    destruct (chunks ++ [trim cur]) eqn:Ec.
    + destruct chunks; discriminate.
    + split; [discriminate | exact Hall'].
Qed.

Lemma runningChunk_trim sentences maxLength c :
  runningChunk sentences maxLength c ->
  shortOrSentence sentences maxLength (trim c).
Proof.
  pose proof (trim_length c) as Ht.
  intros [H | H]; [left; lia | right; exists c; split; [exact H | reflexivity]].
Qed.

Lemma chunk_step_short sentences maxLength st sentence :
  In sentence sentences ->
  Forall (shortOrSentence sentences maxLength) (fst st) ->
  runningChunk sentences maxLength (snd st) ->
  Forall (shortOrSentence sentences maxLength) (fst (chunk_step maxLength st sentence))
  /\ runningChunk sentences maxLength (snd (chunk_step maxLength st sentence)).
Proof.
  destruct st as [chunks cur]. cbn [fst snd]. intros Hin Hc Hcur.
  unfold chunk_step.
  destruct ((maxLength <? Z.of_nat (String_length (cur ++ sentence)))%Z && truthy cur) eqn:E;
    cbn [fst snd].
  - split; [ | right; exact Hin].
    apply Forall_app. split; [assumption | ].
    constructor; [apply runningChunk_trim; assumption | constructor].
  - split; [assumption | ].
    destruct cur as [ | c cur'].
    + right. exact Hin.
    + left. simpl truthy in *. rewrite andb_true_r in E. apply Z.ltb_ge in E.
      unfold String_length in *. rewrite !length_app in *. simpl in *. lia.
Qed.

Lemma chunk_fold_short sentences maxLength : forall l st,
  incl l sentences ->
  Forall (shortOrSentence sentences maxLength) (fst st) ->
  runningChunk sentences maxLength (snd st) ->
  Forall (shortOrSentence sentences maxLength)
    (fst (fold_left (chunk_step maxLength) l st))
  /\ runningChunk sentences maxLength (snd (fold_left (chunk_step maxLength) l st)).
Proof.
  induction l as [ | s l IH]; intros st Hincl Hc Hcur; simpl.
  - split; assumption.
  - destruct (chunk_step_short sentences maxLength st s) as [H1 H2]; auto.
    + apply Hincl. left. reflexivity.
    + apply IH; auto. intros x Hx. apply Hincl. right. assumption.
Qed.

(** X5. For a non-negative [maxLength], [chunkText] returns the text
    itself as the one chunk, or chunks each of which is at most
    [maxLength + 1] code units long or is one sentence of the text,
    trimmed. *)
Theorem chunkText_chunk_length :
  forall (text : jsstring) (maxLength : Z),
    (0 <= maxLength)%Z ->
    chunkText text maxLength = [text]
    \/ Forall (shortOrSentence (sentencesOf text) maxLength) (chunkText text maxLength).
Proof.
  intros text maxLength Hmax. unfold chunkText.
  destruct (chunk_fold_short (sentencesOf text) maxLength (sentencesOf text) ([], []))
    as [H1 H2].
  - apply incl_refl.
  - constructor.
  - left. simpl. lia.
  - destruct (fold_left _ _ _) as [chunks cur]. cbn [fst snd] in H1, H2.
    assert (H : Forall (shortOrSentence (sentencesOf text) maxLength)
                  (if truthy (trim cur) then chunks ++ [trim cur] else chunks)).
    { destruct (truthy (trim cur)); [ | assumption].
      apply Forall_app. split; [assumption | ].
      constructor; [apply runningChunk_trim; assumption | constructor]. }
    destruct (if truthy (trim cur) then chunks ++ [trim cur] else chunks);
      [left; reflexivity | right; assumption].
Qed.

(** *** Indexing and search *)

Section IndexingAndSearch.
Context {host : Host}.

Lemma getEmbedding_embeddingOf (s : VectorService.t) (chunk : jsstring) :
  truthy (apiKey s) = true ->
  getEmbedding s chunk = Return (embeddingOf (apiKey s) chunk).
Proof.
  intros Hkey. unfold getEmbedding, embeddingOf. rewrite Hkey. simpl negb. cbv iota.
  destruct (fetch_embeddings _ _ _ _) as [reason | [ | ] status [embedding | ]];
    reflexivity.
Qed.

Lemma addChunk_with_key (meeting : jsstring) (segment : Segment) (s : VectorService.t)
  (ic : nat * jsstring) :
  truthy (apiKey s) = true ->
  addChunk meeting segment
    (List.length (chunkText (seg_text segment) defaultMaxLength)) s ic
  = if (String_length (trim (snd ic)) <? 10)%nat then s
    else {| vectors := vectors s ++ [recordOf (apiKey s) meeting segment ic];
            apiKey := apiKey s |}.
Proof.
  intros Hkey. destruct ic as [i chunk]. unfold addChunk. simpl snd.
  rewrite (getEmbedding_embeddingOf s chunk Hkey). reflexivity.
Qed.

Lemma addChunk_fold (meeting : jsstring) (segment : Segment) :
  forall (l : list (nat * jsstring)) (s : VectorService.t),
    truthy (apiKey s) = true ->
    fold_left
      (addChunk meeting segment
         (List.length (chunkText (seg_text segment) defaultMaxLength))) l s
    = {| vectors :=
           vectors s
           ++ map (recordOf (apiKey s) meeting segment)
                (filter (fun ic => negb (String_length (trim (snd ic)) <? 10)%nat) l);
         apiKey := apiKey s |}.
Proof.
  induction l as [ | [i chunk] l IH]; intros s Hkey; cbn [fold_left].
  - simpl. rewrite app_nil_r. destruct s; reflexivity.
  - rewrite (addChunk_with_key meeting segment s (i, chunk) Hkey).
    simpl filter. simpl snd.
    destruct (String_length (trim chunk) <? 10)%nat; simpl negb; cbv iota.
    + apply IH. exact Hkey.
    + rewrite IH by exact Hkey. simpl vectors. simpl apiKey.
      rewrite <- app_assoc. reflexivity.
Qed.

Lemma addSegment_with_key (meeting : jsstring) (s : VectorService.t) (segment : Segment) :
  truthy (apiKey s) = true ->
  addSegment meeting s segment
  = {| vectors :=
         vectors s ++ map (recordOf (apiKey s) meeting segment) (indexedChunks segment);
       apiKey := apiKey s |}.
Proof. intros Hkey. unfold addSegment. apply addChunk_fold. exact Hkey. Qed.

Lemma addMeetingSegments_with_key (s : VectorService.t) (meeting : jsstring)
  (segments : list Segment) :
  truthy (apiKey s) = true ->
  addMeetingSegments s meeting segments
  = {| vectors := vectors s ++ indexedRecords (apiKey s) meeting segments;
       apiKey := apiKey s |}.
Proof.
  unfold addMeetingSegments. revert s.
  induction segments as [ | segment segments IH]; intros s Hkey; simpl.
  - rewrite app_nil_r. destruct s; reflexivity.
  - rewrite (addSegment_with_key meeting s segment Hkey).
    rewrite IH by exact Hkey. simpl vectors. simpl apiKey.
    rewrite <- app_assoc. reflexivity.
Qed.

(** What [addMeetingSegments] appends, with or without a key. *)
Lemma addMeetingSegments_appends (s : VectorService.t) (meeting : jsstring)
  (segments : list Segment) :
  addMeetingSegments s meeting segments
  = {| vectors :=
         vectors s
         ++ (if truthy (apiKey s) then indexedRecords (apiKey s) meeting segments
             else []);
       apiKey := apiKey s |}.
Proof.
  destruct (truthy (apiKey s)) eqn:Hkey.
  - apply addMeetingSegments_with_key. exact Hkey.
  - destruct s as [stored key]. simpl in *. destruct key; [ | discriminate].
    rewrite app_nil_r. apply addMeetingSegments_without_key.
Qed.

Lemma indexedRecords_meeting key meeting segments :
  Forall (fun v => meetingId (metadata v) = meeting)
    (indexedRecords key meeting segments).
Proof.
  apply Forall_forall. intros v Hv. unfold indexedRecords in Hv.
  apply in_flat_map in Hv. destruct Hv as (segment & _ & Hv).
  apply in_map_iff in Hv. destruct Hv as (ic & <- & _). reflexivity.
Qed.

Lemma slice0_incl {A} (limit : number) (l : list A) : incl (slice0 limit l) l.
Proof.
  intros x Hx. unfold slice0 in Hx.
  destruct (ToIntegerOrInfinity limit) as [ | k | ]; [destruct Hx | | exact Hx].
  destruct (k <? 0)%Z;
    match type of Hx with
    | In _ (firstn ?n _) => rewrite <- (firstn_skipn n l)
    end;
    apply in_or_app; left; exact Hx.
Qed.

Lemma slice0_length {A} (limit : number) (l : list A) :
  (List.length (slice0 limit l) <= List.length l)%nat.
Proof.
  unfold slice0.
  destruct (ToIntegerOrInfinity limit) as [ | k | ]; [simpl; lia | | lia].
  destruct (k <? 0)%Z; rewrite length_firstn; lia.
Qed.

Lemma slice0_at_most {A} (limit : number) (k : Z) (l : list A) :
  ToIntegerOrInfinity limit = Integer k -> (0 <= k)%Z ->
  (Z.of_nat (List.length (slice0 limit l)) <= k)%Z.
Proof.
  intros H Hk. unfold slice0. rewrite H.
  destruct (k <? 0)%Z eqn:E; [apply Z.ltb_lt in E; lia | ].
  rewrite length_firstn. lia.
Qed.

Lemma filter_length_le {A} (f : A -> bool) (l : list A) :
  (List.length (filter f l) <= List.length l)%nat.
Proof. induction l as [ | x l IH]; simpl; [lia | destruct (f x); simpl; lia]. Qed.

(** X6. With a non-empty key [getEmbedding] does not throw: it returns the
    vector of the reply when the endpoint answers ok with a body, and the
    fallback embedding of the cleaned text, of 384 components, in every
    other case (rejected request, error status, unreadable body). *)
Theorem getEmbedding_with_key_returns :
  forall (s : VectorService.t) (text : jsstring),
    truthy (apiKey s) = true ->
    let reply := fetch_embeddings apiUrl (apiKey s) model (cleanText text) in
    (forall status embedding,
        reply = HttpResponse true status (Some embedding) ->
        getEmbedding s text = Return embedding)
    /\ ((forall status embedding, reply <> HttpResponse true status (Some embedding)) ->
        getEmbedding s text = Return (getFallbackEmbedding (cleanText text)))
    /\ List.length (getFallbackEmbedding (cleanText text)) = dimension.
Proof.
  intros s text Hkey reply. rewrite (getEmbedding_with_key s text Hkey).
  fold reply. split; [ | split].
  - intros status embedding E. rewrite E. reflexivity.
  - intros Hno.
    destruct reply as [reason | [ | ] status [embedding | ]]; try reflexivity.
    exfalso. apply (Hno status embedding). reflexivity.
  - unfold getFallbackEmbedding.
    destruct (0 <? _); [rewrite length_map | ]; apply fallbackAccumulated_length.
Qed.

(** X7. With a non-empty key [addMeetingSegments] appends exactly one
    record for every chunk whose trimmed length is 10 or more, in the order
    of the segments and of their chunks, and the count grows by the number
    of those chunks: no embedding failure loses a chunk. *)
Theorem addMeetingSegments_indexes_kept_chunks :
  forall (s : VectorService.t) (meeting : jsstring) (segments : list Segment),
    truthy (apiKey s) = true ->
    vectors (addMeetingSegments s meeting segments)
    = vectors s ++ indexedRecords (apiKey s) meeting segments
    /\ getVectorCount (addMeetingSegments s meeting segments)
       = (getVectorCount s + List.length (flat_map indexedChunks segments))%nat.
Proof.
  intros s meeting segments Hkey.
  rewrite (addMeetingSegments_with_key s meeting segments Hkey).
  split; [reflexivity | ].
  unfold getVectorCount. simpl vectors. rewrite length_app. f_equal.
  unfold indexedRecords. induction segments as [ | segment segments IH]; simpl.
  - reflexivity.
  - rewrite !length_app, length_map, IH. reflexivity.
Qed.

(** X9. [addMeetingSegments] only appends, and leaves the key alone.
    Every appended record carries the meeting id, the id
    [meetingId_idx], the speaker and the time of one of the segments; its
    text is a chunk of that segment of trimmed length 10 or more, and its
    embedding is what [getEmbedding] returns for that chunk. *)
Theorem addMeetingSegments_provenance :
  forall (s : VectorService.t) (meeting : jsstring) (segments : list Segment),
    exists added,
      vectors (addMeetingSegments s meeting segments) = vectors s ++ added
      /\ apiKey (addMeetingSegments s meeting segments) = apiKey s
      /\ Forall
           (fun v =>
              meetingId (metadata v) = meeting
              /\ (10 <= String_length (trim (text (metadata v))))%nat
              /\ getEmbedding s (text (metadata v)) = Return (embedding v)
              /\ exists segment,
                   In segment segments
                   /\ segmentId (metadata v)
                      = meeting ++ js "_" ++ Number_toString (idx segment)
                   /\ speaker (metadata v) = seg_speaker segment
                   /\ timestamp (metadata v) = t_ segment
                   /\ In (text (metadata v))
                        (chunkText (seg_text segment) defaultMaxLength))
           added.
Proof.
  intros s meeting segments. rewrite addMeetingSegments_appends. simpl.
  eexists. split; [reflexivity | ]. split; [reflexivity | ].
  destruct (truthy (apiKey s)) eqn:Hkey; [ | constructor].
  apply Forall_forall. intros v Hv. unfold indexedRecords in Hv.
  apply in_flat_map in Hv. destruct Hv as (segment & Hseg & Hv).
  apply in_map_iff in Hv. destruct Hv as ([i chunk] & <- & Hic).
  unfold indexedChunks in Hic. apply filter_In in Hic. destruct Hic as [Hin Hlen].
  simpl in Hlen |- *. split; [reflexivity | ]. split.
  { apply negb_true_iff, Nat.ltb_ge in Hlen. exact Hlen. }
  split; [apply getEmbedding_embeddingOf; exact Hkey | ].
  exists segment. repeat split; try reflexivity; try assumption.
  apply in_combine_r in Hin. exact Hin.
Qed.

(** X10. With no key [addMeetingSegments] changes nothing: no record is
    stored, and no error is reported. *)
Theorem addMeetingSegments_needs_key :
  forall (s : VectorService.t) (meeting : jsstring) (segments : list Segment),
    truthy (apiKey s) = false ->
    addMeetingSegments s meeting segments = s
    /\ getVectorCount (addMeetingSegments s meeting segments) = getVectorCount s.
Proof.
  intros s meeting segments Hkey.
  assert (E : addMeetingSegments s meeting segments = s).
  { rewrite addMeetingSegments_appends, Hkey, app_nil_r. destruct s; reflexivity. }
  rewrite E. split; reflexivity.
Qed.

(** X11. [getMeetingVectors] returns records of the meeting asked for only;
    indexing a meeting leaves the records of every other meeting as they
    were, and the records of the indexed meeting are the old ones followed
    by all the appended ones. *)
Theorem getMeetingVectors_isolated :
  forall (s : VectorService.t) (meeting other : jsstring) (segments : list Segment),
    Forall (fun v => meetingId (metadata v) = other) (getMeetingVectors s other)
    /\ (other <> meeting ->
        getMeetingVectors (addMeetingSegments s meeting segments) other
        = getMeetingVectors s other)
    /\ exists added,
         vectors (addMeetingSegments s meeting segments) = vectors s ++ added
         /\ getMeetingVectors (addMeetingSegments s meeting segments) meeting
            = getMeetingVectors s meeting ++ added.
Proof.
  intros s meeting other segments. split; [ | split].
  - apply Forall_forall. intros v Hv. unfold getMeetingVectors in Hv.
    apply filter_In in Hv. apply String_eqb_eq, Hv.
  - intros Hne. rewrite addMeetingSegments_appends. unfold getMeetingVectors.
    simpl vectors. rewrite filter_app.
    rewrite (filter_all_false _ (if truthy (apiKey s) then _ else _));
      [apply app_nil_r | ].
    destruct (truthy (apiKey s)); [ | constructor].
    apply Forall_impl with (2 := indexedRecords_meeting (apiKey s) meeting segments).
    intros v Hv. rewrite Hv.
    destruct (String_eqb meeting other) eqn:E; [ | reflexivity].
    apply String_eqb_eq in E. congruence.
  - rewrite addMeetingSegments_appends. unfold getMeetingVectors. simpl vectors.
    eexists. split; [reflexivity | ]. rewrite filter_app. f_equal.
    destruct (truthy (apiKey s)); [ | reflexivity].
    pose proof (indexedRecords_meeting (apiKey s) meeting segments) as H.
    induction H as [ | v l Hv Hl IH]; simpl; [reflexivity | ].
    rewrite Hv, String_eqb_refl, IH. reflexivity.
Qed.

(** X12. [semanticSearch] never throws.  It returns no more results than
    records are stored, and no more than [limit] when [limit] is a
    non-negative integer; every result is a stored record scored with its
    cosine similarity to the embedding of the query, and that similarity
    is greater than 0.7. *)
Theorem semanticSearch_sound :
  forall (s : VectorService.t) (query : jsstring) (limit : number),
    exists results,
      semanticSearch s query limit = Return results
      /\ (List.length results <= getVectorCount s)%nat
      /\ (forall k, ToIntegerOrInfinity limit = Integer k -> (0 <= k)%Z ->
            (Z.of_nat (List.length results) <= k)%Z)
      /\ Forall
           (fun r =>
              In (vector r) (vectors s)
              /\ (0.7 <? similarity r) = true
              /\ exists queryEmbedding,
                   getEmbedding s query = Return queryEmbedding
                   /\ similarity r
                      = cosineSimilarity queryEmbedding (embedding (vector r)))
           results.
Proof.
  intros s query limit. unfold semanticSearch, getVectorCount.
  destruct (vectors s) as [ | v vs] eqn:Ev.
  - exists []. split; [reflexivity | ]. split; [simpl; lia | ].
    split; [intros k _ Hk; simpl; lia | constructor].
  - rewrite <- Ev. clear Ev v vs.
    destruct (getEmbedding s query) as [qe | e]; cbn [bind try_catch].
    + eexists. split; [reflexivity | ].
      set (ranking := sort bySimilarityDesc (map (score qe) (vectors s))).
      assert (Hlen : List.length ranking = List.length (vectors s)).
      { unfold ranking.
        rewrite (Permutation_length (sort_perm bySimilarityDesc _)).
        apply length_map. }
      split; [ | split].
      * pose proof (filter_length_le (fun result => 0.7 <? similarity result)
                      (slice0 limit ranking)).
        pose proof (slice0_length limit ranking). lia.
      * intros k Hk Hk0.
        pose proof (filter_length_le (fun result => 0.7 <? similarity result)
                      (slice0 limit ranking)).
        pose proof (slice0_at_most limit k ranking Hk Hk0). lia.
      * apply Forall_forall. intros r Hr. apply filter_In in Hr.
        destruct Hr as [Hr Hsim]. apply slice0_incl in Hr.
        apply (Permutation_in _ (sort_perm bySimilarityDesc _)) in Hr.
        apply in_map_iff in Hr. destruct Hr as (v & <- & Hv).
        split; [exact Hv | ]. split; [exact Hsim | ].
        exists qe. split; reflexivity.
    + exists []. split; [reflexivity | ]. split; [simpl; lia | ].
      split; [intros k _ Hk; simpl; lia | constructor].
Qed.

(** X13. When no stored embedding has the length of the embedding of the
    query, [semanticSearch] returns the empty list: every similarity is 0.
    This is the case of records embedded remotely and a query embedded by
    the 384-component fallback, or the other way round. *)
Theorem semanticSearch_dimension_mismatch :
  forall (s : VectorService.t) (query : jsstring) (limit : number)
         (queryEmbedding : list number),
    getEmbedding s query = Return queryEmbedding ->
    Forall (fun v => List.length (embedding v) <> List.length queryEmbedding)
      (vectors s) ->
    semanticSearch s query limit = Return [].
Proof.
  intros s query limit qe Hq Hdim. unfold semanticSearch. rewrite Hq.
  destruct (vectors s) as [ | v vs] eqn:Ev; [reflexivity | ].
  rewrite <- Ev in *. clear Ev v vs. cbn [bind try_catch]. f_equal.
  apply filter_all_false. apply Forall_forall. intros r Hr.
  apply slice0_incl in Hr.
  apply (Permutation_in _ (sort_perm bySimilarityDesc _)) in Hr.
  apply in_map_iff in Hr. destruct Hr as (v & <- & Hv).
  rewrite Forall_forall in Hdim. cbn [similarity score].
  rewrite cosineSimilarity_length_mismatch; [reflexivity | ].
  intros E. apply (Hdim v Hv). symmetry. exact E.
Qed.

(** X14. After [clear] the store counts 0 records, every search returns
    the empty list and every query the no-evidence result; importing what
    [exportVectors] returned before restores the store. *)
Theorem clear_and_restore :
  forall (s : VectorService.t) (rag : RAGService.t) (question : jsstring)
         (limit : number) (currentMeetingId : option jsstring),
    getVectorCount (clear s) = 0%nat
    /\ semanticSearch (clear s) question limit = Return []
    /\ RAGService.query rag (clear s) question currentMeetingId
       = Return RAGService.noEvidenceResult
    /\ importVectors (clear s) (exportVectors s) = s.
Proof.
  intros s rag question limit currentMeetingId.
  split; [reflexivity | ]. split; [reflexivity | ]. split.
  - unfold RAGService.query, RAGService.retrieveContext.
    rewrite semanticSearch_empty_store by reflexivity.
    destruct currentMeetingId as [[ | c id] | ]; reflexivity.
  - destruct s. reflexivity.
Qed.

End IndexingAndSearch.

(** X8. [addMeetingSegments] does not look at what is stored: with a
    non-empty key, indexing the same segments of the same meeting a second
    time appends as many records again, with the same metadata (segment
    id, meeting, speaker, time, text and chunk index) in the same order,
    whatever the embedding endpoint answers the second time. *)
Theorem addMeetingSegments_twice_duplicates :
  forall (host : Host) (s : VectorService.t) (meeting : jsstring)
         (segments : list Segment)
         (secondReplies :
            jsstring -> jsstring -> jsstring -> jsstring -> FetchReply (list number)),
    truthy (apiKey s) = true ->
    let once := addMeetingSegments s meeting segments in
    let twice :=
      addMeetingSegments (host := withEmbeddings secondReplies) once meeting
        segments in
    exists added again,
      vectors once = vectors s ++ added
      /\ vectors twice = vectors s ++ added ++ again
      /\ map metadata again = map metadata added
      /\ getVectorCount twice = (getVectorCount s + 2 * List.length added)%nat.
Proof.
  intros host s meeting segments secondReplies Hkey once twice.
  exists (indexedRecords (apiKey s) meeting segments),
         (indexedRecords (host := withEmbeddings secondReplies) (apiKey s) meeting
            segments).
  assert (Hmeta : map metadata
                    (indexedRecords (host := withEmbeddings secondReplies)
                       (apiKey s) meeting segments)
                  = map metadata (indexedRecords (apiKey s) meeting segments)).
  { unfold indexedRecords. induction segments as [ | segment segments IH];
      [reflexivity | ].
    cbn [flat_map]. rewrite !map_app, IH, !map_map. reflexivity. }
  unfold twice, once.
  rewrite (addMeetingSegments_with_key s meeting segments Hkey).
  rewrite (addMeetingSegments_with_key (host := withEmbeddings secondReplies))
    by exact Hkey.
  cbn [vectors apiKey]. unfold getVectorCount. cbn [vectors].
  split; [reflexivity | ]. split; [rewrite <- app_assoc; reflexivity | ].
  split; [exact Hmeta | ].
  apply (f_equal (@List.length _)) in Hmeta. rewrite !length_map in Hmeta.
  rewrite !length_app, Hmeta. lia.
Qed.

(** *** updateConfig *)

(** X15. [updateConfig] with the empty object changes nothing; two updates
    in a row are one update with the second object spread over the first;
    and repeating an update changes nothing more. *)
Theorem updateConfig_composes :
  forall (s : RAGService.t) (first second : RAGService.PartialRAGConfig),
    RAGService.updateConfig s emptyPartial = s
    /\ RAGService.updateConfig (RAGService.updateConfig s first) second
       = RAGService.updateConfig s (overlay first second)
    /\ RAGService.updateConfig (RAGService.updateConfig s first) first
       = RAGService.updateConfig s first.
Proof.
  intros [key [c1 c2 c3 c4 c5]] [a1 a2 a3 a4 a5] [b1 b2 b3 b4 b5].
  unfold RAGService.updateConfig, overlay. simpl. split; [reflexivity | ]. split.
  - destruct b1, b2, b3, b4, b5; reflexivity.
  - destruct a1, a2, a3, a4, a5; reflexivity.
Qed.

(** *** deduplicateResults *)
Section SortedInput.
Context {A : Type} (key : A -> number).

Lemma sort_insert_front (x : A) (l : list A) :
  is_nan (key x) = false ->
  Forall (nonIncreasing key x) l ->
  sort_insert (descending key) x l = x :: l.
Proof.
  intros Nx Hl. destruct l as [ | y l]; [reflexivity | ]. simpl.
  inversion Hl as [ | ? ? Hy _]; subst. unfold nonIncreasing in Hy.
  unfold descending. destruct (leb_not_nan _ _ Hy) as [Ny _].
  rewrite sub_ltb_zero by assumption.
  destruct (key x <? key y) eqn:E; [ | reflexivity].
  apply ltb_not_leb in E. congruence.
Qed.

Lemma sort_sorted_fixed : forall l,
  keysAreNumbers key l -> StronglySorted (nonIncreasing key) l ->
  sort (descending key) l = l.
Proof.
  induction l as [ | x l IH]; intros Nl Hs; [reflexivity | ]. simpl.
  inversion Nl as [ | ? ? Nx Nl']; subst.
  inversion Hs as [ | ? ? Hs' Hx]; subst.
  rewrite IH by assumption. apply sort_insert_front; assumption.
Qed.

End SortedInput.

Lemma Map_get_absent {V} (m : Map V) k : ~ In k (map fst m) -> Map_get m k = None.
Proof.
  induction m as [ | [k' v'] m IH]; simpl; intros H; [reflexivity | ].
  destruct (String_eqb k' k) eqn:E.
  - apply String_eqb_eq in E. subst. tauto.
  - apply IH. tauto.
Qed.

Lemma dedupe_fold_distinct : forall (l : list SimilarityResult) (m : Map SimilarityResult),
  NoDup (map segmentOf l) ->
  (forall r, In r l -> ~ In (segmentOf r) (map fst m)) ->
  fold_left RAGService.dedupe_step l m = m ++ map (fun r => (segmentOf r, r)) l.
Proof.
  induction l as [ | r l IH]; intros m Hnd Hfresh; simpl.
  - rewrite app_nil_r. reflexivity.
  - inversion Hnd as [ | ? ? Hr Hnd']; subst.
    unfold RAGService.dedupe_step at 2.
    change (segmentId (metadata (vector r))) with (segmentOf r).
    rewrite Map_get_absent by (apply Hfresh; left; reflexivity).
    rewrite Map_set_absent by (apply Hfresh; left; reflexivity).
    rewrite IH; [rewrite <- app_assoc; reflexivity | exact Hnd' | ].
    intros r' Hr' Hin. rewrite map_app in Hin. apply in_app_or in Hin.
    destruct Hin as [Hin | [Hin | []]].
    + apply (Hfresh r'); [right; exact Hr' | exact Hin].
    + simpl in Hin. apply Hr. rewrite Hin. apply in_map. exact Hr'.
Qed.

(** X16. On results whose similarities are numbers, [deduplicateResults]
    returns its input unchanged when the segment ids are distinct and the
    similarities non-increasing, and applying it twice is the same as
    applying it once. *)
Theorem deduplicateResults_idempotent :
  forall results : list SimilarityResult,
    keysAreNumbers similarity results ->
    (NoDup (map segmentOf results) ->
     StronglySorted (nonIncreasing similarity) results ->
     RAGService.deduplicateResults results = results)
    /\ RAGService.deduplicateResults (RAGService.deduplicateResults results)
       = RAGService.deduplicateResults results.
Proof.
  assert (Hfix : forall results : list SimilarityResult,
             keysAreNumbers similarity results ->
             NoDup (map segmentOf results) ->
             StronglySorted (nonIncreasing similarity) results ->
             RAGService.deduplicateResults results = results).
  { intros results Hnum Hnd Hs. unfold RAGService.deduplicateResults.
    rewrite dedupe_fold_distinct; [ | exact Hnd | intros r _ []].
    simpl app. unfold Map_values. rewrite map_map. simpl. rewrite map_id.
    apply (sort_sorted_fixed similarity); assumption. }
  intros results Hnum. split; [apply Hfix; exact Hnum | ].
  destruct (deduplicateResults_spec results Hnum) as (Hnd & Hin & _ & Hs).
  apply Hfix; [ | exact Hnd | exact Hs].
  unfold keysAreNumbers in *. rewrite Forall_forall in *.
  intros r Hr. apply Hnum, Hin, Hr.
Qed.

(** *** Retrieval and answers *)

Lemma StronglySorted_map {A B} (f : A -> B) (R : B -> B -> Prop) (l : list A) :
  StronglySorted (fun a b => R (f a) (f b)) l -> StronglySorted R (map f l).
Proof.
  induction 1 as [ | x l Hs IH Hx]; simpl; constructor; [exact IH | ].
  rewrite Forall_map. exact Hx.
Qed.

Section QueryProperties.
Context {host : Host}.

Lemma semanticSearch_from_store (s : VectorService.t) (q : jsstring) (limit : number)
  (results : list SimilarityResult) :
  semanticSearch s q limit = Return results ->
  Forall (fun r => In (vector r) (vectors s)) results.
Proof.
  unfold semanticSearch. destruct (vectors s) as [ | v vs] eqn:Ev.
  - intros E. injection E as <-. constructor.
  - rewrite <- Ev. clear Ev v vs.
    destruct (getEmbedding s q) as [qe | e]; cbn [bind try_catch]; intros E;
      injection E as <-; [ | constructor].
    apply Forall_forall. intros r Hr. apply filter_In in Hr. destruct Hr as [Hr _].
    apply slice0_incl in Hr.
    apply (Permutation_in _ (sort_perm bySimilarityDesc _)) in Hr.
    apply in_map_iff in Hr. destruct Hr as (v & <- & Hv). exact Hv.
Qed.

(** What [retrieveContext] returns, in terms of the results [kept] after
    the threshold filter. *)
Lemma retrieveContext_origin (rag : RAGService.t) (vs : VectorService.t)
  (question : jsstring) (currentMeetingId : option jsstring) :
  exists results out,
    semanticSearch vs question (RAGService.retrievalLimit (RAGService.config rag))
    = Return results
    /\ RAGService.retrieveContext rag vs question currentMeetingId = Return out
    /\ NoDup (map segmentOf out)
    /\ StronglySorted (nonIncreasing similarity) out
    /\ (forall r, In r out ->
          exists r0, In r0 results /\ vector r = vector r0
            /\ (RAGService.similarityThreshold (RAGService.config rag)
                <=? similarity r0) = true)
    /\ (forall r0, In r0 results ->
          (RAGService.similarityThreshold (RAGService.config rag) <=? similarity r0)
          = true ->
          In (segmentOf r0) (map segmentOf out)).
Proof.
  destruct (semanticSearch_returns vs question
              (RAGService.retrievalLimit (RAGService.config rag)))
    as (results & Hsearch & Hfilter).
  set (threshold := RAGService.similarityThreshold (RAGService.config rag)).
  set (kept := filter (fun r => threshold <=? similarity r) results).
  set (ranked :=
         match currentMeetingId with
         | Some id => if truthy id then RAGService.boostCurrentMeeting kept id else kept
         | None => kept
         end).
  exists results, (RAGService.deduplicateResults ranked).
  assert (Hkept : keysAreNumbers similarity kept).
  { unfold keysAreNumbers. apply Forall_forall. intros r Hr.
    apply filter_In in Hr. destruct Hr as [Hr _].
    rewrite Forall_forall in Hfilter. apply Hfilter in Hr.
    apply ltb_not_nan in Hr. apply Hr. }
  assert (Hranked : keysAreNumbers similarity ranked
                    /\ (forall r, In r ranked ->
                          exists r0, In r0 kept /\ vector r = vector r0)
                    /\ (forall r0, In r0 kept ->
                          exists r, In r ranked /\ vector r = vector r0)).
  { assert (Hsame : keysAreNumbers similarity kept
                    /\ (forall r, In r kept ->
                          exists r0, In r0 kept /\ vector r = vector r0)
                    /\ (forall r0, In r0 kept ->
                          exists r, In r kept /\ vector r = vector r0)).
    { split; [exact Hkept | ].
      split; intros r Hr; exists r; split; [exact Hr | reflexivity | exact Hr | reflexivity]. }
    unfold ranked. destruct currentMeetingId as [id | ]; [ | exact Hsame].
    destruct (truthy id); [ | exact Hsame].
    destruct (boostCurrentMeeting_spec kept id Hkept) as (Hp & Hn & _).
    split; [exact Hn | ]. split.
    - intros r Hr. apply (Permutation_in _ Hp) in Hr.
      apply in_map_iff in Hr. destruct Hr as (r0 & <- & Hr0).
      exists r0. split; [exact Hr0 | reflexivity].
    - intros r0 Hr0. exists (boostOne id r0). split; [ | reflexivity].
      apply (Permutation_in _ (Permutation_sym Hp)). apply in_map. exact Hr0. }
  destruct Hranked as (Hnum & Hfrom & Hto).
  destruct (deduplicateResults_spec ranked Hnum) as (Hnd & Hin & Hbest & Hs).
  split; [exact Hsearch | ]. split.
  { unfold RAGService.retrieveContext. rewrite Hsearch. reflexivity. }
  split; [exact Hnd | ]. split; [exact Hs | ]. split.
  - intros r Hr. destruct (Hfrom r (Hin r Hr)) as (r0 & Hr0 & Ev).
    apply filter_In in Hr0. destruct Hr0 as [Hr0 Hle].
    exists r0. repeat split; assumption.
  - intros r0 Hr0 Hle.
    assert (Hk : In r0 kept) by (apply filter_In; split; assumption).
    destruct (Hto r0 Hk) as (r & Hr & Ev).
    destruct (Hbest r Hr) as (best & Hb & Hid & _).
    apply in_map_iff. exists best. split; [ | exact Hb].
    rewrite Hid. unfold segmentOf. rewrite Ev. reflexivity.
Qed.

(** X17. The current meeting changes the order and the scores of what
    [retrieveContext] returns, not the segments: for any two values of
    [currentMeetingId] the results have the same segment ids, and there are
    as many of them. *)
Theorem retrieveContext_same_segments :
  forall (rag : RAGService.t) (vs : VectorService.t) (question : jsstring)
         (meeting1 meeting2 : option jsstring),
    exists out1 out2,
      RAGService.retrieveContext rag vs question meeting1 = Return out1
      /\ RAGService.retrieveContext rag vs question meeting2 = Return out2
      /\ Permutation (map segmentOf out1) (map segmentOf out2)
      /\ List.length out1 = List.length out2.
Proof.
  intros rag vs question meeting1 meeting2.
  destruct (retrieveContext_origin rag vs question meeting1)
    as (results1 & out1 & Hs1 & H1 & Hnd1 & _ & Hfrom1 & Hto1).
  destruct (retrieveContext_origin rag vs question meeting2)
    as (results2 & out2 & Hs2 & H2 & Hnd2 & _ & Hfrom2 & Hto2).
  rewrite Hs1 in Hs2. injection Hs2 as <-.
  exists out1, out2. split; [exact H1 | ]. split; [exact H2 | ].
  assert (Hp : Permutation (map segmentOf out1) (map segmentOf out2)).
  { apply NoDup_Permutation; [exact Hnd1 | exact Hnd2 | ].
    intros id. split; intros Hid; apply in_map_iff in Hid;
      destruct Hid as (r & <- & Hr).
    - destruct (Hfrom1 r Hr) as (r0 & Hr0 & Ev & Hle).
      unfold segmentOf at 1. rewrite Ev. apply Hto2; assumption.
    - destruct (Hfrom2 r Hr) as (r0 & Hr0 & Ev & Hle).
      unfold segmentOf at 1. rewrite Ev. apply Hto1; assumption. }
  split; [exact Hp | ].
  apply Permutation_length in Hp. rewrite !length_map in Hp. exact Hp.
Qed.

Lemma generateAnswer_total (s : RAGService.t) (question context : jsstring)
  (currentMeetingId : option jsstring) :
  exists answer,
    RAGService.generateAnswer s question context currentMeetingId = Return answer.
Proof.
  unfold RAGService.generateAnswer. destruct (negb (truthy (RAGService.apiKey s))).
  - eexists. reflexivity.
  - destruct (fetch_chat _ _ _ _ _ _ _) as [reason | [ | ] status [content | ]];
      eexists; reflexivity.
Qed.

(** X18. [generateAnswer] never throws.  Without a key it returns the
    fallback answer (whatever the endpoint would answer); with a key it
    returns the trimmed content of the reply when the endpoint answers ok
    with a body, and the fallback answer in every other case. *)
Theorem generateAnswer_returns :
  forall (s : RAGService.t) (question context : jsstring)
         (currentMeetingId : option jsstring),
    let reply :=
      fetch_chat RAGService.apiUrl (RAGService.apiKey s) RAGService.model
        (RAGService.createSystemPrompt currentMeetingId)
        (RAGService.createUserPrompt question context)
        (RAGService.temperature (RAGService.config s))
        (RAGService.maxTokens (RAGService.config s)) in
    RAGService.generateAnswer s question context currentMeetingId
    = Return
        (if truthy (RAGService.apiKey s) then
           match reply with
           | HttpResponse true _ (Some content) => trim content
           | _ => RAGService.generateFallbackAnswer question context
           end
         else RAGService.generateFallbackAnswer question context)
    /\ (forall status content,
          truthy (RAGService.apiKey s) = true ->
          reply = HttpResponse true status (Some content) ->
          RAGService.generateAnswer s question context currentMeetingId
          = Return (trim content)
          /\ trim (trim content) = trim content).
Proof.
  intros s question context currentMeetingId reply.
  assert (E : RAGService.generateAnswer s question context currentMeetingId
              = Return
                  (if truthy (RAGService.apiKey s) then
                     match reply with
                     | HttpResponse true _ (Some content) => trim content
                     | _ => RAGService.generateFallbackAnswer question context
                     end
                   else RAGService.generateFallbackAnswer question context)).
  { unfold RAGService.generateAnswer. fold reply.
    destruct (truthy (RAGService.apiKey s)); cbn [negb]; [ | reflexivity].
    destruct reply as [reason | [ | ] status [content | ]]; reflexivity. }
  split; [exact E | ].
  intros status content Hkey Hreply. rewrite E, Hkey, Hreply.
  split; [reflexivity | apply trim_idempotent].
Qed.

(** X19. [query] never throws.  Its sources have pairwise distinct segment
    ids and non-increasing similarities, each cites a record of the store
    (id, meeting, speaker, time and text), and only the fixed no-evidence
    result has no source. *)
Theorem query_sources_grounded :
  forall (rag : RAGService.t) (vs : VectorService.t) (question : jsstring)
         (currentMeetingId : option jsstring),
    exists result,
      RAGService.query rag vs question currentMeetingId = Return result
      /\ (RAGService.sources result = [] -> result = RAGService.noEvidenceResult)
      /\ NoDup (map RAGService.src_segmentId (RAGService.sources result))
      /\ StronglySorted (nonIncreasing RAGService.src_similarity)
           (RAGService.sources result)
      /\ Forall (fun src => exists v, In v (vectors vs) /\ cites src v)
           (RAGService.sources result).
Proof.
  intros rag vs question currentMeetingId.
  destruct (retrieveContext_origin rag vs question currentMeetingId)
    as (results & out & Hsearch & Hout & Hnd & Hs & Hfrom & _).
  pose proof (semanticSearch_from_store _ _ _ _ Hsearch) as Hstore.
  unfold RAGService.query. rewrite Hout. cbn [bind].
  destruct out as [ | r out'].
  - exists RAGService.noEvidenceResult. split; [reflexivity | ].
    split; [reflexivity | ]. simpl. repeat split; constructor.
  - cbv iota.
    destruct (generateAnswer_total rag question
                (fst (RAGService.prepareContext rag (r :: out'))) currentMeetingId)
      as [answer Ha].
    rewrite Ha. cbn [bind]. eexists. split; [reflexivity | ].
    cbn [RAGService.sources]. set (out := r :: out') in *.
    split; [ | split; [ | split]].
    + intros E. apply map_eq_nil in E. discriminate E.
    + rewrite map_map. exact Hnd.
    + apply StronglySorted_map. exact Hs.
    + rewrite Forall_map. apply Forall_forall. intros cited Hr.
      destruct (Hfrom cited Hr) as (r0 & Hr0 & Ev & _).
      rewrite Forall_forall in Hstore. exists (vector cited).
      split; [rewrite Ev; apply Hstore; exact Hr0 | ].
      repeat split.
Qed.

End QueryProperties.

(** *** prepareContext and the fallback answer *)
Lemma startsWith_app_r p s b : startsWith p s = true -> startsWith p (s ++ b) = true.
Proof.
  revert s. induction p as [ | x p IH]; intros s H; [reflexivity | ].
  destruct s as [ | y s]; [discriminate | ]. simpl in *.
  apply andb_true_iff in H. destruct H as [H1 H2].
  rewrite H1, (IH s H2). reflexivity.
Qed.

Lemma startsWith_refl p : startsWith p p = true.
Proof. induction p as [ | x p IH]; simpl; [reflexivity | ]. rewrite Z.eqb_refl. exact IH. Qed.

Lemma includes_here s p : startsWith p s = true -> includes s p = true.
Proof. intros H. destruct s; simpl in *; rewrite H; reflexivity. Qed.

Lemma includes_app_skip a s p : includes s p = true -> includes (a ++ s) p = true.
Proof.
  intros H. induction a as [ | c a IH]; [exact H | ].
  simpl. rewrite IH. apply orb_true_r.
Qed.

Lemma includes_app_l s b p : includes s p = true -> includes (s ++ b) p = true.
Proof.
  induction s as [ | c s IH]; intros H.
  - simpl in H. rewrite orb_false_r in H.
    apply includes_here. destruct p; [reflexivity | discriminate].
  - simpl in H. apply orb_true_iff in H. destruct H as [H | H].
    + apply includes_here. apply (startsWith_app_r p (c :: s) b H).
    + simpl. rewrite (IH H). apply orb_true_r.
Qed.

Lemma includes_refl p : includes p p = true.
Proof. apply includes_here, startsWith_refl. Qed.

Lemma join_cons sep : forall l x,
  join sep (x :: l) = x ++ List.concat (map (fun y => sep ++ y) l).
Proof.
  induction l as [ | y l IH]; intros x.
  - simpl. rewrite app_nil_r. reflexivity.
  - change (join sep (x :: y :: l)) with (x ++ sep ++ join sep (y :: l)).
    rewrite IH. simpl. rewrite <- ?app_assoc. reflexivity.
Qed.

Lemma join_In sep (x : jsstring) : forall l,
  In x l -> exists a b, join sep l = a ++ x ++ b.
Proof.
  induction l as [ | y l IH]; intros H; [destruct H | ].
  destruct H as [-> | H].
  - rewrite join_cons.
    exists [], (List.concat (map (fun y => sep ++ y) l)). reflexivity.
  - destruct l as [ | z l]; [destruct H | ].
    destruct (IH H) as (a & b & E).
    change (join sep (y :: z :: l)) with (y ++ sep ++ join sep (z :: l)).
    rewrite E. exists (y ++ sep ++ a), b. rewrite <- !app_assoc. reflexivity.
Qed.

Lemma combine_seq_In {A} (y : A) : forall l start n,
  In y l -> (List.length l <= n)%nat ->
  exists i, In (i, y) (combine (seq start n) l).
Proof.
  induction l as [ | x l IH]; intros start n H Hn; [destruct H | ].
  destruct n as [ | n]; [simpl in Hn; lia | ]. simpl.
  destruct H as [-> | H].
  - exists start. left. reflexivity.
  - destruct (IH (S start) n H) as [i Hi]; [simpl in Hn; lia | ].
    exists i. right. exact Hi.
Qed.

Section ContextProperties.
Context {host : Host}.

Lemma contextLine_truthy r : truthy (contextLine r) = true.
Proof. reflexivity. Qed.

Lemma appendLine_truthy context r : truthy (appendLine context r) = true.
Proof.
  unfold appendLine. destruct context as [ | c context]; [ | reflexivity].
  exact (contextLine_truthy r).
Qed.

Lemma appendLine_fold : forall l context,
  truthy context = true ->
  fold_left appendLine l context
  = context
    ++ List.concat
         (map (fun y => (RAGService.newline ++ RAGService.newline) ++ y)
            (map contextLine l)).
Proof.
  induction l as [ | r l IH]; intros context Hc; cbn [fold_left map List.concat].
  - rewrite app_nil_r. reflexivity.
  - rewrite (IH (appendLine context r) (appendLine_truthy context r)).
    unfold appendLine. rewrite Hc. rewrite <- !app_assoc. reflexivity.
Qed.

Lemma appendLine_join l :
  fold_left appendLine l []
  = join (RAGService.newline ++ RAGService.newline) (map contextLine l).
Proof.
  destruct l as [ | r l]; [reflexivity | ].
  cbn [map]. rewrite join_cons. cbn [fold_left].
  rewrite (appendLine_fold l _ (appendLine_truthy [] r)). reflexivity.
Qed.

Lemma prepareContext_loop_prefix (cfg : RAGService.RAGConfig) :
  forall (results : list SimilarityResult) (context : jsstring),
    exists k,
      (k <= List.length results)%nat
      /\ RAGService.prepareContext_loop cfg results context
         = (fold_left appendLine (firstn k results) context,
            (k <? List.length results)%nat)
      /\ (forall r, nth_error results k = Some r ->
            (RAGService.maxContextLength cfg
             <? number_of_nat
                  (String_length
                     (fold_left appendLine (firstn k results) context
                      ++ contextLine r))) = true)
      /\ (forall j r, (j < k)%nat -> nth_error results j = Some r ->
            (RAGService.maxContextLength cfg
             <? number_of_nat
                  (String_length
                     (fold_left appendLine (firstn j results) context
                      ++ contextLine r))) = false).
Proof.
  induction results as [ | result rest IH]; intros context.
  - exists 0%nat. simpl. split; [lia | ]. split; [reflexivity | ].
    split; [intros r H; discriminate | intros j r H; lia].
  - cbn [RAGService.prepareContext_loop]. cbv zeta.
    change (js "[" ++ RAGService.formatTime (timestamp (metadata (vector result)))
            ++ js "] " ++ speaker (metadata (vector result)) ++ js ": "
            ++ text (metadata (vector result)))
      with (contextLine result).
    destruct (RAGService.maxContextLength cfg
              <? number_of_nat (String_length (context ++ contextLine result))) eqn:E.
    + exists 0%nat. simpl. split; [lia | ]. split; [reflexivity | ].
      split; [ | intros j r H; lia].
      intros r H. injection H as <-. exact E.
    + change (context
              ++ (if truthy context then RAGService.newline ++ RAGService.newline
                  else [])
              ++ contextLine result)
        with (appendLine context result).
      destruct (IH (appendLine context result)) as (k & Hk & Hloop & Hnext & Hfit).
      exists (S k). split; [simpl; lia | ]. split; [exact Hloop | ].
      split; [exact Hnext | ].
      intros [ | j] r Hj Hr.
      * simpl in Hr. injection Hr as <-. exact E.
      * apply (Hfit j r); [lia | exact Hr].
Qed.

(** X20. The context of [prepareContext] is made of the lines of the first
    [k] results, joined by an empty line, and [truncated] tells whether a
    result was left out.  The loop stops at the first line that does not
    fit (later, shorter lines are not tried); the test compares the length
    of the context so far plus the line with [maxContextLength], the
    separator left out. *)
Theorem prepareContext_prefix :
  forall (s : RAGService.t) (results : list SimilarityResult),
    let separator := RAGService.newline ++ RAGService.newline in
    let limit := RAGService.maxContextLength (RAGService.config s) in
    exists k,
      (k <= List.length results)%nat
      /\ fst (RAGService.prepareContext s results)
         = join separator (map contextLine (firstn k results))
      /\ snd (RAGService.prepareContext s results) = (k <? List.length results)%nat
      /\ (forall r, nth_error results k = Some r ->
            (limit
             <? number_of_nat
                  (String_length
                     (fst (RAGService.prepareContext s results) ++ contextLine r)))
            = true)
      /\ (forall j r, (j < k)%nat -> nth_error results j = Some r ->
            (limit
             <? number_of_nat
                  (String_length
                     (join separator (map contextLine (firstn j results))
                      ++ contextLine r)))
            = false).
Proof.
  intros s results separator limit. unfold RAGService.prepareContext.
  destruct (prepareContext_loop_prefix (RAGService.config s) results [])
    as (k & Hk & Hloop & Hnext & Hfit).
  exists k. rewrite Hloop. cbn [fst snd]. unfold separator.
  rewrite <- appendLine_join.
  split; [exact Hk | ]. split; [reflexivity | ]. split; [reflexivity | ].
  split; [exact Hnext | ].
  intros j r Hj Hr. rewrite <- appendLine_join. apply (Hfit j r Hj Hr).
Qed.

(** X21. The fallback answer always contains the marker of the basic
    retrieval mode, it quotes each of the first three blocks of the context
    verbatim, and it does not depend on the question. *)
Theorem generateFallbackAnswer_contents :
  forall question context : jsstring,
    includes (RAGService.generateFallbackAnswer question context) (js "基础检索模式")
    = true
    /\ (forall line,
          In line (firstn 3 (split_string (RAGService.newline ++ RAGService.newline)
                               context)) ->
          includes (RAGService.generateFallbackAnswer question context) line = true)
    /\ (forall other,
          RAGService.generateFallbackAnswer other context
          = RAGService.generateFallbackAnswer question context).
Proof.
  intros question context. split; [ | split].
  3: { intros other. unfold RAGService.generateFallbackAnswer. reflexivity. }
  - unfold RAGService.generateFallbackAnswer. cbv zeta.
    do 3 apply includes_app_skip. apply includes_app_skip.
    do 2 apply includes_app_skip. apply includes_app_skip.
    do 2 apply includes_app_skip.
    vm_compute. reflexivity.
  - intros line Hline. unfold RAGService.generateFallbackAnswer. cbv zeta.
    do 3 apply includes_app_skip. apply includes_app_l.
    destruct (combine_seq_In line _ 0%nat 3%nat Hline) as [i Hi].
    { rewrite length_firstn. lia. }
    match goal with
    | |- includes (join ?sep (map ?f ?l)) _ = true =>
      destruct (join_In sep (f (i, line)) (map f l) (in_map f l (i, line) Hi))
        as (a & b & E);
      rewrite E
    end.
    apply includes_app_skip, includes_app_l.
    cbv beta. cbn [fst snd]. do 2 apply includes_app_skip. apply includes_refl.
Qed.

End ContextProperties.

(** *** Lengths as numbers

    Integers below 2^53 are converted exactly, so that comparing two such
    lengths as numbers compares them. *)
Lemma shr_fexp_exact mz ez :
  Zpos (digits2_pos mz) = 53%Z -> (-1074 <= ez)%Z ->
  shr_fexp prec emax (Zpos mz) ez loc_Exact
  = (shr_record_of_loc (Zpos mz) loc_Exact, ez).
Proof.
  intros Hd He. unfold shr_fexp, shr. rewrite fexp_eq. unfold fexp64.
  simpl Zdigits2. rewrite Hd.
  replace (Z.max (53 + ez - 53) (-1074) - ez)%Z with 0%Z by lia. reflexivity.
Qed.

Lemma binary_round_aux_exact mz ez :
  Zpos (digits2_pos mz) = 53%Z -> (-1074 <= ez <= 971)%Z ->
  binary_round_aux prec emax false (Zpos mz) ez loc_Exact = S754_finite false mz ez.
Proof.
  intros Hd He. unfold binary_round_aux.
  rewrite (shr_fexp_exact mz ez Hd) by lia.
  cbn [shr_record_of_loc shr_m loc_of_shr_record shr_r shr_s round_nearest_even].
  rewrite (shr_fexp_exact mz ez Hd) by lia.
  cbn [shr_record_of_loc shr_m].
  change (emax - prec)%Z with 971%Z.
  destruct (ez <=? 971)%Z eqn:E; [reflexivity | apply Z.leb_gt in E; lia].
Qed.

Lemma binary_round_exact p :
  (Zpos p < 2 ^ 53)%Z ->
  exists m e,
    binary_round prec emax false p 0 = S754_finite false m e
    /\ (-52 <= e <= 0)%Z
    /\ Zpos m = (Zpos p * 2 ^ (- e))%Z.
Proof.
  intros Hp. unfold binary_round.
  pose proof (digits2_pos_bounds p) as [Hlo Hhi].
  assert (Hd : (Zpos (digits2_pos p) <= 53)%Z).
  { destruct (Z.le_gt_cases (Zpos (digits2_pos p)) 53) as [Hle | Hgt]; [exact Hle | ].
    assert (2 ^ 53 <= 2 ^ (Zpos (digits2_pos p) - 1))%Z
      by (apply Z.pow_le_mono_r; lia).
    lia. }
  pose proof (shl_align_spec p 0 (SpecFloat.fexp prec emax (Zpos (digits2_pos p) + 0)))
    as [Hm Hs].

  destruct (shl_align p 0 _) as [mz ez]. cbn [fst snd] in *.
  rewrite fexp_eq in Hs. unfold fexp64 in Hs.
  assert (Hez : ez = (Zpos (digits2_pos p) - 53)%Z) by lia.
  assert (Hdz : Zpos (digits2_pos mz) = (Zpos (digits2_pos p) + (0 - ez))%Z)
    by (apply digits2_pos_shift; [lia | exact Hm]).
  exists mz, ez. split; [apply binary_round_aux_exact; lia | ].
  split; [lia | ]. rewrite Hm. f_equal.
Qed.

Lemma Prim2SF_number_of_nat n :
  (Z.of_nat n < 2 ^ 63)%Z ->
  Prim2SF (number_of_nat n) = binary_normalize prec emax (Z.of_nat n) 0 false.
Proof.
  intros Hn. unfold number_of_nat. rewrite FloatAxioms.of_uint63_spec.
  rewrite Uint63.of_Z_spec, Z.mod_small; [reflexivity | ].
  change Uint63.wB with (2 ^ 63)%Z. lia.
Qed.

Lemma number_of_nat_ltb a b :
  (Z.of_nat a < 2 ^ 53)%Z -> (Z.of_nat b < 2 ^ 53)%Z ->
  (number_of_nat a <? number_of_nat b) = (a <? b)%nat.
Proof.
  intros Ha Hb. rewrite FloatAxioms.ltb_spec.
  pose proof (Prim2SF_valid (number_of_nat a)) as Va.
  pose proof (Prim2SF_valid (number_of_nat b)) as Vb.
  rewrite (Prim2SF_number_of_nat a) in * by lia.
  rewrite (Prim2SF_number_of_nat b) in * by lia.
  assert (Eab : (a <? b)%nat = (Z.of_nat a <? Z.of_nat b)%Z).
  { destruct (a <? b)%nat eqn:E1; symmetry;
      [apply Nat.ltb_lt in E1; apply Z.ltb_lt | apply Nat.ltb_ge in E1; apply Z.ltb_ge];
      lia. }
  rewrite Eab. clear Eab.
  destruct (Z.of_nat a) as [ | p | p] eqn:Ea; [ | | lia];
    destruct (Z.of_nat b) as [ | q | q] eqn:Eb; try lia; simpl binary_normalize in *.
  - reflexivity.
  - destruct (binary_round_exact q Hb) as (m & e & E & _ & _). rewrite E. reflexivity.
  - destruct (binary_round_exact p Ha) as (m & e & E & _ & _). rewrite E. reflexivity.
  - destruct (binary_round_exact p Ha) as (mp & ep & Ep & Hep & Hmp).
    destruct (binary_round_exact q Hb) as (mq & eq & Eq & Heq & Hmq).
    rewrite Ep, Eq in *. unfold SFltb.
    rewrite (SFcompare_finite _ _ _ _ _ _ Va Vb).
    rewrite !scaled_eq by lia. cbn [cond_Zopp]. rewrite Hmp, Hmq.
    rewrite <- !Z.mul_assoc, <- !Z.pow_add_r by lia.
    replace (- ep + (ep - Z.min ep eq))%Z with (- Z.min ep eq)%Z by lia.
    replace (- eq + (eq - Z.min ep eq))%Z with (- Z.min ep eq)%Z by lia.
    assert (Hpow : (0 < 2 ^ (- Z.min ep eq))%Z) by (apply Z.pow_pos_nonneg; lia).
    unfold Z.ltb.
    destruct (Z.compare_spec (Zpos p) (Zpos q)) as [Hc | Hc | Hc];
      destruct (Z.compare_spec (Zpos p * 2 ^ (- Z.min ep eq))
                  (Zpos q * 2 ^ (- Z.min ep eq)))%Z as [Hd | Hd | Hd];
      try reflexivity; nia.
Qed.

Lemma firstn_snoc {A} (l : list A) : forall j r,
  nth_error l j = Some r -> firstn (S j) l = firstn j l ++ [r].
Proof.
  induction l as [ | x l IH]; intros [ | j] r H; try discriminate.
  - simpl in H. injection H as <-. reflexivity.
  - simpl in H.
    change (firstn (S (S j)) (x :: l)) with (x :: firstn (S j) l).
    rewrite (IH j r H). reflexivity.
Qed.

Section ContextBound.
Context {host : Host}.

(** X22. When [maxContextLength] is a natural number below 2^53 (and the
    context is shorter than 2^53 units, as every string is), the context of
    [prepareContext] is at most two code units longer than
    [maxContextLength]: the separator before the last line is not
    counted. *)
Theorem prepareContext_length_bound :
  forall (s : RAGService.t) (results : list SimilarityResult) (limit : nat),
    RAGService.maxContextLength (RAGService.config s) = number_of_nat limit ->
    (Z.of_nat limit < 2 ^ 53)%Z ->
    (Z.of_nat (String_length (fst (RAGService.prepareContext s results))) < 2 ^ 53)%Z ->
    (String_length (fst (RAGService.prepareContext s results)) <= limit + 2)%nat.
Proof.
  intros s results limit Hlimit Hsmall. unfold RAGService.prepareContext.
  destruct (prepareContext_loop_prefix (RAGService.config s) results [])
    as (k & Hk & Hloop & _ & Hfit).
  rewrite Hloop. cbn [fst]. destruct k as [ | j]; [simpl; lia | ].
  destruct (nth_error results j) as [r | ] eqn:Er;
    [ | apply nth_error_None in Er; lia].
  rewrite (firstn_snoc results j r Er), fold_left_app. cbn [fold_left].
  specialize (Hfit j r ltac:(lia) Er). rewrite Hlimit in Hfit.
  set (context := fold_left appendLine (firstn j results) []) in *.
  unfold appendLine, String_length in *. rewrite !length_app in *.
  intros Hlen. rewrite number_of_nat_ltb in Hfit by lia.
  apply Nat.ltb_ge in Hfit.
  assert (Hsep : (List.length
                    (if truthy context then RAGService.newline ++ RAGService.newline
                     else []) <= 2)%nat)
    by (destruct (truthy context); simpl; lia).
  lia.
Qed.

End ContextBound.

(** *** The singletons and the hook [useRAG] *)

Section CallerProperties.

Import Web App.
Context {host : Host}.


Lemma Map_get_set_same {V} (m : Map V) k v : Map_get (Map_set m k v) k = Some v.
Proof.
  induction m as [ | [k' v'] m IH]; simpl.
  - rewrite String_eqb_refl. reflexivity.
  - destruct (String_eqb k' k) eqn:E; simpl; rewrite E; [reflexivity | exact IH].
Qed.

Lemma initialKey_stored (storage : Storage) (key : jsstring) :
  initialKey None (setItem storage keyName key) = key.
Proof.
  unfold initialKey, getItem, setItem. rewrite Map_get_set_same.
  destruct key; reflexivity.
Qed.

Lemma setItem_twice (storage : Storage) (k v : jsstring) :
  setItem (setItem storage k v) k v = setItem storage k v.
Proof.
  unfold setItem. induction storage as [ | [k' v'] m IH]; simpl.
  - rewrite String_eqb_refl. reflexivity.
  - destruct (String_eqb k' k) eqn:E; simpl; rewrite E; [reflexivity | ].
    rewrite IH. reflexivity.
Qed.

(** X23. [ragService.setApiKey] gives the key to both services, and
    leaves the stored records and the configuration alone;
    [vectorService.setApiKey] gives it to the vector service only.  Both
    write it to [localStorage], so that after a reload both services start
    with it, with an empty store and the default configuration. *)
Theorem setApiKey_persists :
  forall (w : World) (key : jsstring),
    let viaRag := RAGService_setApiKey w key in
    let viaVectors := VectorService_setApiKey w key in
    (RAGService.apiKey (ragService viaRag) = key
     /\ VectorService.apiKey (vectorService viaRag) = key
     /\ VectorService.vectors (vectorService viaRag)
        = VectorService.vectors (vectorService w)
     /\ RAGService.config (ragService viaRag) = RAGService.config (ragService w))
    /\ (VectorService.apiKey (vectorService viaVectors) = key
        /\ ragService viaVectors = ragService w)
    /\ localStorage viaRag = localStorage viaVectors
    /\ load (localStorage viaVectors)
       = {| localStorage := localStorage viaVectors;
            vectorService :=
              {| VectorService.vectors := []; VectorService.apiKey := key |};
            ragService :=
              {| RAGService.apiKey := key;
                 RAGService.config := RAGService.defaultConfig |} |}.
Proof.
  intros w key viaRag viaVectors.
  split; [repeat split | ]. split; [repeat split | ]. split.
  - unfold viaRag, viaVectors, RAGService_setApiKey, VectorService_setApiKey.
    cbn [localStorage]. apply setItem_twice.
  - unfold load, newVectorService, newRAGService, viaVectors, VectorService_setApiKey.
    cbn [localStorage]. rewrite initialKey_stored. reflexivity.
Qed.


(** X24. [configureRAG] stores the key in both services and in
    [localStorage] before it tests the connection, and keeps it whatever
    the test says.  It reports success, and sets [isConfigured], exactly
    when the key is non-empty and the endpoint answers ok; a failure comes
    with an error message.  On the next mount [isConfigured] is true for
    every non-empty key, tested or not. *)
Theorem configureRAG_keeps_key :
  forall (probe : jsstring -> jsstring -> jsstring -> FetchReply unit)
         (w : World) (st : UseRAG.t) (key : jsstring),
    let configured := UseRAG.configureRAG probe w st key in
    let w' := fst (fst configured) in
    let st' := snd (fst configured) in
    let outcome := snd configured in
    RAGService.apiKey (ragService w') = key
    /\ VectorService.apiKey (vectorService w') = key
    /\ getItem (localStorage w') keyName = Some key
    /\ UseRAG.isConfigured (UseRAG.status st') = success outcome
    /\ UseRAG.isLoading (UseRAG.status st') = false
    /\ UseRAG.lastError (UseRAG.status st') = error outcome
    /\ (success outcome = true <->
        truthy key = true
        /\ exists status body,
             probe RAGService.apiUrl key RAGService.model
             = HttpResponse true status body)
    /\ (success outcome = false -> error outcome <> None)
    /\ UseRAG.isConfigured (UseRAG.status (UseRAG.mount w' st')) = truthy key.
Proof.
  intros probe w st key configured w' st' outcome.
  assert (Hstored : getItem (localStorage w') keyName = Some key).
  { unfold w', configured, UseRAG.configureRAG, RAGService_setApiKey,
      VectorService_setApiKey. cbn [fst snd localStorage].
    unfold getItem, setItem. apply Map_get_set_same. }
  split; [reflexivity | ]. split; [reflexivity | ]. split; [exact Hstored | ].
  assert (Hmount : UseRAG.isConfigured (UseRAG.status (UseRAG.mount w' st'))
                   = truthy key).
  { unfold UseRAG.mount. cbn [UseRAG.status UseRAG.withStatus UseRAG.isConfigured].
    rewrite Hstored. reflexivity. }
  unfold st', outcome, configured, UseRAG.configureRAG. cbn [fst snd].
  unfold testConnection, RAGService_setApiKey, VectorService_setApiKey.
  cbn [ragService RAGService.apiKey].
  destruct (truthy key) eqn:Hkey; cbn [negb].
  - destruct (probe RAGService.apiUrl key RAGService.model)
      as [reason | [ | ] status body] eqn:Ep; cbn.
    + repeat split; try discriminate; try exact Hmount.
      intros (_ & s & b & E). discriminate.
    + repeat split; try discriminate; try exact Hmount.
      exists status, body. reflexivity.
    + repeat split; try discriminate; try exact Hmount.
      intros (_ & s & b & E). discriminate.
  - cbn. repeat split; try discriminate; try exact Hmount.
    intros (E & _). discriminate.
Qed.

(** X25. [indexMeeting] always reports success, with no error, also when
    nothing was indexed: with no key in the vector service the store is
    unchanged.  The count it puts in the status is the count of the store,
    which never decreases. *)
Theorem indexMeeting_always_succeeds :
  forall (w : World) (st : UseRAG.t) (meeting : jsstring)
         (segments : list VectorService.Segment),
    let indexed := UseRAG.indexMeeting w st meeting segments in
    let w' := fst (fst indexed) in
    let st' := snd (fst indexed) in
    snd indexed = {| success := true; error := None |}
    /\ UseRAG.lastError (UseRAG.status st') = None
    /\ UseRAG.vectorCount (UseRAG.status st')
       = VectorService.getVectorCount (vectorService w')
    /\ (VectorService.getVectorCount (vectorService w)
        <= UseRAG.vectorCount (UseRAG.status st'))%nat
    /\ (truthy (VectorService.apiKey (vectorService w)) = false ->
        vectorService w' = vectorService w)
    /\ ragService w' = ragService w
    /\ localStorage w' = localStorage w.
Proof.
  intros w st meeting segments indexed w' st'.
  unfold st', w', indexed, UseRAG.indexMeeting.
  cbn [fst snd UseRAG.status UseRAG.withStatus UseRAG.lastError UseRAG.vectorCount
       vectorService ragService localStorage].
  split; [reflexivity | ]. split; [reflexivity | ]. split; [reflexivity | ].
  rewrite addMeetingSegments_appends.
  split; [ | split; [ | split; reflexivity]].
  - unfold VectorService.getVectorCount. cbn [VectorService.vectors].
    rewrite length_app. lia.
  - intros Hkey. rewrite Hkey, app_nil_r. destruct (vectorService w). reflexivity.
Qed.

Lemma query_total (rag : RAGService.t) (vs : VectorService.t) (question : jsstring)
  (currentMeetingId : option jsstring) :
  exists result, RAGService.query rag vs question currentMeetingId = Return result.
Proof.
  destruct (retrieveContext_origin rag vs question currentMeetingId)
    as (results & out & _ & Hout & _).
  unfold RAGService.query. rewrite Hout. cbn [bind].
  destruct out as [ | r out']; [eexists; reflexivity | ]. cbv iota.
  destruct (generateAnswer_total rag question
              (fst (RAGService.prepareContext rag (r :: out'))) currentMeetingId)
    as [answer Ha].
  rewrite Ha. eexists. reflexivity.
Qed.

(** X26. [askQuestion] ignores a blank question.  For any other question
    the query returns (the error branch is never taken), and exactly two
    messages are appended: the trimmed question as the user, with the next
    message number, and the answer as the assistant, with the number after
    it, the sources and the confidence of the result; [lastError] is
    cleared. *)
Theorem askQuestion_appends :
  forall (w : World) (st : UseRAG.t) (question : jsstring) (asked answered : number),
    (truthy (trim question) = false ->
     UseRAG.askQuestion w st question asked answered = (st, None))
    /\ (truthy (trim question) = true ->
        exists result userMessage assistantMessage,
          RAGService.query (ragService w) (vectorService w) question
            (match UseRAG.currentMeetingId st with
             | Some meeting => if truthy meeting then Some meeting else None
             | None => None
             end)
          = Return result
          /\ snd (UseRAG.askQuestion w st question asked answered) = Some result
          /\ UseRAG.chatMessages (fst (UseRAG.askQuestion w st question asked answered))
             = UseRAG.chatMessages st ++ [userMessage; assistantMessage]
          /\ UseRAG.role userMessage = UseRAG.user
          /\ UseRAG.content userMessage = trim question
          /\ UseRAG.id userMessage
             = UseRAG.messageId (UseRAG.messageIdCounter st + 1)
          /\ UseRAG.role assistantMessage = UseRAG.assistant
          /\ UseRAG.content assistantMessage = RAGService.answer result
          /\ UseRAG.sources assistantMessage = Some (RAGService.sources result)
          /\ UseRAG.confidence assistantMessage = Some (RAGService.confidence result)
          /\ UseRAG.id assistantMessage
             = UseRAG.messageId (UseRAG.messageIdCounter st + 1 + 1)
          /\ UseRAG.lastError
               (UseRAG.status (fst (UseRAG.askQuestion w st question asked answered)))
             = None).
Proof.
  intros w st question asked answered. unfold UseRAG.askQuestion. split; intros Hq;
    rewrite Hq; cbn [negb]; [reflexivity | ]. cbv zeta.
  destruct (query_total (ragService w) (vectorService w) question
              (match UseRAG.currentMeetingId st with
               | Some meeting => if truthy meeting then Some meeting else None
               | None => None
               end)) as [result Hr].
  rewrite Hr. cbn [fst snd UseRAG.chatMessages UseRAG.status UseRAG.lastError].
  eexists. eexists. eexists. split; [reflexivity | ]. split; [reflexivity | ].
  split; [reflexivity | ]. repeat split.
Qed.

(** X27. [clearVectors] empties the store and sets the count of the status
    to 0, keeping the key and the chat; a question asked next gets the
    no-evidence result. *)
Theorem clearVectors_forgets :
  forall (w : World) (st : UseRAG.t) (question : jsstring) (asked answered : number),
    truthy (trim question) = true ->
    let cleared := UseRAG.clearVectors w st in
    UseRAG.vectorCount (UseRAG.status (snd cleared)) = 0%nat
    /\ VectorService.getVectorCount (vectorService (fst cleared)) = 0%nat
    /\ VectorService.apiKey (vectorService (fst cleared))
       = VectorService.apiKey (vectorService w)
    /\ UseRAG.chatMessages (snd cleared) = UseRAG.chatMessages st
    /\ snd (UseRAG.askQuestion (fst cleared) (snd cleared) question asked answered)
       = Some RAGService.noEvidenceResult.
Proof.
  intros w st question asked answered Hq cleared.
  split; [reflexivity | ]. split; [reflexivity | ]. split; [reflexivity | ].
  split; [reflexivity | ].
  unfold UseRAG.askQuestion. rewrite Hq. cbn [negb]. cbv zeta.
  assert (E : forall current,
             RAGService.query (ragService (fst cleared)) (vectorService (fst cleared))
               question current
             = Return RAGService.noEvidenceResult).
  { intros current. unfold RAGService.query, RAGService.retrieveContext.
    rewrite semanticSearch_empty_store by reflexivity.
    destruct current as [[ | c id] | ]; reflexivity. }
  rewrite E. reflexivity.
Qed.



Lemma isDigit_cases c :
  isDigit c = true ->
  (c = 48 \/ c = 49 \/ c = 50 \/ c = 51 \/ c = 52 \/ c = 53 \/ c = 54 \/ c = 55
   \/ c = 56 \/ c = 57)%Z.
Proof.
  unfold isDigit. intros H. apply andb_true_iff in H. destruct H as [H1 H2].
  apply Z.leb_le in H1, H2. lia.
Qed.

Lemma takeWhile_all {A} (p : A -> bool) (l : list A) :
  Forall (fun x => p x = true) l -> takeWhile p l = l.
Proof.
  induction 1 as [ | x l Hx Hl IH]; simpl; [reflexivity | ].
  rewrite Hx, IH. reflexivity.
Qed.

Lemma parseInt10_unsigned c rest :
  isDigit c = true ->
  parseInt10 (c :: rest)
  = match takeWhile isDigit (c :: rest) with
    | [] => nan
    | digits => Number_of_Z (digitsValue digits)
    end.
Proof.
  intros H. apply isDigit_cases in H.
  destruct H as [-> | [-> | [-> | [-> | [-> | [-> | [-> | [-> | [-> | ->]]]]]]]]];
    reflexivity.
Qed.

Lemma parseInt10_digits digits :
  digits <> [] -> Forall (fun c => isDigit c = true) digits ->
  parseInt10 digits = Number_of_Z (digitsValue digits).
Proof.
  intros Hne Hd. destruct digits as [ | c rest]; [contradiction | ].
  inversion Hd as [ | ? ? Hc Hrest]; subst.
  rewrite (parseInt10_unsigned c rest Hc), (takeWhile_all isDigit (c :: rest) Hd).
  reflexivity.
Qed.

Lemma decimal_digits_spec : forall fuel z acc,
  (0 <= z < 10 ^ Z.of_nat fuel)%Z ->
  exists digits,
    ScriptedHost.decimal_digits fuel z acc = digits ++ acc
    /\ Forall (fun c => isDigit c = true) digits
    /\ digitsValue digits = z
    /\ ((1 <= fuel)%nat -> digits <> []).
Proof.
  induction fuel as [ | fuel IH]; intros z acc Hz.
  - exists []. simpl in *. split; [reflexivity | ]. split; [constructor | ].
    split; [unfold digitsValue; cbn [fold_left]; lia | lia].
  - cbn [ScriptedHost.decimal_digits].
    assert (Hd : isDigit (48 + z mod 10) = true).
    { unfold isDigit. pose proof (Z.mod_pos_bound z 10 ltac:(lia)).
      apply andb_true_iff. split; apply Z.leb_le; lia. }
    destruct (z <? 10)%Z eqn:E.
    + apply Z.ltb_lt in E. exists [(48 + z mod 10)%Z].
      split; [reflexivity | ]. split; [constructor; [exact Hd | constructor] | ].
      split; [ | discriminate].
      unfold digitsValue. cbn [fold_left]. rewrite Z.mod_small by lia. lia.
    + apply Z.ltb_ge in E.
      destruct (IH (z / 10)%Z ((48 + z mod 10)%Z :: acc)) as (ds & E1 & E2 & E3 & _).
      { rewrite Nat2Z.inj_succ, Z.pow_succ_r in Hz by lia.
        split; [apply Z.div_pos; lia | apply Z.div_lt_upper_bound; lia]. }
      exists (ds ++ [(48 + z mod 10)%Z]). rewrite E1, <- app_assoc.
      split; [reflexivity | ]. split.
      { apply Forall_app. split; [exact E2 | constructor; [exact Hd | constructor]]. }
      split; [ | intros _ Habs; destruct ds; discriminate].
      unfold digitsValue in *. rewrite fold_left_app, E3. cbn [fold_left].
      pose proof (Z.div_mod z 10 ltac:(lia)). lia.
Qed.

Lemma decimal_spec n :
  decimal n <> []
  /\ Forall (fun c => isDigit c = true) (decimal n)
  /\ digitsValue (decimal n) = Z.of_nat n.
Proof.
  unfold decimal.
  destruct (decimal_digits_spec (S n) (Z.of_nat n) []) as (ds & E1 & E2 & E3 & E4).
  { pose proof (Z.pow_gt_lin_r 10 (Z.of_nat (S n)) ltac:(lia) ltac:(lia)). lia. }
  rewrite E1, app_nil_r. split; [apply E4; lia | ]. split; assumption.
Qed.

Lemma split_string_underscore s :
  split_string [95%Z] s = split_class (Z.eqb 95) s.
Proof.
  unfold split_string. induction s as [ | c s IH]; [reflexivity | ].
  cbn [split_string_from split_class startsWith List.length Nat.sub].
  rewrite andb_true_r, IH. reflexivity.
Qed.

Lemma split_class_none (sep : Z -> bool) (d : jsstring) :
  Forall (fun x => sep x = false) d -> split_class sep d = [d].
Proof.
  induction 1 as [ | x d Hx Hd IH]; simpl; [reflexivity | ].
  rewrite Hx, IH. reflexivity.
Qed.

Lemma split_class_last (sep : Z -> bool) (c : Z) (d : jsstring) :
  sep c = true -> Forall (fun x => sep x = false) d ->
  forall a, exists pre, pre <> [] /\ split_class sep (a ++ c :: d) = pre ++ [d].
Proof.
  intros Hc Hd. induction a as [ | x a (pre & Hpre & E)]; simpl.
  - exists [[]]. rewrite Hc, (split_class_none sep d Hd).
    split; [discriminate | reflexivity].
  - rewrite E. destruct (sep x).
    + exists ([] :: pre). split; [discriminate | reflexivity].
    + destruct pre as [ | cur rest]; [contradiction | ].
      exists ((x :: cur) :: rest). split; [discriminate | reflexivity].
Qed.

Lemma binary_normalize_not_nan z :
  SFnot_nan (binary_normalize prec emax z 0 false).
Proof.
  destruct z as [ | p | p]; simpl binary_normalize; [exact I | | ].
  - pose proof (binary_round_signed false p 0 ltac:(lia)) as H.
    destruct (binary_round prec emax false p 0); simpl in *; tauto.
  - pose proof (binary_round_signed true p 0 ltac:(lia)) as H.
    destruct (binary_round prec emax true p 0); simpl in *; tauto.
Qed.

Lemma number_of_nat_Number_of_Z n :
  (Z.of_nat n < 2 ^ 63)%Z -> number_of_nat n = Number_of_Z (Z.of_nat n).
Proof.
  intros Hn. unfold number_of_nat, Number_of_Z.
  rewrite <- (SF2Prim_Prim2SF (of_uint63 _)), FloatAxioms.of_uint63_spec.
  rewrite Uint63.of_Z_spec. rewrite Z.mod_small; [reflexivity | ].
  change Uint63.wB with (2 ^ 63)%Z. lia.
Qed.

Lemma number_of_nat_not_nan n : is_nan (number_of_nat n) = false.
Proof.
  apply is_nan_false_iff. unfold number_of_nat.
  rewrite FloatAxioms.of_uint63_spec. apply binary_normalize_not_nan.
Qed.


(** X28. [jumpToSegment] reads back the index that [addMeetingSegments]
    wrote into a segment id: for a segment whose index is a natural number
    printed in decimal, the id of its records makes [jumpToSegment] call
    [onJump] with that index, whatever the meeting id is (it may contain
    underscores); without a callback nothing is called. *)
Theorem jumpToSegment_reads_index :
  forall (key meeting : jsstring) (segment : Segment) (chunk : nat * jsstring)
         (n : nat),
    VectorService.idx segment = number_of_nat n ->
    (Z.of_nat n < 2 ^ 63)%Z ->
    Number_toString (VectorService.idx segment) = decimal n ->
    let id := segmentId (metadata (recordOf key meeting segment chunk)) in
    UseRAG.jumpToSegment id true = Some (VectorService.idx segment)
    /\ UseRAG.jumpToSegment id false = None.
Proof.
  intros key meeting segment chunk n Hidx Hn Hprint id.
  destruct (decimal_spec n) as (Hne & Hdigits & Hvalue).
  assert (Hnone : Forall (fun x => (95 =? x)%Z = false) (decimal n)).
  { apply Forall_impl with (2 := Hdigits). intros c Hc.
    apply isDigit_cases in Hc.
    destruct Hc as [-> | [-> | [-> | [-> | [-> | [-> | [-> | [-> | [-> | ->]]]]]]]]];
      reflexivity. }
  destruct (split_class_last (Z.eqb 95) 95%Z (decimal n) eq_refl Hnone meeting)
    as (pre & Hpre & Esplit).
  assert (Eparts : split_string (js "_") id = pre ++ [decimal n]).
  { unfold id. cbn [segmentId metadata recordOf]. rewrite Hprint.
    change (js "_") with [95%Z]. rewrite split_string_underscore.
    exact Esplit. }
  assert (Eparse : parseInt10 (decimal n) = VectorService.idx segment).
  { rewrite (parseInt10_digits _ Hne Hdigits), Hvalue, Hidx.
    symmetry. apply number_of_nat_Number_of_Z. exact Hn. }
  assert (Hlen : (2 <=? List.length (pre ++ [decimal n]))%nat = true).
  { apply Nat.leb_le. rewrite length_app. simpl.
    destruct pre; [contradiction | simpl; lia]. }
  unfold UseRAG.jumpToSegment. rewrite Eparts, Hlen, last_last, Eparse.
  unfold isNaN. rewrite Hidx, number_of_nat_not_nan. split; reflexivity.
Qed.


End CallerProperties.


(** ** Concrete runs *)

Lemma query_without_evidence_witness :
  (RAGService.retrieveContext (host := ScriptedHost.offline) sampleRag emptyStore
     (js "anything") None = Return []
   \/ vectors emptyStore = [])
  /\ RAGService.query (host := ScriptedHost.offline) sampleRag emptyStore
       (js "anything") None
     = Return {| RAGService.answer := RAGService.noEvidenceAnswer;
                 RAGService.sources := [];
                 RAGService.usedContext := [];
                 RAGService.confidence := 0 |}.
Proof.
  assert (H : RAGService.retrieveContext (host := ScriptedHost.offline) sampleRag
                emptyStore (js "anything") None = Return []
              \/ vectors emptyStore = []) by (right; reflexivity).
  split; [exact H | ].
  exact (query_without_evidence (host := ScriptedHost.offline) sampleRag emptyStore
           (js "anything") None H).
Defined.

Lemma calculateConfidence_formula_witness :
  twoSources <> []
  /\ RAGService.calculateConfidence twoSources (js "可能是这样")
     = confidenceFormula twoSources (js "可能是这样")
  /\ (RAGService.calculateConfidence twoSources (js "可能是这样") <=? 1) = true.
Proof.
  assert (Hne : twoSources <> []) by discriminate.
  split; [exact Hne | ].
  destruct (proj1 calculateConfidence_formula twoSources (js "可能是这样") Hne)
    as [E B].
  split; [exact E | apply B; reflexivity].
Defined.

(** The confidence of the two sources under a hedged answer. *)
Example calculateConfidence_twoSources :
  RAGService.calculateConfidence twoSources (js "可能是这样") = 0.45333333333333337.
Proof. reflexivity. Qed.

(** C7, as stated, fails: a non-zero vector whose square underflows has
    similarity 0 with itself, and a zero vector against a vector whose
    squared norm overflows gives NaN, not 0. *)
Lemma cosineSimilarity_self_can_be_zero :
  existsb (fun x => negb (x =? 0)) [tiny] = true
  /\ cosineSimilarity [tiny] [tiny] = 0
  /\ (norm [0] =? 0) = true
  /\ is_nan (cosineSimilarity [0] [huge]) = true.
Proof. repeat split. Qed.

Lemma cosineSimilarity_properties_witness :
  cosineSimilarity [3; 4] [4; 3] = cosineSimilarity [4; 3] [3; 4]
  /\ cosineSimilarity [0; 0] [3; 4] = 0
  /\ cosineSimilarity [3; 4] [3; 4] = 1.
Proof.
  destruct (cosineSimilarity_properties [3; 4] [4; 3]) as (Hsym & _).
  destruct (cosineSimilarity_properties [0; 0] [3; 4]) as (_ & _ & Hzero & _).
  destruct (cosineSimilarity_properties [3; 4] [3; 4]) as (_ & _ & _ & Hself).
  split; [exact Hsym | ]. split.
  - apply Hzero; reflexivity.
  - rewrite Hself. reflexivity.
Defined.

(** The fallback embedding of "a" has five components 0.1 / sqrt(0.05);
    its norm recomputed in binary64 is the number next below 1: a unit
    vector up to rounding. *)
Example getFallbackEmbedding_single_letter :
  filter (fun x => negb (x =? 0))
    (getFallbackEmbedding (host := ScriptedHost.offline) (js "a"))
  = [0.44721359549995793; 0.44721359549995793; 0.44721359549995793;
     0.44721359549995793; 0.44721359549995793]
  /\ norm (getFallbackEmbedding (host := ScriptedHost.offline) (js "a"))
     = 0.99999999999999989.
Proof. vm_compute. split; reflexivity. Qed.

Lemma getFallbackEmbedding_properties_witness :
  List.length (getFallbackEmbedding (host := ScriptedHost.offline) (js "Budget review"))
  = 384%nat
  /\ getFallbackEmbedding (host := ScriptedHost.offline) (js "?!") = repeat 0 384
  /\ FloatValue.unitNorm (FloatValue.pow2 (-43))
       (getFallbackEmbedding (host := ScriptedHost.offline) (js "Budget review")).
Proof.
  split; [ | split].
  - exact (proj1 (getFallbackEmbedding_properties ScriptedHost.offline
                    ScriptedHost.offline (js "Budget review"))).
  - refine (proj1 (proj2 (proj2 (proj2
             (getFallbackEmbedding_properties ScriptedHost.offline
                ScriptedHost.offline (js "?!"))))) _).
    vm_compute. reflexivity.
  - refine (proj2 (proj2 (proj2 (proj2
             (getFallbackEmbedding_properties ScriptedHost.offline
                ScriptedHost.offline (js "Budget review"))))) _ _).
    + vm_compute. reflexivity.
    + vm_compute. discriminate.
Defined.

(** A text without a word: the fallback embedding is 384 zeros. *)
Example getFallbackEmbedding_punctuation :
  fallbackWords (host := ScriptedHost.offline) (js "?!") = []
  /\ getFallbackEmbedding (host := ScriptedHost.offline) (js "?!") = repeat 0 384.
Proof. vm_compute. split; reflexivity. Qed.

(** C3, as stated, fails: the one stored record is the top result of the
    ranking, and [semanticSearch] does not return it, because its
    similarity, 0, is not greater than 0.7. *)
Lemma semanticSearch_drops_low_similarity :
  getEmbedding (host := online) orthogonalStore (js "budget") = Return [1; 0]
  /\ slice0 5 (sort bySimilarityDesc (map (score [1; 0]) (vectors orthogonalStore)))
     = [{| vector := sampleVector (js "m_0") (js "m") [0; 1]; similarity := 0 |}]
  /\ semanticSearch (host := online) orthogonalStore (js "budget") 5 = Return [].
Proof. repeat split. Qed.

Lemma semanticSearch_ranked_witness :
  getEmbedding (host := online) threeVectors (js "budget") = Return [1; 0]
  /\ ToIntegerOrInfinity 2 = Integer (Z.of_nat 2)
  /\ semanticSearch (host := online) (clear threeVectors) (js "budget") 2 = Return []
  /\ exists ranking,
       Permutation ranking (map (score [1; 0]) (vectors threeVectors))
       /\ (keysAreNumbers similarity ranking ->
           StronglySorted (nonIncreasing similarity) ranking)
       /\ semanticSearch (host := online) threeVectors (js "budget") 2
          = Return (filter (fun r => 0.7 <? similarity r) (slice0 2 ranking))
       /\ (forall k : nat,
             ToIntegerOrInfinity 2 = Integer (Z.of_nat k) ->
             semanticSearch (host := online) threeVectors (js "budget") 2
             = Return (filter (fun r => 0.7 <? similarity r) (firstn k ranking))).
Proof.
  assert (Hq : getEmbedding (host := online) threeVectors (js "budget") = Return [1; 0])
    by reflexivity.
  assert (Hk : ToIntegerOrInfinity 2 = Integer (Z.of_nat 2)) by reflexivity.
  split; [exact Hq | ]. split; [exact Hk | ]. split.
  - exact (proj1 (semanticSearch_ranked (host := online) (clear threeVectors)
                    (js "budget") 2) eq_refl).
  - exact (proj2 (semanticSearch_ranked (host := online) threeVectors (js "budget") 2)
             [1; 0] Hq).
Defined.

(** The search of the three records, limit 2: similarities 1 and 0.8. *)
Example semanticSearch_threeVectors :
  semanticSearch (host := online) threeVectors (js "budget") 2
  = Return [score [1; 0] (sampleVector (js "m_1") (js "m") [1; 0]);
            score [1; 0] (sampleVector (js "m_2") (js "m") [0.8; 0.6])].
Proof. reflexivity. Qed.

(** A whole query: the endpoint embeds the question as [[1; 0]], the chat
    endpoint is unreachable, the current meeting is "m". Two records pass
    the filters, boosted to 1.2 and 0.96; the answer is the extractive
    fallback and the confidence is (1.2 + 0.96) / 2 * (2 / 3). *)
Example query_threeVectors :
  exists result,
    RAGService.query (host := online) sampleRag threeVectors (js "budget")
      (Some (js "m")) = Return result
    /\ map RAGService.src_segmentId (RAGService.sources result) = [js "m_1"; js "m_2"]
    /\ map RAGService.src_similarity (RAGService.sources result)
       = [1.2; 0.95999999999999996]
    /\ RAGService.usedContext result
       = js "[0:00] A: text" ++ [10; 10]%Z ++ js "[0:00] A: text"
    /\ RAGService.confidence result = 0.71999999999999997.
Proof. eexists. split; [reflexivity | ]. vm_compute. repeat split. Qed.

(** Retrieval over two chunks of one segment keeps the better chunk. *)
Example retrieveContext_twoChunks :
  RAGService.retrieveContext (host := online) sampleRag twoChunks (js "budget") None
  = Return [score [1; 0] (sampleVector (js "m_1") (js "m") [1; 0])].
Proof. reflexivity. Qed.
(** ** Concrete runs of the further properties *)

Lemma getEmbedding_with_key_returns_witness :
  truthy (apiKey emptyStore) = true
  /\ getEmbedding (host := online) emptyStore (js "budget plan") = Return [1; 0]
  /\ getEmbedding (host := ScriptedHost.offline) emptyStore (js "budget plan")
     = Return (getFallbackEmbedding (host := ScriptedHost.offline)
                 (cleanText (js "budget plan")))
  /\ List.length
       (getFallbackEmbedding (host := ScriptedHost.offline) (cleanText (js "budget plan")))
     = dimension.
Proof.
  assert (H : truthy (apiKey emptyStore) = true) by reflexivity.
  split; [exact H | ]. split; [ | split].
  - exact (proj1 (getEmbedding_with_key_returns (host := online) emptyStore
                    (js "budget plan") H) 200 [1; 0] eq_refl).
  - refine (proj1 (proj2 (getEmbedding_with_key_returns (host := ScriptedHost.offline)
                            emptyStore (js "budget plan") H)) _).
    intros status embedding E. discriminate E.
  - exact (proj2 (proj2 (getEmbedding_with_key_returns (host := ScriptedHost.offline)
                           emptyStore (js "budget plan") H))).
Defined.

Lemma addMeetingSegments_indexes_kept_chunks_witness :
  truthy (apiKey emptyStore) = true
  /\ vectors (addMeetingSegments (host := online) emptyStore (js "m") [sampleSegment])
     = vectors emptyStore
       ++ indexedRecords (host := online) (apiKey emptyStore) (js "m") [sampleSegment]
  /\ getVectorCount
       (addMeetingSegments (host := online) emptyStore (js "m") [sampleSegment])
     = (getVectorCount emptyStore
        + List.length (flat_map indexedChunks [sampleSegment]))%nat.
Proof.
  assert (H : truthy (apiKey emptyStore) = true) by reflexivity.
  split; [exact H | ].
  exact (addMeetingSegments_indexes_kept_chunks (host := online) emptyStore (js "m")
           [sampleSegment] H).
Defined.

Lemma addMeetingSegments_twice_duplicates_witness :
  truthy (apiKey emptyStore) = true
  /\ exists added again,
       vectors (addMeetingSegments (host := online) emptyStore (js "m") [sampleSegment])
       = vectors emptyStore ++ added
       /\ vectors
            (addMeetingSegments
               (host := withEmbeddings (host := online)
                          (fun _ _ _ _ => FetchRejected (js "Failed to fetch")))
               (addMeetingSegments (host := online) emptyStore (js "m") [sampleSegment])
               (js "m") [sampleSegment])
          = vectors emptyStore ++ added ++ again
       /\ map metadata again = map metadata added
       /\ getVectorCount
            (addMeetingSegments
               (host := withEmbeddings (host := online)
                          (fun _ _ _ _ => FetchRejected (js "Failed to fetch")))
               (addMeetingSegments (host := online) emptyStore (js "m") [sampleSegment])
               (js "m") [sampleSegment])
          = (getVectorCount emptyStore + 2 * List.length added)%nat.
Proof.
  assert (H : truthy (apiKey emptyStore) = true) by reflexivity.
  split; [exact H | ].
  exact (addMeetingSegments_twice_duplicates online emptyStore (js "m")
           [sampleSegment] (fun _ _ _ _ => FetchRejected (js "Failed to fetch")) H).
Defined.

(** Indexed once while the endpoint answers and once while it does not:
    the same segment id twice, with embeddings of 2 and of 384 components. *)
Example addMeetingSegments_twice_sampleSegment :
  map (fun v => (segmentId (metadata v), List.length (embedding v)))
    (vectors
       (addMeetingSegments
          (host := withEmbeddings (host := online)
                     (fun _ _ _ _ => FetchRejected (js "Failed to fetch")))
          (addMeetingSegments (host := online) emptyStore (js "m") [sampleSegment])
          (js "m") [sampleSegment]))
  = [(js "m_3", 2%nat); (js "m_3", 384%nat)].
Proof. vm_compute. reflexivity. Qed.

(** The sample segment is one chunk, stored once per indexing. *)
Example addMeetingSegments_sampleSegment :
  map (fun v => (segmentId (metadata v), text (metadata v), chunkIndex (metadata v)))
    (vectors (addMeetingSegments (host := online) emptyStore (js "m") [sampleSegment]))
  = [(js "m_3", js "We agreed on the budget。 Next steps follow next week", None)].
Proof. vm_compute. reflexivity. Qed.

Lemma deduplicateResults_idempotent_witness :
  keysAreNumbers similarity twoSources
  /\ (NoDup (map segmentOf twoSources) ->
      StronglySorted (nonIncreasing similarity) twoSources ->
      RAGService.deduplicateResults twoSources = twoSources)
  /\ RAGService.deduplicateResults (RAGService.deduplicateResults twoSources)
     = RAGService.deduplicateResults twoSources.
Proof.
  assert (H : keysAreNumbers similarity twoSources)
    by (repeat constructor).
  split; [exact H | exact (deduplicateResults_idempotent twoSources H)].
Defined.

Lemma prepareContext_length_bound_witness :
  RAGService.maxContextLength (RAGService.config tightRag) = number_of_nat 28
  /\ (Z.of_nat 28 < 2 ^ 53)%Z
  /\ (Z.of_nat
        (String_length
           (fst (RAGService.prepareContext (host := ScriptedHost.offline) tightRag
                   twoSources)))
      < 2 ^ 53)%Z
  /\ (String_length
        (fst (RAGService.prepareContext (host := ScriptedHost.offline) tightRag
                twoSources))
      <= 28 + 2)%nat.
Proof.
  assert (H1 : RAGService.maxContextLength (RAGService.config tightRag)
               = number_of_nat 28) by reflexivity.
  assert (H2 : (Z.of_nat 28 < 2 ^ 53)%Z) by (vm_compute; reflexivity).
  assert (H3 : (Z.of_nat
                  (String_length
                     (fst (RAGService.prepareContext (host := ScriptedHost.offline)
                             tightRag twoSources)))
                < 2 ^ 53)%Z) by (vm_compute; reflexivity).
  split; [exact H1 | ]. split; [exact H2 | ]. split; [exact H3 | ].
  exact (prepareContext_length_bound (host := ScriptedHost.offline) tightRag twoSources
           28 H1 H2 H3).
Defined.

(** Two lines of 14 units fit a limit of 28, and the context they make is
    30 units long: the separator is not counted. *)
Example prepareContext_exceeds_limit :
  RAGService.prepareContext (host := ScriptedHost.offline) tightRag twoSources
  = (js "[0:00] A: text" ++ [10; 10]%Z ++ js "[0:00] A: text", false)
  /\ String_length
       (fst (RAGService.prepareContext (host := ScriptedHost.offline) tightRag
               twoSources))
     = 30%nat.
Proof. vm_compute. split; reflexivity. Qed.

Lemma clearVectors_forgets_witness :
  truthy (trim (js " what was decided? ")) = true
  /\ UseRAG.vectorCount
       (UseRAG.status (snd (UseRAG.clearVectors sampleWorld UseRAG.initial)))
     = 0%nat
  /\ getVectorCount (App.vectorService (fst (UseRAG.clearVectors sampleWorld UseRAG.initial)))
     = 0%nat
  /\ apiKey (App.vectorService (fst (UseRAG.clearVectors sampleWorld UseRAG.initial)))
     = apiKey (App.vectorService sampleWorld)
  /\ UseRAG.chatMessages (snd (UseRAG.clearVectors sampleWorld UseRAG.initial))
     = UseRAG.chatMessages UseRAG.initial
  /\ snd (UseRAG.askQuestion (host := online)
            (fst (UseRAG.clearVectors sampleWorld UseRAG.initial))
            (snd (UseRAG.clearVectors sampleWorld UseRAG.initial))
            (js " what was decided? ") 1 2)
     = Some RAGService.noEvidenceResult.
Proof.
  assert (H : truthy (trim (js " what was decided? ")) = true) by reflexivity.
  split; [exact H | ].
  exact (clearVectors_forgets (host := online) sampleWorld UseRAG.initial
           (js " what was decided? ") 1 2 H).
Defined.

Lemma jumpToSegment_reads_index_witness :
  idx sampleSegment = number_of_nat 3
  /\ (Z.of_nat 3 < 2 ^ 63)%Z
  /\ Number_toString (Host := online) (idx sampleSegment) = decimal 3
  /\ UseRAG.jumpToSegment
       (segmentId
          (metadata
             (recordOf (host := online) (js "sk-test") (js "meeting_1700000000000")
                sampleSegment (0%nat, js "We agreed on the budget"))))
       true
     = Some (idx sampleSegment)
  /\ UseRAG.jumpToSegment
       (segmentId
          (metadata
             (recordOf (host := online) (js "sk-test") (js "meeting_1700000000000")
                sampleSegment (0%nat, js "We agreed on the budget"))))
       false
     = None.
Proof.
  assert (H1 : idx sampleSegment = number_of_nat 3) by reflexivity.
  assert (H2 : (Z.of_nat 3 < 2 ^ 63)%Z) by (vm_compute; reflexivity).
  assert (H3 : Number_toString (Host := online) (idx sampleSegment) = decimal 3)
    by reflexivity.
  split; [exact H1 | ]. split; [exact H2 | ]. split; [exact H3 | ].
  exact (jumpToSegment_reads_index (host := online) (js "sk-test")
           (js "meeting_1700000000000") sampleSegment
           (0%nat, js "We agreed on the budget") 3 H1 H2 H3).
Defined.

(** The chat endpoint answers: with a key the trimmed completion is the
    answer; without one the endpoint is not asked and the answer is the
    fallback. *)
Example generateAnswer_answering :
  RAGService.generateAnswer (host := answering) keyedRag (js "What is the budget?")
    (js "[1] Ann: The budget is 40k") None
  = Return (js "The budget is 40k.")
  /\ RAGService.generateAnswer (host := answering) sampleRag (js "What is the budget?")
       (js "[1] Ann: The budget is 40k") None
     = Return (RAGService.generateFallbackAnswer (host := answering)
                 (js "What is the budget?")
                 (js "[1] Ann: The budget is 40k")).
Proof. vm_compute. split; reflexivity. Qed.

(** A question asked of the three records: two messages are appended. *)
Example askQuestion_threeVectors :
  map (fun m => (UseRAG.id m, UseRAG.role m))
    (UseRAG.chatMessages
       (fst (UseRAG.askQuestion (host := online) sampleWorld UseRAG.initial
               (js "budget?") 1 2)))
  = [(js "msg_1", UseRAG.user); (js "msg_2", UseRAG.assistant)]
  /\ UseRAG.chatMessages
       (fst (UseRAG.askQuestion (host := online) sampleWorld UseRAG.initial
               (js "   ") 1 2))
     = [].
Proof. vm_compute. split; reflexivity. Qed.

Lemma chunkText_chunk_length_witness :
  (0 <= defaultMaxLength)%Z
  /\ (chunkText halfAndHalf defaultMaxLength = [halfAndHalf]
      \/ Forall (shortOrSentence (sentencesOf halfAndHalf) defaultMaxLength)
           (chunkText halfAndHalf defaultMaxLength)).
Proof.
  assert (H : (0 <= defaultMaxLength)%Z) by (unfold defaultMaxLength; lia).
  split; [exact H | exact (chunkText_chunk_length halfAndHalf defaultMaxLength H)].
Defined.

Lemma addMeetingSegments_needs_key_witness :
  truthy (apiKey (setApiKey threeVectors [])) = false
  /\ addMeetingSegments (host := online) (setApiKey threeVectors []) (js "m")
       [sampleSegment]
     = setApiKey threeVectors []
  /\ getVectorCount
       (addMeetingSegments (host := online) (setApiKey threeVectors []) (js "m")
          [sampleSegment])
     = getVectorCount (setApiKey threeVectors []).
Proof.
  assert (H : truthy (apiKey (setApiKey threeVectors [])) = false) by reflexivity.
  split; [exact H | ].
  exact (addMeetingSegments_needs_key (host := online) (setApiKey threeVectors [])
           (js "m") [sampleSegment] H).
Defined.

Lemma semanticSearch_dimension_mismatch_witness :
  getEmbedding (host := ScriptedHost.offline) threeVectors (js "budget")
  = Return (getFallbackEmbedding (host := ScriptedHost.offline) (js "budget"))
  /\ Forall
       (fun v =>
          List.length (embedding v)
          <> List.length (getFallbackEmbedding (host := ScriptedHost.offline)
                            (js "budget")))
       (vectors threeVectors)
  /\ semanticSearch (host := ScriptedHost.offline) threeVectors (js "budget") 5
     = Return [].
Proof.
  assert (H1 : getEmbedding (host := ScriptedHost.offline) threeVectors (js "budget")
               = Return (getFallbackEmbedding (host := ScriptedHost.offline)
                           (js "budget"))) by reflexivity.
  assert (H2 : Forall
                 (fun v =>
                    List.length (embedding v)
                    <> List.length (getFallbackEmbedding (host := ScriptedHost.offline)
                                      (js "budget")))
                 (vectors threeVectors)).
  { repeat (constructor; [intros E; vm_compute in E; discriminate E | ]).
    constructor. }
  split; [exact H1 | ]. split; [exact H2 | ].
  exact (semanticSearch_dimension_mismatch (host := ScriptedHost.offline) threeVectors
           (js "budget") 5 _ H1 H2).
Defined.
